(** * riffle: the per-server protocol engine (server/server.go)

    A shallow embedding of the Go server of the riffle anonymous
    file-sharing system, and the properties of its registration barrier,
    request pipeline, shuffle cascade and PIR download pipeline.

    Layout:
    - Go data (ints, byte slices, slices indexed by int, maps);
    - the types and helpers of package [afs/lib] and of the crypto suite
      the server is written against;
    - the [Server] struct;
    - goroutine programs: atomic statements on the server struct, channel
      operations, RPC calls, mutexes, [go] and the WaitGroup fork/join;
    - the operational semantics of goroutine programs;
    - every function of server.go, statement by statement;
    - the theorems. *)

From Stdlib Require Import ZArith String List Eqdep Lia.
From stdpp Require Import gmap strings list pretty.

Local Open Scope string_scope.
Local Open Scope list_scope.
Local Open Scope Z_scope.

(** ** Go data *)

(** A Go [byte] is an 8-bit [Z]; a [[]byte] is a list of them. *)
Abbreviation bytes := (list Z).

(** Go's [int] on the 64-bit targets the server is built for: arithmetic
    wraps around in two's complement. *)
Definition int_min : Z := - 2 ^ 63.
Definition int_max : Z := 2 ^ 63 - 1.
Definition int_wrap (z : Z) : Z := (z + 2 ^ 63) mod 2 ^ 64 - 2 ^ 63.
Definition int_add (a b : Z) : Z := int_wrap (a + b).
Definition int_sub (a b : Z) : Z := int_wrap (a - b).

(** The outcome of a statement that can panic. *)
Inductive Result (A : Type) : Type :=
| Ok (a : A)
| Err (msg : string).
Arguments Ok {A} a.
Arguments Err {A} msg.

Definition bind {A B} (r : Result A) (f : A -> Result B) : Result B :=
  match r with
  | Ok a => f a
  | Err m => Err m
  end.

Definition index_out_of_range : string := "runtime error: index out of range".

(** [l[i]] for a slice [l] and an [int] index: a read out of range panics. *)
Definition index {A} (l : list A) (i : Z) : option A :=
  if decide (0 <= i) then l !! Z.to_nat i else None.

Definition at_index {A} (l : list A) (i : Z) : Result A :=
  match index l i with
  | Some a => Ok a
  | None => Err index_out_of_range
  end.

(** [l[i] = a]: a write out of range panics as well. *)
Definition store {A} (l : list A) (i : Z) (a : A) : Result (list A) :=
  match index l i with
  | Some _ => Ok (<[Z.to_nat i := a]> l)
  | None => Err index_out_of_range
  end.

(** [len(l)] as an [int]. *)
Definition len {A} (l : list A) : Z := Z.of_nat (length l).

(** [make([]byte, n)]: [n] zero bytes. *)
Definition zeros (n : nat) : bytes := repeat 0 n.

(** The indices [0, 1, ..., n-1] visited by [for i := 0; i < n; i++] and by
    [for i := range l] with [n = len(l)]. *)
Definition upto (n : Z) : list Z := map Z.of_nat (seq 0 (Z.to_nat n)).

(** A read of a [map[int]V]: the zero value when the key is absent. *)
Definition map_get (m : gmap Z Z) (k : Z) : Z := default 0 (m !! k).

(** ** Package afs/lib: the wire types

    The package is imported by server.go; its struct declarations are read
    off the field accesses the server makes. *)

Module Block.
Record t := mk { Block : bytes; Round : Z }.
End Block.

Module UpBlock.
Record t := mk { BC1 : list bytes; BC2 : list bytes }.
End UpBlock.

Module ClientBlock.
Record t := mk { CId : Z; SId : Z; Block : Block.t }.
End ClientBlock.

Module ClientRegistration.
Record t := mk { Addr : string; ServerId : Z; Id : Z }.
End ClientRegistration.

Module ClientDH.
Record t := mk { Public : bytes; Id : Z }.
End ClientDH.

Module ClientMask.
Record t := mk { Mask : bytes; Id : Z }.
End ClientMask.

Module Request.
Record t := mk { Hash : list bytes; Round : Z }.
End Request.

Module ClientRequest.
Record t := mk { Request : Request.t; Id : Z }.
End ClientRequest.

(** ** The crypto suite

    [abstract.Suite] of dedis/crypto, with the shuffle and proof packages
    the server calls.  The server never looks inside a point, a secret or
    the random stream, so the suite is an interface here as it is in Go.
    [abstract.Cipher] is a stateful stream: every draw returns the stream
    that is left. *)
Class Suite := {
  Point : Type;
  Secret : Type;
  Cipher : Type;
  Prover : Type;
  (** [Point().Base()] *)
  Point_Base : Point;
  (** [Point().Mul(p, s)] *)
  Point_Mul : Point -> Secret -> Point;
  (** [Point().Add(p, q)] *)
  Point_Add : Point -> Point -> Point;
  (** [p.Data()]: the message embedded in [p], or an error *)
  Point_Data : Point -> Result bytes;
  (** [Secret().Pick(rand)] *)
  Secret_Pick : Cipher -> Secret * Cipher;
  (** the digest function behind [Suite.Hash()] *)
  digest : bytes -> bytes;
  (** [shuffle.Shuffle2(pi, g, nil, pk, X, Y, rand)] *)
  Shuffle2 : list Z -> Point -> list Point -> list Point -> Cipher ->
             (list Point * list Point * Prover) * Cipher;
  (** [proof.HashProve(Suite, "PairShuffle", rand, prover)] *)
  HashProve : Cipher -> Prover -> Result bytes * Cipher
}.

(** Go's [hash.Hash], which [Suite.Hash()] returns: the bytes written so
    far.  [Write] appends to them; [Sum(b)] "appends the current hash to b
    and returns the resulting slice" and leaves the state alone. *)
Module Hash.
Record t := mk { written : bytes }.
Definition Write (h : t) (p : bytes) : t := mk (written h ++ p).
Definition Sum `{Suite} (h : t) (b : bytes) : bytes := b ++ digest (written h).
End Hash.

(** [Suite.Hash()]: a fresh hash, nothing written. *)
Definition Suite_Hash : Hash.t := Hash.mk [].

(** ** Package afs/lib: constants and helpers

    What the server uses of the package as a black box: the three
    configuration constants, the point codec, the permutation sampler, the
    ElGamal layer decryption and the PIR selection. *)
Class Lib `{Suite} := {
  NumClients : Z;
  BlockSize : nat;
  SecretSize : nat;
  MarshalPoint : Point -> bytes;
  UnmarshalPoint : bytes -> Point;
  (** [GeneratePI(n, rand)] *)
  GeneratePI : Z -> Cipher -> list Z * Cipher;
  (** [Decrypt(g, c1, c2, sk)] *)
  Decrypt : Point -> Point -> Secret -> Point;
  (** [ComputeResponse(allBlocks, mask, secret)] *)
  ComputeResponse : list Block.t -> bytes -> bytes -> bytes
}.

(** Modelled from the spec: [Xor(a, r)] of afs/lib, which is not among the
    sources.  "XOR all remote shares into r" (section 4.6, step 4): [r] is
    updated in place, byte by byte, and keeps its length. *)
Fixpoint Xor (a r : bytes) : bytes :=
  match r with
  | [] => []
  | y :: r' =>
      match a with
      | [] => r
      | x :: a' => Z.lxor x y :: Xor a' r'
      end
  end.

(** Modelled from the spec: [Xors(bss)] of afs/lib, which is not among the
    sources.  The XOR of all the byte strings of [bss] (section 3,
    "XOR-combining shares"), accumulated into a zero string as long as the
    first of them. *)
Definition Xors (bss : list bytes) : bytes :=
  fold_left (fun acc bs => Xor bs acc) bss (zeros (length (hd [] bss))).

(** Modelled from the spec: [XorsDC(bsss)] of afs/lib, which is not among
    the sources.  "Elementwise XOR across clients, preserving the inner
    dimension" (section 4.4, step 2): entry [k] of the result is the XOR
    over all clients [i] of [bsss[i][k]]. *)
Definition XorsDC (bsss : list (list bytes)) : list bytes :=
  imap (fun k _ => Xors (map (fun bss => nth k bss []) bsss)) (hd [] bsss).

(** ** Channels

    A channel is named by the order in which the runtime made it.  All the
    server's channels are unbuffered: a send and a receive complete
    together. *)
Abbreviation chan := nat.

(** What travels on the server's channels: [chan bool], [chan Request],
    [chan UpBlock], [chan []UpBlock], [chan []Block] and [chan Block]. *)
Inductive msg :=
| MBool (b : bool)
| MRequest (r : Request.t)
| MUpBlock (u : UpBlock.t)
| MUpBlocks (us : list UpBlock.t)
| MBlocks (bs : list Block.t)
| MBlock (b : Block.t).

(** ** The RPC surface: the methods net/rpc serves as "Server.<name>" *)
Inductive rpc :=
| Server_Register (client : ClientRegistration.t)
| Server_Register2 (client : ClientRegistration.t)
| Server_RegisterDone2 (numClients : Z)
| Server_GetNumClients
| Server_GetPK
| Server_ShareMask (clientDH : ClientDH.t)
| Server_ShareSecret (clientDH : ClientDH.t)
| Server_RequestBlock (cr : ClientRequest.t)
| Server_ShareRequest (cr : ClientRequest.t)
| Server_GetReqHashes (id : Z)
| Server_UploadBlock (block : UpBlock.t)
| Server_UploadBlock2 (block : UpBlock.t)
| Server_ShuffleBlocks (blocks : list UpBlock.t)
| Server_GetUpHashes (id : Z)
| Server_GetResponse (cmask : ClientMask.t)
| Server_PutClientBlock (cblock : ClientBlock.t)
| Server_PutUploadedBlocks (blocks : list Block.t).

(** ** The Server struct

    Field for field as in server.go.  [g] is the suite itself and is not
    stored.  [rand] is the current state of the random stream.  An
    [rpc.Client] is named by the address it was dialled at.  A mutex is
    [true] while held.  A nil slice is the empty list and a nil map the
    empty map (the server never writes to a nil map); a nil interface
    value or nil channel is [None].  [made] is not a Go field: it counts
    the channels made so far, so that [make(chan T)] is a function of the
    state. *)
Module Server.
Record t `{Suite} := mk {
    addr : string;
    port : Z;
    id : Z;
    servers : list string;
    rpcServers : list string;
    regLock : list bool;
    regDone : bool;
    rand : Cipher;
    sk : Secret;
    pk : Point;
    pks : list (option Point);
    nextPk : option Point;
    allBlocks : list Block.t;
    clients : list string;
    clientMap : gmap Z Z;
    numClients : Z;
    totalClients : Z;
    requestsChan : list chan;
    reqHashes : list bytes;
    reqHashesRdy : list chan;
    ublockChan : chan;
    ublockChan2 : chan;
    shuffleChan : chan;
    upHashes : list bytes;
    dblocksChan : chan;
    blocksRdy : list chan;
    upHashesRdy : list chan;
    blocks : gmap Z (list Block.t);
    xorsChan : list (gmap Z chan);
    maskChan : option chan;
    masks : list bytes;
    secrets : list bytes;
    made : nat
  }.

Section Setters.
Context `{Suite}.
Definition set_rpcServers (v : list string) (s : t) : t :=
      mk _ (addr s) (port s) (id s) (servers s) v (regLock s) (regDone s)
      (rand s) (sk s) (pk s) (pks s) (nextPk s) (allBlocks s) (clients s)
      (clientMap s) (numClients s) (totalClients s) (requestsChan s)
      (reqHashes s) (reqHashesRdy s) (ublockChan s) (ublockChan2 s)
      (shuffleChan s) (upHashes s) (dblocksChan s) (blocksRdy s)
      (upHashesRdy s) (blocks s) (xorsChan s) (maskChan s) (masks s)
      (secrets s) (made s).
Definition set_regLock (v : list bool) (s : t) : t :=
      mk _ (addr s) (port s) (id s) (servers s) (rpcServers s) v (regDone
      s) (rand s) (sk s) (pk s) (pks s) (nextPk s) (allBlocks s) (clients
      s) (clientMap s) (numClients s) (totalClients s) (requestsChan s)
      (reqHashes s) (reqHashesRdy s) (ublockChan s) (ublockChan2 s)
      (shuffleChan s) (upHashes s) (dblocksChan s) (blocksRdy s)
      (upHashesRdy s) (blocks s) (xorsChan s) (maskChan s) (masks s)
      (secrets s) (made s).
Definition set_regDone (v : bool) (s : t) : t :=
      mk _ (addr s) (port s) (id s) (servers s) (rpcServers s) (regLock s)
      v (rand s) (sk s) (pk s) (pks s) (nextPk s) (allBlocks s) (clients
      s) (clientMap s) (numClients s) (totalClients s) (requestsChan s)
      (reqHashes s) (reqHashesRdy s) (ublockChan s) (ublockChan2 s)
      (shuffleChan s) (upHashes s) (dblocksChan s) (blocksRdy s)
      (upHashesRdy s) (blocks s) (xorsChan s) (maskChan s) (masks s)
      (secrets s) (made s).
Definition set_rand (v : Cipher) (s : t) : t :=
      mk _ (addr s) (port s) (id s) (servers s) (rpcServers s) (regLock s)
      (regDone s) v (sk s) (pk s) (pks s) (nextPk s) (allBlocks s)
      (clients s) (clientMap s) (numClients s) (totalClients s)
      (requestsChan s) (reqHashes s) (reqHashesRdy s) (ublockChan s)
      (ublockChan2 s) (shuffleChan s) (upHashes s) (dblocksChan s)
      (blocksRdy s) (upHashesRdy s) (blocks s) (xorsChan s) (maskChan s)
      (masks s) (secrets s) (made s).
Definition set_pks (v : list (option Point)) (s : t) : t :=
      mk _ (addr s) (port s) (id s) (servers s) (rpcServers s) (regLock s)
      (regDone s) (rand s) (sk s) (pk s) v (nextPk s) (allBlocks s)
      (clients s) (clientMap s) (numClients s) (totalClients s)
      (requestsChan s) (reqHashes s) (reqHashesRdy s) (ublockChan s)
      (ublockChan2 s) (shuffleChan s) (upHashes s) (dblocksChan s)
      (blocksRdy s) (upHashesRdy s) (blocks s) (xorsChan s) (maskChan s)
      (masks s) (secrets s) (made s).
Definition set_nextPk (v : option Point) (s : t) : t :=
      mk _ (addr s) (port s) (id s) (servers s) (rpcServers s) (regLock s)
      (regDone s) (rand s) (sk s) (pk s) (pks s) v (allBlocks s) (clients
      s) (clientMap s) (numClients s) (totalClients s) (requestsChan s)
      (reqHashes s) (reqHashesRdy s) (ublockChan s) (ublockChan2 s)
      (shuffleChan s) (upHashes s) (dblocksChan s) (blocksRdy s)
      (upHashesRdy s) (blocks s) (xorsChan s) (maskChan s) (masks s)
      (secrets s) (made s).
Definition set_allBlocks (v : list Block.t) (s : t) : t :=
      mk _ (addr s) (port s) (id s) (servers s) (rpcServers s) (regLock s)
      (regDone s) (rand s) (sk s) (pk s) (pks s) (nextPk s) v (clients s)
      (clientMap s) (numClients s) (totalClients s) (requestsChan s)
      (reqHashes s) (reqHashesRdy s) (ublockChan s) (ublockChan2 s)
      (shuffleChan s) (upHashes s) (dblocksChan s) (blocksRdy s)
      (upHashesRdy s) (blocks s) (xorsChan s) (maskChan s) (masks s)
      (secrets s) (made s).
Definition set_clients (v : list string) (s : t) : t :=
      mk _ (addr s) (port s) (id s) (servers s) (rpcServers s) (regLock s)
      (regDone s) (rand s) (sk s) (pk s) (pks s) (nextPk s) (allBlocks s)
      v (clientMap s) (numClients s) (totalClients s) (requestsChan s)
      (reqHashes s) (reqHashesRdy s) (ublockChan s) (ublockChan2 s)
      (shuffleChan s) (upHashes s) (dblocksChan s) (blocksRdy s)
      (upHashesRdy s) (blocks s) (xorsChan s) (maskChan s) (masks s)
      (secrets s) (made s).
Definition set_clientMap (v : gmap Z Z) (s : t) : t :=
      mk _ (addr s) (port s) (id s) (servers s) (rpcServers s) (regLock s)
      (regDone s) (rand s) (sk s) (pk s) (pks s) (nextPk s) (allBlocks s)
      (clients s) v (numClients s) (totalClients s) (requestsChan s)
      (reqHashes s) (reqHashesRdy s) (ublockChan s) (ublockChan2 s)
      (shuffleChan s) (upHashes s) (dblocksChan s) (blocksRdy s)
      (upHashesRdy s) (blocks s) (xorsChan s) (maskChan s) (masks s)
      (secrets s) (made s).
Definition set_totalClients (v : Z) (s : t) : t :=
      mk _ (addr s) (port s) (id s) (servers s) (rpcServers s) (regLock s)
      (regDone s) (rand s) (sk s) (pk s) (pks s) (nextPk s) (allBlocks s)
      (clients s) (clientMap s) (numClients s) v (requestsChan s)
      (reqHashes s) (reqHashesRdy s) (ublockChan s) (ublockChan2 s)
      (shuffleChan s) (upHashes s) (dblocksChan s) (blocksRdy s)
      (upHashesRdy s) (blocks s) (xorsChan s) (maskChan s) (masks s)
      (secrets s) (made s).
Definition set_requestsChan (v : list chan) (s : t) : t :=
      mk _ (addr s) (port s) (id s) (servers s) (rpcServers s) (regLock s)
      (regDone s) (rand s) (sk s) (pk s) (pks s) (nextPk s) (allBlocks s)
      (clients s) (clientMap s) (numClients s) (totalClients s) v
      (reqHashes s) (reqHashesRdy s) (ublockChan s) (ublockChan2 s)
      (shuffleChan s) (upHashes s) (dblocksChan s) (blocksRdy s)
      (upHashesRdy s) (blocks s) (xorsChan s) (maskChan s) (masks s)
      (secrets s) (made s).
Definition set_reqHashes (v : list bytes) (s : t) : t :=
      mk _ (addr s) (port s) (id s) (servers s) (rpcServers s) (regLock s)
      (regDone s) (rand s) (sk s) (pk s) (pks s) (nextPk s) (allBlocks s)
      (clients s) (clientMap s) (numClients s) (totalClients s)
      (requestsChan s) v (reqHashesRdy s) (ublockChan s) (ublockChan2 s)
      (shuffleChan s) (upHashes s) (dblocksChan s) (blocksRdy s)
      (upHashesRdy s) (blocks s) (xorsChan s) (maskChan s) (masks s)
      (secrets s) (made s).
Definition set_reqHashesRdy (v : list chan) (s : t) : t :=
      mk _ (addr s) (port s) (id s) (servers s) (rpcServers s) (regLock s)
      (regDone s) (rand s) (sk s) (pk s) (pks s) (nextPk s) (allBlocks s)
      (clients s) (clientMap s) (numClients s) (totalClients s)
      (requestsChan s) (reqHashes s) v (ublockChan s) (ublockChan2 s)
      (shuffleChan s) (upHashes s) (dblocksChan s) (blocksRdy s)
      (upHashesRdy s) (blocks s) (xorsChan s) (maskChan s) (masks s)
      (secrets s) (made s).
Definition set_upHashes (v : list bytes) (s : t) : t :=
      mk _ (addr s) (port s) (id s) (servers s) (rpcServers s) (regLock s)
      (regDone s) (rand s) (sk s) (pk s) (pks s) (nextPk s) (allBlocks s)
      (clients s) (clientMap s) (numClients s) (totalClients s)
      (requestsChan s) (reqHashes s) (reqHashesRdy s) (ublockChan s)
      (ublockChan2 s) (shuffleChan s) v (dblocksChan s) (blocksRdy s)
      (upHashesRdy s) (blocks s) (xorsChan s) (maskChan s) (masks s)
      (secrets s) (made s).
Definition set_blocksRdy (v : list chan) (s : t) : t :=
      mk _ (addr s) (port s) (id s) (servers s) (rpcServers s) (regLock s)
      (regDone s) (rand s) (sk s) (pk s) (pks s) (nextPk s) (allBlocks s)
      (clients s) (clientMap s) (numClients s) (totalClients s)
      (requestsChan s) (reqHashes s) (reqHashesRdy s) (ublockChan s)
      (ublockChan2 s) (shuffleChan s) (upHashes s) (dblocksChan s) v
      (upHashesRdy s) (blocks s) (xorsChan s) (maskChan s) (masks s)
      (secrets s) (made s).
Definition set_upHashesRdy (v : list chan) (s : t) : t :=
      mk _ (addr s) (port s) (id s) (servers s) (rpcServers s) (regLock s)
      (regDone s) (rand s) (sk s) (pk s) (pks s) (nextPk s) (allBlocks s)
      (clients s) (clientMap s) (numClients s) (totalClients s)
      (requestsChan s) (reqHashes s) (reqHashesRdy s) (ublockChan s)
      (ublockChan2 s) (shuffleChan s) (upHashes s) (dblocksChan s)
      (blocksRdy s) v (blocks s) (xorsChan s) (maskChan s) (masks s)
      (secrets s) (made s).
Definition set_xorsChan (v : list (gmap Z chan)) (s : t) : t :=
      mk _ (addr s) (port s) (id s) (servers s) (rpcServers s) (regLock s)
      (regDone s) (rand s) (sk s) (pk s) (pks s) (nextPk s) (allBlocks s)
      (clients s) (clientMap s) (numClients s) (totalClients s)
      (requestsChan s) (reqHashes s) (reqHashesRdy s) (ublockChan s)
      (ublockChan2 s) (shuffleChan s) (upHashes s) (dblocksChan s)
      (blocksRdy s) (upHashesRdy s) (blocks s) v (maskChan s) (masks s)
      (secrets s) (made s).
Definition set_masks (v : list bytes) (s : t) : t :=
      mk _ (addr s) (port s) (id s) (servers s) (rpcServers s) (regLock s)
      (regDone s) (rand s) (sk s) (pk s) (pks s) (nextPk s) (allBlocks s)
      (clients s) (clientMap s) (numClients s) (totalClients s)
      (requestsChan s) (reqHashes s) (reqHashesRdy s) (ublockChan s)
      (ublockChan2 s) (shuffleChan s) (upHashes s) (dblocksChan s)
      (blocksRdy s) (upHashesRdy s) (blocks s) (xorsChan s) (maskChan s) v
      (secrets s) (made s).
Definition set_secrets (v : list bytes) (s : t) : t :=
      mk _ (addr s) (port s) (id s) (servers s) (rpcServers s) (regLock s)
      (regDone s) (rand s) (sk s) (pk s) (pks s) (nextPk s) (allBlocks s)
      (clients s) (clientMap s) (numClients s) (totalClients s)
      (requestsChan s) (reqHashes s) (reqHashesRdy s) (ublockChan s)
      (ublockChan2 s) (shuffleChan s) (upHashes s) (dblocksChan s)
      (blocksRdy s) (upHashesRdy s) (blocks s) (xorsChan s) (maskChan s)
      (masks s) v (made s).
Definition set_made (v : nat) (s : t) : t :=
      mk _ (addr s) (port s) (id s) (servers s) (rpcServers s) (regLock s)
      (regDone s) (rand s) (sk s) (pk s) (pks s) (nextPk s) (allBlocks s)
      (clients s) (clientMap s) (numClients s) (totalClients s)
      (requestsChan s) (reqHashes s) (reqHashesRdy s) (ublockChan s)
      (ublockChan2 s) (shuffleChan s) (upHashes s) (dblocksChan s)
      (blocksRdy s) (upHashesRdy s) (blocks s) (xorsChan s) (maskChan s)
      (masks s) (secrets s) v.
End Setters.
End Server.

(** ** Goroutine programs

    A function of server.go is a tree of the operations a goroutine can
    perform.  [Act l f k] is the statement (or straight-line run of
    statements) [l] executed atomically on the server struct: [f] is its
    effect, a panic when it is [Err], and [k] receives the state the
    statement read.  [Recv] and [Send] are the two ends of an unbuffered
    channel; on a nil channel ([None]) they block for ever.  [Dial] and
    [Call] are [rpc.Dial] and the [Call] method of an [rpc.Client].  [Lock i] and
    [Unlock i] act on [s.regLock[i]].  [Go p k] is [go p; k].
    [Par ps k] is the WaitGroup idiom

      for i := range out { wg.Add(1); go func(i) { defer wg.Done(); out[i] = ps[i] }(i) }
      wg.Wait(); k(out)

    where goroutine [i] is the only writer of slot [i].  [Crash] is a
    panic or a [log.Fatal]: the process ends. *)
Section Programs.
Context `{Suite}.

Unset Elimination Schemes.
Inductive prog (A : Type) : Type :=
| Ret (a : A)
| Crash (m : string)
| Act (l : string) (f : Server.t -> Result Server.t) (k : Server.t -> prog A)
| Recv (c : option chan) (k : msg -> prog A)
| Send (c : option chan) (m : msg) (k : prog A)
| Dial (addr : string) (k : Result unit -> prog A)
| Call (client : string) (req : rpc) (k : Result bytes -> prog A)
| Lock (i : nat) (k : prog A)
| Unlock (i : nat) (k : prog A)
| Go (p : prog unit) (k : prog A)
| Par (B : Type) (ps : list (prog B)) (k : list B -> prog A).
Set Elimination Schemes.

Arguments Ret {A} a.
Arguments Crash {A} m.
Arguments Act {A} l f k.
Arguments Recv {A} c k.
Arguments Send {A} c m k.
Arguments Dial {A} addr k.
Arguments Call {A} client req k.
Arguments Lock {A} i k.
Arguments Unlock {A} i k.
Arguments Go {A} p k.
Arguments Par {A B} ps k.

(** Sequencing: run [p], then [f] on its result. *)
Fixpoint pbind {A B} (p : prog A) (f : A -> prog B) : prog B :=
  match p with
  | Ret a => f a
  | Crash m => Crash m
  | Act l g k => Act l g (fun s => pbind (k s) f)
  | Recv c k => Recv c (fun m => pbind (k m) f)
  | Send c m k => Send c m (pbind k f)
  | Dial a k => Dial a (fun r => pbind (k r) f)
  | Call c q k => Call c q (fun r => pbind (k r) f)
  | Lock i k => Lock i (pbind k f)
  | Unlock i k => Unlock i (pbind k f)
  | Go q k => Go q (pbind k f)
  | Par ps k => Par ps (fun rs => pbind (k rs) f)
  end.

(** What a goroutine is seen to do.  The events of statements and of the
    mutexes carry the server struct before and after. *)
Inductive event :=
| EvAct (l : string) (a b : Server.t)
| EvRecv (c : chan) (m : msg)
| EvSend (c : chan) (m : msg)
| EvDial (addr : string) (r : Result unit)
| EvCall (client : string) (req : rpc) (r : Result bytes)
| EvLock (i : nat) (a b : Server.t)
| EvUnlock (i : nat) (a b : Server.t)
| EvGo (p : prog unit)
| EvWait.

Definition lock_held (i : nat) (v : bool) (s : Server.t) : Server.t :=
  Server.set_regLock (<[i := v]> (Server.regLock s)) s.

(** One step of a goroutine: the event, the program that is left, and the
    goroutines it started. *)
Inductive step : forall {A}, prog A -> event -> prog A -> list (prog unit) -> Prop :=
| step_act A l f (k : Server.t -> prog A) a b :
    f a = Ok b ->
    step (Act l f k) (EvAct l a b) (k a) []
| step_panic A l f (k : Server.t -> prog A) a m :
    f a = Err m ->
    step (Act l f k) (EvAct l a a) (Crash m) []
| step_recv A c (k : msg -> prog A) m :
    step (Recv (Some c) k) (EvRecv c m) (k m) []
| step_send A c m (k : prog A) :
    step (Send (Some c) m k) (EvSend c m) k []
| step_dial A addr (k : Result unit -> prog A) r :
    step (Dial addr k) (EvDial addr r) (k r) []
| step_call A client req (k : Result bytes -> prog A) r :
    step (Call client req k) (EvCall client req r) (k r) []
| step_lock A i (k : prog A) a :
    Server.regLock a !! i = Some false ->
    step (Lock i k) (EvLock i a (lock_held i true a)) k []
| step_unlock A i (k : prog A) a :
    Server.regLock a !! i = Some true ->
    step (Unlock i k) (EvUnlock i a (lock_held i false a)) k []
| step_unlock_free A i (k : prog A) a :
    Server.regLock a !! i = Some false ->
    step (Unlock i k) (EvUnlock i a a)
      (Crash "fatal error: sync: unlock of unlocked mutex") []
| step_go A p (k : prog A) :
    step (Go p k) (EvGo p) k [p]
| step_child A B (ps : list (prog B)) (k : list B -> prog A) i p e p' sp :
    ps !! i = Some p ->
    step p e p' sp ->
    step (Par ps k) e (Par (<[i := p']> ps) k) sp
| step_wait A B (rs : list B) (k : list B -> prog A) :
    step (Par (map Ret rs) k) EvWait (k rs) []
| step_child_crash A B (ps : list (prog B)) (k : list B -> prog A) m :
    In (Crash m) ps ->
    step (Par ps k) EvWait (Crash m) [].

(** A run of one goroutine. *)
Inductive steps {A} : prog A -> list event -> prog A -> list (prog unit) -> Prop :=
| steps_nil p : steps p [] p []
| steps_cons p e p1 sp1 t p2 sp2 :
    step p e p1 sp1 ->
    steps p1 t p2 sp2 ->
    steps p (e :: t) p2 (sp1 ++ sp2).

(** [p] runs to completion with trace [t] and returns [a]. *)
Definition returns {A} (p : prog A) (t : list event) (a : A) : Prop :=
  exists sp, steps p t (Ret a) sp.

(** The states along a trace fit together: between two steps of the
    goroutine the rest of the process moves the struct from the state one
    step left to the state the next one found, within the rely [R]. *)
Fixpoint chained (R : Server.t -> Server.t -> Prop)
    (s : Server.t) (t : list event) (s' : Server.t) : Prop :=
  match t with
  | [] => R s s'
  | EvAct _ a b :: t' | EvLock _ a b :: t' | EvUnlock _ a b :: t' =>
      R s a /\ chained R b t' s'
  | _ :: t' => chained R s t' s'
  end.

End Programs.

Arguments Ret {_ A} a.
Arguments Crash {_ A} m.
Arguments Act {_ A} l f k.
Arguments Recv {_ A} c k.
Arguments Send {_ A} c m k.
Arguments Dial {_ A} addr k.
Arguments Call {_ A} client req k.
Arguments Lock {_ A} i k.
Arguments Unlock {_ A} i k.
Arguments Go {_ A} p k.
Arguments Par {_ A B} ps k.

(** Both [Result] and [prog] are monads; stdpp's [x ← p; q] is their
    sequencing. *)
#[global] Instance Result_ret : MRet Result := @Ok.
#[global] Instance Result_bind : MBind Result := fun A B f r => bind r f.
#[global] Instance prog_ret `{Suite} : MRet prog := @Ret _.
#[global] Instance prog_bind `{Suite} : MBind prog := fun A B f p => pbind p f.

(** ** server.go *)
Section ServerGo.
Context `{L : Lib}.

Definition act (l : string) (f : Server.t -> Result Server.t) : prog Server.t :=
  Act l f Ret.
(** A statement that only reads the struct. *)
Definition read (l : string) : prog Server.t := Act l Ok Ret.
Definition recv (c : option chan) : prog msg := Recv c Ret.
Definition send (c : option chan) (m : msg) : prog unit := Send c m (Ret tt).
Definition dial (addr : string) : prog (Result unit) := Dial addr Ret.
Definition call (client : string) (req : rpc) : prog (Result bytes) :=
  Call client req Ret.
Definition lock (i : nat) : prog unit := Lock i (Ret tt).
Definition unlock (i : nat) : prog unit := Unlock i (Ret tt).
Definition go (p : prog unit) : prog unit := Go p (Ret tt).
Definition par {B} (ps : list (prog B)) : prog (list B) := Par ps Ret.
Definition panic {A} (m : string) : prog A := Crash m.
Definition log_Fatal {A} (m : string) : prog A := Crash m.

Definition makeslice_out_of_range : string :=
  "panic: runtime error: makeslice: len out of range".
Definition nil_dereference : string :=
  "panic: runtime error: invalid memory address or nil pointer dereference".

(** [make([]T, n)] panics on a negative length. *)
Definition make_len (n : Z) : Result nat :=
  if decide (n < 0) then Err makeslice_out_of_range else Ok (Z.to_nat n).

(** [fmt.Sprintf("127.0.0.1:%d", port)] *)
Definition local_addr (port : Z) : string := "127.0.0.1:" +:+ pretty port.

(** *** Initial setup *)

(** [key] is the stream [Suite.Cipher(abstract.RandomKey)] returns.
    [Mul(nil, sk)] multiplies the standard base.  The four channels of the
    literal are the first four the process makes. *)
Definition NewServer (addr : string) (port id : Z) (servers : list string)
    (key : Cipher) : Server.t :=
  let rand := key in
  let '(sk, rand) := Secret_Pick rand in
  let pk := Point_Mul Point_Base sk in
  {| Server.addr := addr;
     Server.port := port;
     Server.id := id;
     Server.servers := servers;
     Server.rpcServers := [];
     Server.regLock := [false; false];
     Server.regDone := false;
     Server.rand := rand;
     Server.sk := sk;
     Server.pk := pk;
     Server.pks := replicate (length servers) None;
     Server.nextPk := None;
     Server.allBlocks := [];
     Server.clients := [];
     Server.clientMap := ∅;
     Server.numClients := 0;
     Server.totalClients := 0;
     Server.requestsChan := [];
     Server.reqHashes := [];
     Server.reqHashesRdy := [];
     Server.ublockChan := 0%nat;
     Server.ublockChan2 := 1%nat;
     Server.shuffleChan := 2%nat;
     Server.upHashes := [];
     Server.dblocksChan := 3%nat;
     Server.blocksRdy := [];
     Server.upHashesRdy := [];
     Server.blocks := ∅;
     Server.xorsChan := replicate (length servers) ∅;
     Server.maskChan := None;
     Server.masks := [];
     Server.secrets := [];
     Server.made := 4%nat |}.

(** *** Helpers *)

(** The first loop of [ConnectServers]: dial every server in turn, the
    local one through the loopback address. *)
Fixpoint dial_servers (ixs : list Z) (rpcServers : list string)
    : prog (list string) :=
  match ixs with
  | [] => Ret rpcServers
  | i :: rest =>
      s ← act "if i == s.id { addr := fmt.Sprintf(..., s.port) } else { s.servers[i] }"
            (fun s => if decide (i = s.(Server.id)) then Ok s
                      else _ ← at_index s.(Server.servers) i; Ok s);
      let addr := if decide (i = s.(Server.id)) then local_addr s.(Server.port)
                  else default "" (index s.(Server.servers) i) in
      r ← dial addr;
      match r with
      | Err _ => log_Fatal "Cannot establish connection"
      | Ok _ => dial_servers rest (rpcServers ++ [addr])
      end
  end.

(** [Point().Add(p, q)] on interface values that may be nil. *)
Definition point_add (p q : option Point) : Result (option Point) :=
  match p, q with
  | Some p, Some q => Ok (Some (Point_Add p q))
  | _, _ => Err nil_dereference
  end.

(** The indices of [for i := lo; i < hi; i++]. *)
Definition from_to (lo hi : Z) : list Z :=
  map (fun k => lo + Z.of_nat k) (seq 0 (Z.to_nat (hi - lo))).

(** The end of [ConnectServers]: the key the shuffle re-encrypts under. *)
Definition next_pk (s : Server.t) : Result (option Point) :=
  if decide (s.(Server.id) ≠ int_sub (len s.(Server.servers)) 1) then
    first ← at_index s.(Server.pks) s.(Server.id);
    foldl (fun nextPk i =>
             nextPk ← nextPk;
             pki ← at_index s.(Server.pks) i;
             point_add nextPk pki)
          (Ok first)
          (from_to (int_add s.(Server.id) 1) (len s.(Server.servers)))
  else Ok (Some s.(Server.pk)).

Definition ConnectServers : prog unit :=
  s ← read "rpcServers := make([]*rpc.Client, len(s.servers))";
  rpcServers ← dial_servers (upto (len s.(Server.servers))) [];
  par (imap (fun i rpcServer =>
         r ← call rpcServer Server_GetPK;
         match r with
         | Err e => log_Fatal ("Couldn't get server's pk: " +:+ e)
         | Ok pk =>
             act "s.pks[i] = UnmarshalPoint(pk)"
               (fun s => pks ← store s.(Server.pks) (Z.of_nat i)
                                 (Some (UnmarshalPoint pk));
                         Ok (Server.set_pks pks s));;
             Ret tt
         end) rpcServers);;
  act "if s.id != len(s.servers)-1 { s.nextPk = ... }; s.rpcServers = rpcServers"
    (fun s => nextPk ← next_pk s;
              Ok (Server.set_rpcServers rpcServers (Server.set_nextPk nextPk s)));;
  Ret tt.

(** [go func(i int) { rdy[i] <- true }(i)] for one of the three readiness
    slices. *)
Definition signal (rdy : Server.t -> list chan) (i : Z) : prog unit :=
  s ← act "rdy[i]" (fun s => _ ← at_index (rdy s) i; Ok s);
  send (index (rdy s) i) (MBool true).

(** The loop that ends [handleRequest], [handleResponse] and
    [PutUploadedBlocks]:

      for i := range rdy { if s.clientMap[i] != s.id { continue }; go func(i int) { rdy[i] <- true }(i) } *)
Fixpoint notify (rdy : Server.t -> list chan) (ixs : list Z) : prog unit :=
  match ixs with
  | [] => Ret tt
  | i :: rest =>
      s ← read "if s.clientMap[i] != s.id { continue }";
      if decide (map_get s.(Server.clientMap) i ≠ s.(Server.id))
      then notify rdy rest
      else go (signal rdy i);; notify rdy rest
  end.

Definition notify_hosted (rdy : Server.t -> list chan) : prog unit :=
  s ← read "for i := range rdy";
  notify rdy (upto (len (rdy s))).

(** Goroutine [i] of the fan-out of [handleRequest]; what it returns is
    what it leaves in [allRequests[i]]. *)
Definition request_share (i : Z) : prog (list bytes) :=
  s ← act "s.requestsChan[i]"
        (fun s => _ ← at_index s.(Server.requestsChan) i; Ok s);
  m ← recv (index s.(Server.requestsChan) i);
  match m with
  | MRequest req => Ret req.(Request.Hash)
  | _ => panic "chan Request"
  end.

Definition handleRequest : prog unit :=
  s ← read "if !s.regDone { return }";
  if negb s.(Server.regDone) then Ret tt else
  s ← act "allRequests := make([][][]byte, s.totalClients)"
        (fun s => _ ← make_len s.(Server.totalClients); Ok s);
  allRequests ← par (map request_share (upto s.(Server.totalClients)));
  act "s.reqHashes = XorsDC(allRequests)"
    (fun s => Ok (Server.set_reqHashes (XorsDC allRequests) s));;
  notify_hosted Server.reqHashesRdy.

(** The goroutine [handleResponse] starts for a client hosted elsewhere. *)
Definition respond (allBlocks : list Block.t) (i sid : Z) : prog unit :=
  s ← act "res := ComputeResponse(allBlocks, s.masks[i], s.secrets[i])"
        (fun s => _ ← at_index s.(Server.masks) i;
                  _ ← at_index s.(Server.secrets) i; Ok s);
  let res := ComputeResponse allBlocks
               (default [] (index s.(Server.masks) i))
               (default [] (index s.(Server.secrets) i)) in
  let cb := ClientBlock.mk i s.(Server.id) (Block.mk res 0) in
  s ← act "s.rpcServers[sid]"
        (fun s => _ ← at_index s.(Server.rpcServers) sid; Ok s);
  r ← call (default "" (index s.(Server.rpcServers) sid))
           (Server_PutClientBlock cb);
  match r with
  | Err e => log_Fatal ("Couldn't put block: " +:+ e)
  | Ok _ => Ret tt
  end.

Fixpoint respond_all (allBlocks : list Block.t) (ixs : list Z) : prog unit :=
  match ixs with
  | [] => Ret tt
  | i :: rest =>
      s ← read "if s.clientMap[i] == s.id { continue }";
      if decide (map_get s.(Server.clientMap) i = s.(Server.id))
      then respond_all allBlocks rest
      else go (respond allBlocks i (map_get s.(Server.clientMap) i));;
           respond_all allBlocks rest
  end.

Definition handleResponse : prog unit :=
  s ← read "if !s.regDone { return }";
  if negb s.(Server.regDone) then Ret tt else
  m ← recv (Some s.(Server.dblocksChan));
  match m with
  | MBlocks allBlocks =>
      s ← read "for i := 0; i < s.totalClients; i++";
      respond_all allBlocks (upto s.(Server.totalClients));;
      act "s.allBlocks = allBlocks"
        (fun s => Ok (Server.set_allBlocks allBlocks s));;
      notify_hosted Server.blocksRdy
  | _ => panic "chan []Block"
  end.

Definition handleUpload : prog unit :=
  s ← read "if !s.regDone { return }";
  if negb s.(Server.regDone) then Ret tt else
  m ← recv (Some s.(Server.ublockChan));
  match m with
  | MUpBlock upBlock =>
      s ← act "s.rpcServers[0]"
            (fun s => _ ← at_index s.(Server.rpcServers) 0; Ok s);
      r ← call (default "" (index s.(Server.rpcServers) 0))
               (Server_UploadBlock2 upBlock);
      match r with
      | Err e => log_Fatal ("Couldn't send block to first server: " +:+ e)
      | Ok _ => Ret tt
      end
  | _ => panic "chan UpBlock"
  end.

(** The loop of [gatherUploads]: one receive per client, in arrival
    order. *)
Fixpoint gather (n : nat) (allUploads : list UpBlock.t)
    : prog (list UpBlock.t) :=
  match n with
  | O => Ret allUploads
  | S n' =>
      s ← read "allUploads[i] = <-s.ublockChan2";
      m ← recv (Some s.(Server.ublockChan2));
      match m with
      | MUpBlock u => gather n' (allUploads ++ [u])
      | _ => panic "chan UpBlock"
      end
  end.

Definition gatherUploads : prog unit :=
  s ← read "if !s.regDone { return }";
  if negb s.(Server.regDone) then Ret tt else
  s ← act "allUploads := make([]UpBlock, s.totalClients)"
        (fun s => _ ← make_len s.(Server.totalClients); Ok s);
  allUploads ← gather (Z.to_nat s.(Server.totalClients)) [];
  s ← read "s.shuffleChan <- allUploads";
  send (Some s.(Server.shuffleChan)) (MUpBlocks allUploads).

(** [numBlockChunks := len(allUploads[0].BC1)] and the loop that checks
    every upload against it. *)
Definition chunk_count (allUploads : list UpBlock.t) : Result Z :=
  first ← at_index allUploads 0;
  let numBlockChunks := len first.(UpBlock.BC1) in
  if forallb (fun upload => Z.eqb numBlockChunks (len upload.(UpBlock.BC1))) allUploads
  then Ok numBlockChunks
  else Err "Different chunk lengths".

(** Row [i] of [BXs] (with [side := BC1]) or of [BYs] (with [BC2]):
    [UnmarshalPoint(allUploads[j].side[i])] for [j < s.totalClients]. *)
Definition column (totalClients : Z) (allUploads : list UpBlock.t)
    (side : UpBlock.t -> list bytes) (i : Z) : Result (list Point) :=
  mapM (fun j => upload ← at_index allUploads j;
                 c ← at_index (side upload) i;
                 Ok (UnmarshalPoint c))
       (upto totalClients).

(** The two nested loops that fill [BXs] and [BYs]. *)
Definition transpose (totalClients : Z) (allUploads : list UpBlock.t)
    (numBlockChunks : Z) : Result (list (list Point) * list (list Point)) :=
  if decide (0 < numBlockChunks /\ totalClients < 0)
  then Err makeslice_out_of_range
  else
    BXs ← mapM (column totalClients allUploads UpBlock.BC1) (upto numBlockChunks);
    BYs ← mapM (column totalClients allUploads UpBlock.BC2) (upto numBlockChunks);
    Ok (BXs, BYs).

(** One chunk of [shuffle]: shuffle and prove, then strip this server's
    layer from every output, each index in a goroutine of its own. *)
Definition shuffle_chunk (pi : list Z) (pk : Point)
    (Xs Ys : list (list Point)) (i : Z)
    : prog (list Point * list Point * list Point * bytes) :=
  s ← act "Xbars[i], Ybars[i], provers[i] = shuffle.Shuffle2(pi, s.g, nil, pk, Xs[i], Ys[i], s.rand)"
        (fun s => X ← at_index Xs i; Y ← at_index Ys i;
                  Ok (Server.set_rand (Shuffle2 pi pk X Y s.(Server.rand)).2 s));
  let '(Xbar, Ybar, prover) :=
    (Shuffle2 pi pk (default [] (index Xs i)) (default [] (index Ys i))
       s.(Server.rand)).1 in
  s ← act "prf, err := proof.HashProve(Suite, PairShuffle, s.rand, provers[i])"
        (fun s => match (HashProve s.(Server.rand) prover).1 with
                  | Err e => Err ("Shuffle proof failed: " +:+ e)
                  | Ok _ => Ok (Server.set_rand (HashProve s.(Server.rand) prover).2 s)
                  end);
  let prf := match (HashProve s.(Server.rand) prover).1 with
             | Ok prf => prf
             | Err _ => []
             end in
  s ← act "decs[i] = make([]abstract.Point, s.totalClients)"
        (fun s => _ ← make_len s.(Server.totalClients); Ok s);
  dec ← par (map (fun j =>
      s ← act "decs[i][j] = Decrypt(s.g, Xbars[i][j], Ybars[i][j], s.sk)"
            (fun s => _ ← at_index Xbar j; _ ← at_index Ybar j; Ok s);
      match index Xbar j, index Ybar j with
      | Some c1, Some c2 => Ret (Decrypt c1 c2 s.(Server.sk))
      | _, _ => panic index_out_of_range
      end) (upto s.(Server.totalClients)));
  Ret (Xbar, Ybar, dec, prf).

Definition shuffle (Xs Ys : list (list Point)) (numChunks : Z)
    : prog (list (list Point) * list (list Point) * list (list Point) * list bytes) :=
  s ← act "pi := GeneratePI(s.totalClients, s.rand)"
        (fun s => Ok (Server.set_rand
                        (GeneratePI s.(Server.totalClients) s.(Server.rand)).2 s));
  let pi := (GeneratePI s.(Server.totalClients) s.(Server.rand)).1 in
  s ← act "Xbars := make([][]abstract.Point, numChunks); ...; pk := s.nextPk"
        (fun s => _ ← make_len numChunks;
                  match s.(Server.nextPk) with
                  | Some _ => Ok s
                  | None => Err nil_dereference
                  end);
  match s.(Server.nextPk) with
  | None => panic nil_dereference
  | Some pk =>
      chunks ← par (map (shuffle_chunk pi pk Xs Ys) (upto numChunks));
      Ret (map (fun c => c.1.1.1) chunks, map (fun c => c.1.1.2) chunks,
           map (fun c => c.1.2) chunks, map (fun c => c.2) chunks)
  end.

(** The last server puts the chunks of every client back together. *)
Definition assemble (totalClients : Z) (decs : list (list Point))
    : Result (list Block.t) :=
  n ← make_len totalClients;
  mapM (fun i =>
          chunks ← mapM (fun dec => p ← at_index dec i;
                           match Point_Data p with
                           | Ok msg => Ok msg
                           | Err e => Err ("Could not decrypt: " +:+ e)
                           end) decs;
          Ok (Block.mk (concat chunks) 0))
       (upto totalClients).

(** The other servers write the shuffled pairs back into the batch. *)
Definition repack (Xbars decs : list (list Point)) (allUploads : list UpBlock.t)
    : Result (list UpBlock.t) :=
  mapM (fun '(i, upload) =>
          foldl (fun upload j =>
                   upload ← upload;
                   Xbar ← at_index Xbars j;
                   x ← at_index Xbar (Z.of_nat i);
                   BC1 ← store upload.(UpBlock.BC1) j (MarshalPoint x);
                   dec ← at_index decs j;
                   d ← at_index dec (Z.of_nat i);
                   BC2 ← store upload.(UpBlock.BC2) j (MarshalPoint d);
                   Ok (UpBlock.mk BC1 BC2))
                (Ok upload) (upto (len upload.(UpBlock.BC1))))
       (imap pair allUploads).

(** What [shuffleUploads] does with a batch that passed the chunk check. *)
Definition shuffle_and_hand_off (allUploads : list UpBlock.t)
    (BXs BYs : list (list Point)) (numBlockChunks : Z) : prog unit :=
  '(Xbars, _, decs, _) ← shuffle BXs BYs numBlockChunks;
  s ← read "if s.id == len(s.servers) - 1";
  if decide (s.(Server.id) = int_sub (len s.(Server.servers)) 1) then
    s ← act "blocks := make([]Block, s.totalClients); for i := range blocks { ... }"
          (fun s => _ ← assemble s.(Server.totalClients) decs; Ok s);
    match assemble s.(Server.totalClients) decs with
    | Err e => panic e
    | Ok blocks =>
        s ← read "for _, rpcServer := range s.rpcServers";
        par (map (fun rpcServer =>
               r ← call rpcServer (Server_PutUploadedBlocks blocks);
               match r with
               | Err e => log_Fatal ("Failed uploading shuffled and decoded blocks: " +:+ e)
               | Ok _ => Ret tt
               end) s.(Server.rpcServers));;
        Ret tt
    end
  else
    match repack Xbars decs allUploads with
    | Err e => panic e
    | Ok allUploads =>
        s ← act "s.rpcServers[s.id+1]"
              (fun s => _ ← at_index s.(Server.rpcServers) (int_add s.(Server.id) 1);
                        Ok s);
        r ← call (default "" (index s.(Server.rpcServers) (int_add s.(Server.id) 1)))
                 (Server_ShuffleBlocks allUploads);
        match r with
        | Err e => log_Fatal ("Failed requesting shuffle: " +:+ e)
        | Ok _ => Ret tt
        end
    end.

Definition shuffleUploads : prog unit :=
  s ← read "if !s.regDone { return }";
  if negb s.(Server.regDone) then Ret tt else
  m ← recv (Some s.(Server.shuffleChan));
  match m with
  | MUpBlocks allUploads =>
      s ← act "numBlockChunks := len(allUploads[0].BC1); ...; BXs[i][j] = ...; BYs[i][j] = ..."
            (fun s => numBlockChunks ← chunk_count allUploads;
                      _ ← transpose s.(Server.totalClients) allUploads numBlockChunks;
                      Ok s);
      match chunk_count allUploads with
      | Err e => panic e
      | Ok numBlockChunks =>
          match transpose s.(Server.totalClients) allUploads numBlockChunks with
          | Err e => panic e
          | Ok (BXs, BYs) => shuffle_and_hand_off allUploads BXs BYs numBlockChunks
          end
      end
  | _ => panic "chan []UpBlock"
  end.

(** *** Registration and setup *)

(** [for _, rpcServer := range rpcServers { rpcServer.Call(method, ...) }],
    fatal on the first error. *)
Fixpoint call_each (rpcServers : list string) (req : Server.t -> rpc)
    (fatal : string) : prog unit :=
  match rpcServers with
  | [] => Ret tt
  | rpcServer :: rest =>
      s ← read "err := rpcServer.Call(...)";
      r ← call rpcServer (req s);
      match r with
      | Err e => log_Fatal (fatal +:+ e)
      | Ok _ => call_each rest req fatal
      end
  end.

Definition RegisterDone : prog unit :=
  s ← read "for _, rpcServer := range s.rpcServers";
  call_each s.(Server.rpcServers)
    (fun s => Server_RegisterDone2 s.(Server.totalClients))
    "Cannot update num clients".

(** Returns [*clientId]. *)
Definition Register (client : ClientRegistration.t) : prog Z :=
  lock 0;;
  s ← read "*clientId = s.totalClients";
  let clientId := s.(Server.totalClients) in
  act "s.totalClients++"
    (fun s => Ok (Server.set_totalClients (int_add s.(Server.totalClients) 1) s));;
  unlock 0;;
  s ← read "for _, rpcServer := range s.rpcServers";
  call_each s.(Server.rpcServers) (fun _ => Server_Register2 client)
    "Cannot connect: ";;
  s ← read "if s.totalClients == NumClients";
  (if decide (s.(Server.totalClients) = NumClients) then RegisterDone else Ret tt);;
  Ret clientId.

Definition Register2 (client : ClientRegistration.t) : prog unit :=
  lock 1;;
  act "s.clients = append(s.clients, client.Addr)"
    (fun s => Ok (Server.set_clients
                    (s.(Server.clients) ++ [client.(ClientRegistration.Addr)]) s));;
  act "s.clientMap[client.Id] = client.ServerId"
    (fun s => Ok (Server.set_clientMap
                    (<[client.(ClientRegistration.Id) :=
                         client.(ClientRegistration.ServerId)]> s.(Server.clientMap)) s));;
  unlock 1.

(** [made] channels come next; [make_chans n s] are the next [n]. *)
Definition make_chans (n : nat) (s : Server.t) : list chan * Server.t :=
  (seq s.(Server.made) n, Server.set_made (s.(Server.made) + n)%nat s).

(** The body of [RegisterDone2], a straight line of allocations. *)
Definition RegisterDone2_body (numClients : Z) (s : Server.t) : Result Server.t :=
  let s := Server.set_totalClients numClients s in
  s ← foldl (fun s i =>
               s ← s;
               let '(chans, s) := make_chans (Z.to_nat numClients) s in
               xorsChan ← store s.(Server.xorsChan) i
                            (list_to_map (zip (upto numClients) chans));
               Ok (Server.set_xorsChan xorsChan s))
            (Ok s) (upto (len s.(Server.servers)));
  n ← make_len numClients;
  let s := Server.set_masks (replicate n (zeros SecretSize)) s in
  let s := Server.set_secrets (replicate n (zeros SecretSize)) s in
  let '(chans, s) := make_chans n s in
  let s := Server.set_requestsChan chans s in
  let s := Server.set_upHashes (replicate n []) s in
  let '(chans, s) := make_chans (3 * n) s in
  let s := Server.set_blocksRdy (map (fun i => nth (3 * i) chans 0%nat) (seq 0 n)) s in
  let s := Server.set_upHashesRdy (map (fun i => nth (3 * i + 1) chans 0%nat) (seq 0 n)) s in
  let s := Server.set_reqHashesRdy (map (fun i => nth (3 * i + 2) chans 0%nat) (seq 0 n)) s in
  Ok (Server.set_regDone true s).

Definition RegisterDone2 (numClients : Z) : prog unit :=
  act "s.totalClients = numClients; ...; s.regDone = true"
    (RegisterDone2_body numClients);;
  Ret tt.

Definition GetNumClients : prog Z :=
  s ← read "*num = s.totalClients";
  Ret s.(Server.totalClients).

Definition GetPK : prog bytes :=
  s ← read "*pk = MarshalPoint(s.pk)";
  Ret (MarshalPoint s.(Server.pk)).

Definition shareSecret (clientPublic : Point) : prog (Point * Point) :=
  s ← act "secret := s.g.Secret().Pick(s.rand)"
        (fun s => Ok (Server.set_rand (Secret_Pick s.(Server.rand)).2 s));
  let gen := Point_Base in
  let secret := (Secret_Pick s.(Server.rand)).1 in
  let public := Point_Mul gen secret in
  let sharedSecret := Point_Mul clientPublic secret in
  Ret (public, sharedSecret).

(** Returns [*serverPub]. *)
Definition ShareMask (clientDH : ClientDH.t) : prog bytes :=
  '(pub, shared) ← shareSecret (UnmarshalPoint clientDH.(ClientDH.Public));
  act "s.masks[clientDH.Id] = MarshalPoint(shared)"
    (fun s => masks ← store s.(Server.masks) clientDH.(ClientDH.Id)
                        (MarshalPoint shared);
              Ok (Server.set_masks masks s));;
  Ret (MarshalPoint pub).

(** Returns [*serverPub]. *)
Definition ShareSecret (clientDH : ClientDH.t) : prog bytes :=
  '(pub, shared) ← shareSecret (UnmarshalPoint clientDH.(ClientDH.Public));
  act "s.secrets[clientDH.Id] = MarshalPoint(shared)"
    (fun s => secrets ← store s.(Server.secrets) clientDH.(ClientDH.Id)
                          (MarshalPoint shared);
              Ok (Server.set_secrets secrets s));;
  act "s.secrets[clientDH.Id] = make([]byte, SecretSize)"
    (fun s => secrets ← store s.(Server.secrets) clientDH.(ClientDH.Id)
                          (zeros SecretSize);
              Ok (Server.set_secrets secrets s));;
  Ret (MarshalPoint pub).

(** *** Request *)

Definition RequestBlock (cr : ClientRequest.t) : prog unit :=
  s ← read "for i, rpcServer := range s.rpcServers";
  par (map (fun rpcServer =>
         r ← call rpcServer (Server_ShareRequest cr);
         match r with
         | Err e => log_Fatal ("Couldn't share request: " +:+ e)
         | Ok _ => Ret tt
         end) s.(Server.rpcServers));;
  Ret tt.

Definition ShareRequest (cr : ClientRequest.t) : prog unit :=
  s ← act "s.requestsChan[cr.Id]"
        (fun s => _ ← at_index s.(Server.requestsChan) cr.(ClientRequest.Id); Ok s);
  send (index s.(Server.requestsChan) cr.(ClientRequest.Id))
       (MRequest cr.(ClientRequest.Request)).

(** Returns [*hashes]. *)
Definition GetReqHashes (id : Z) : prog (list bytes) :=
  s ← act "s.reqHashesRdy[id]"
        (fun s => _ ← at_index s.(Server.reqHashesRdy) id; Ok s);
  recv (index s.(Server.reqHashesRdy) id);;
  s ← read "*hashes = s.reqHashes";
  Ret s.(Server.reqHashes).

(** *** Upload *)

Definition UploadBlock (block : UpBlock.t) : prog unit :=
  s ← read "s.ublockChan <- *block";
  send (Some s.(Server.ublockChan)) (MUpBlock block).

Definition UploadBlock2 (block : UpBlock.t) : prog unit :=
  s ← read "s.ublockChan2 <- *block";
  send (Some s.(Server.ublockChan2)) (MUpBlock block).

Definition ShuffleBlocks (blocks : list UpBlock.t) : prog unit :=
  s ← read "s.shuffleChan <- *blocks";
  send (Some s.(Server.shuffleChan)) (MUpBlocks blocks).

(** *** Download *)

(** Returns [*hashes]. *)
Definition GetUpHashes (id : Z) : prog (list bytes) :=
  s ← act "s.upHashesRdy[id]"
        (fun s => _ ← at_index s.(Server.upHashesRdy) id; Ok s);
  recv (index s.(Server.upHashesRdy) id);;
  s ← read "*hashes = s.upHashes";
  Ret s.(Server.upHashes).

(** Goroutine [i] of [GetResponse]; for [i == s.id] the loop itself fills
    the slot with zeros. *)
Definition other_block (self : Z) (cmask : ClientMask.t) (i : Z) : prog bytes :=
  if decide (i = self) then Ret (zeros BlockSize) else
  s ← act "s.xorsChan[i][cmask.Id]"
        (fun s => _ ← at_index s.(Server.xorsChan) i; Ok s);
  m ← recv (default ∅ (index s.(Server.xorsChan) i) !! cmask.(ClientMask.Id));
  match m with
  | MBlock curBlock => Ret curBlock.(Block.Block)
  | _ => panic "chan Block"
  end.

(** Returns [*response]. *)
Definition GetResponse (cmask : ClientMask.t) : prog bytes :=
  s ← read "otherBlocks := make([][]byte, len(s.servers))";
  otherBlocks ← par (map (other_block s.(Server.id) cmask)
                         (upto (len s.(Server.servers))));
  s ← act "s.blocksRdy[cmask.Id]"
        (fun s => _ ← at_index s.(Server.blocksRdy) cmask.(ClientMask.Id); Ok s);
  recv (index s.(Server.blocksRdy) cmask.(ClientMask.Id));;
  s ← act "r := ComputeResponse(s.allBlocks, cmask.Mask, s.secrets[cmask.Id])"
        (fun s => _ ← at_index s.(Server.secrets) cmask.(ClientMask.Id); Ok s);
  let r := ComputeResponse s.(Server.allBlocks) cmask.(ClientMask.Mask)
             (default [] (index s.(Server.secrets) cmask.(ClientMask.Id))) in
  Ret (Xor (Xors otherBlocks) r).

Definition PutClientBlock (cblock : ClientBlock.t) : prog unit :=
  let block := cblock.(ClientBlock.Block) in
  s ← act "s.xorsChan[cblock.SId][cblock.CId]"
        (fun s => _ ← at_index s.(Server.xorsChan) cblock.(ClientBlock.SId); Ok s);
  send (default ∅ (index s.(Server.xorsChan) cblock.(ClientBlock.SId))
          !! cblock.(ClientBlock.CId))
       (MBlock block).

(** [for i := range blocks { s.upHashes[i] = Suite.Hash().Sum(blocks[i].Block) }] *)
Definition hash_blocks (blocks : list Block.t) (upHashes : list bytes)
    : Result (list bytes) :=
  foldl (fun upHashes '(i, b) =>
           upHashes ← upHashes;
           store upHashes (Z.of_nat i) (Hash.Sum Suite_Hash b.(Block.Block)))
        (Ok upHashes) (imap pair blocks).

Definition PutUploadedBlocks (blocks : list Block.t) : prog unit :=
  act "for i := range *blocks { s.upHashes[i] = Suite.Hash().Sum(...) }"
    (fun s => upHashes ← hash_blocks blocks s.(Server.upHashes);
              Ok (Server.set_upHashes upHashes s));;
  notify_hosted Server.upHashesRdy;;
  s ← read "s.dblocksChan <- *blocks";
  send (Some s.(Server.dblocksChan)) (MBlocks blocks).

(** *** Misc *)

Definition Masks : prog (list bytes) :=
  s ← read "return s.masks";
  Ret s.(Server.masks).

Definition Secrets : prog (list bytes) :=
  s ← read "return s.secrets";
  Ret s.(Server.secrets).

End ServerGo.

(** ** Runs of several goroutines *)

(** [interleave tss t]: [t] is a merge of the traces [tss], each in its
    own order. *)
Inductive interleave {A} : list (list A) -> list A -> Prop :=
| interleave_nil tss :
    Forall (eq []) tss ->
    interleave tss []
| interleave_cons tss i e ts t :
    tss !! i = Some (e :: ts) ->
    interleave (<[i := ts]> tss) t ->
    interleave tss (e :: t).

(** ** Running a program

    [exec p s ins] runs [p] from the state [s] with nothing else touching
    the struct: the messages received and the results of the calls are
    taken from [ins] in order, the goroutines of a fork run one after the
    other, and goroutines started with [go] are left where they start.  It
    is one of the runs of the semantics ([exec_sound]). *)
Inductive input :=
| InMsg (m : msg)
| InDial (r : Result unit)
| InCall (r : Result bytes).

Section Exec.
Context `{Suite}.

Abbreviation outcome A := (option (A * list event * Server.t * list input)).

(** The goroutines of a fork, one after the other. *)
Definition exec_all {B} (run : prog B -> Server.t -> list input -> outcome B)
    : list (prog B) -> Server.t -> list input -> outcome (list B) :=
  fix children ps s ins :=
    match ps with
    | [] => Some ([], [], s, ins)
    | p :: ps =>
        '(r, t, s1, ins) ← run p s ins;
        '(rs, t', s2, ins) ← children ps s1 ins;
        Some (r :: rs, t ++ t', s2, ins)
    end.

Fixpoint exec {A} (p : prog A) (s : Server.t) (ins : list input)
    : outcome A :=
  match p with
  | Ret a => Some (a, [], s, ins)
  | Crash _ => None
  | Act l f k =>
      match f s with
      | Ok s' =>
          '(a, t, s2, ins) ← exec (k s) s' ins;
          Some (a, EvAct l s s' :: t, s2, ins)
      | Err _ => None
      end
  | Recv c k =>
      match c, ins with
      | Some ch, InMsg m :: ins =>
          '(a, t, s2, ins) ← exec (k m) s ins;
          Some (a, EvRecv ch m :: t, s2, ins)
      | _, _ => None
      end
  | Send c m k =>
      match c with
      | Some ch =>
          '(a, t, s2, ins) ← exec k s ins;
          Some (a, EvSend ch m :: t, s2, ins)
      | None => None
      end
  | Dial addr k =>
      match ins with
      | InDial r :: ins =>
          '(a, t, s2, ins) ← exec (k r) s ins;
          Some (a, EvDial addr r :: t, s2, ins)
      | _ => None
      end
  | Call client req k =>
      match ins with
      | InCall r :: ins =>
          '(a, t, s2, ins) ← exec (k r) s ins;
          Some (a, EvCall client req r :: t, s2, ins)
      | _ => None
      end
  | Lock i k =>
      match Server.regLock s !! i with
      | Some false =>
          '(a, t, s2, ins) ← exec k (lock_held i true s) ins;
          Some (a, EvLock i s (lock_held i true s) :: t, s2, ins)
      | _ => None
      end
  | Unlock i k =>
      match Server.regLock s !! i with
      | Some true =>
          '(a, t, s2, ins) ← exec k (lock_held i false s) ins;
          Some (a, EvUnlock i s (lock_held i false s) :: t, s2, ins)
      | _ => None
      end
  | Go g k =>
      '(a, t, s2, ins) ← exec k s ins;
      Some (a, EvGo g :: t, s2, ins)
  | Par ps k =>
      '(rs, t1, s1, ins) ← exec_all (@exec _) ps s ins;
      '(a, t2, s2, ins) ← exec (k rs) s1 ins;
      Some (a, t1 ++ EvWait :: t2, s2, ins)
  end.

(** Induction on programs, through the goroutines of a fork. *)
Section ProgInd.
Variable P : forall A, prog A -> Prop.
Hypothesis HRet : forall A a, P A (Ret a).
Hypothesis HCrash : forall A m, P A (Crash m).
Hypothesis HAct : forall A l f k, (forall s, P A (k s)) -> P A (Act l f k).
Hypothesis HRecv : forall A c k, (forall m, P A (k m)) -> P A (Recv c k).
Hypothesis HSend : forall A c m k, P A k -> P A (Send c m k).
Hypothesis HDial : forall A a k, (forall r, P A (k r)) -> P A (Dial a k).
Hypothesis HCall : forall A c q k, (forall r, P A (k r)) -> P A (Call c q k).
Hypothesis HLock : forall A i k, P A k -> P A (Lock i k).
Hypothesis HUnlock : forall A i k, P A k -> P A (Unlock i k).
Hypothesis HGo : forall A g k, P unit g -> P A k -> P A (Go g k).
Hypothesis HPar : forall A B ps k,
  Forall (P B) ps -> (forall rs, P A (k rs)) -> P A (Par ps k).

Fixpoint prog_induction {A} (p : prog A) : P A p :=
  match p with
  | Ret a => HRet _ a
  | Crash m => HCrash _ m
  | Act l f k => HAct _ l f k (fun s => prog_induction (k s))
  | Recv c k => HRecv _ c k (fun m => prog_induction (k m))
  | Send c m k => HSend _ c m k (prog_induction k)
  | Dial a k => HDial _ a k (fun r => prog_induction (k r))
  | Call c q k => HCall _ c q k (fun r => prog_induction (k r))
  | Lock i k => HLock _ i k (prog_induction k)
  | Unlock i k => HUnlock _ i k (prog_induction k)
  | Go g k => HGo _ g k (prog_induction g) (prog_induction k)
  | Par ps k =>
      HPar _ _ ps k
        ((fix all ps : Forall (P _) ps :=
            match ps with
            | [] => List.Forall_nil _
            | p :: ps => List.Forall_cons _ p ps (prog_induction p) (all ps)
            end) ps)
        (fun rs => prog_induction (k rs))
  end.
End ProgInd.

End Exec.

(** ** The operations of a server

    What runs on a server: the methods net/rpc dispatches by name, the
    other exported methods, and the five pipeline stages [MainLoop]
    starts. *)
Inductive operation :=
| OpServe (req : rpc)
| OpConnectServers
| OpRegisterDone
| OpMasks
| OpSecrets
| OpHandleRequest
| OpHandleResponse
| OpHandleUpload
| OpGatherUploads
| OpShuffleUploads.

Section Operations.
Context `{L : Lib}.

(** The method behind each RPC name, its reply dropped. *)
Definition serve (req : rpc) : prog unit :=
  match req with
  | Server_Register client => Register client;; Ret tt
  | Server_Register2 client => Register2 client
  | Server_RegisterDone2 numClients => RegisterDone2 numClients
  | Server_GetNumClients => GetNumClients;; Ret tt
  | Server_GetPK => GetPK;; Ret tt
  | Server_ShareMask clientDH => ShareMask clientDH;; Ret tt
  | Server_ShareSecret clientDH => ShareSecret clientDH;; Ret tt
  | Server_RequestBlock cr => RequestBlock cr
  | Server_ShareRequest cr => ShareRequest cr
  | Server_GetReqHashes id => GetReqHashes id;; Ret tt
  | Server_UploadBlock block => UploadBlock block
  | Server_UploadBlock2 block => UploadBlock2 block
  | Server_ShuffleBlocks blocks => ShuffleBlocks blocks
  | Server_GetUpHashes id => GetUpHashes id;; Ret tt
  | Server_GetResponse cmask => GetResponse cmask;; Ret tt
  | Server_PutClientBlock cblock => PutClientBlock cblock
  | Server_PutUploadedBlocks blocks => PutUploadedBlocks blocks
  end.

Definition run_operation (o : operation) : prog unit :=
  match o with
  | OpServe req => serve req
  | OpConnectServers => ConnectServers
  | OpRegisterDone => RegisterDone
  | OpMasks => Masks;; Ret tt
  | OpSecrets => Secrets;; Ret tt
  | OpHandleRequest => handleRequest
  | OpHandleResponse => handleResponse
  | OpHandleUpload => handleUpload
  | OpGatherUploads => gatherUploads
  | OpShuffleUploads => shuffleUploads
  end.


(** The address [ConnectServers] dials server [i] at. *)
Definition dialled (s : Server.t) (i : Z) : string :=
  if decide (i = s.(Server.id)) then local_addr s.(Server.port)
  else default "" (index s.(Server.servers) i).

End Operations.

(** ** Frames

    [keeps P p]: every statement of [p], and of the goroutines it starts,
    takes a state [a] to a state [b] with [P a b]. *)
Section Frames.
Context `{Suite}.

Unset Elimination Schemes.
Inductive keeps (P : Server.t -> Server.t -> Prop) : forall {A}, prog A -> Prop :=
| keeps_Ret A (a : A) : keeps P (Ret a)
| keeps_Crash A m : keeps P (@Crash _ A m)
| keeps_Act A l f (k : Server.t -> prog A) :
    (forall a b, f a = Ok b -> P a b) ->
    (forall a, keeps P (k a)) ->
    keeps P (Act l f k)
| keeps_Recv A c (k : msg -> prog A) :
    (forall m, keeps P (k m)) -> keeps P (Recv c k)
| keeps_Send A c m (k : prog A) : keeps P k -> keeps P (Send c m k)
| keeps_Dial A addr (k : Result unit -> prog A) :
    (forall r, keeps P (k r)) -> keeps P (Dial addr k)
| keeps_Call A client req (k : Result bytes -> prog A) :
    (forall r, keeps P (k r)) -> keeps P (Call client req k)
| keeps_Lock A i (k : prog A) :
    (forall a, P a (lock_held i true a)) -> keeps P k -> keeps P (Lock i k)
| keeps_Unlock A i (k : prog A) :
    (forall a, P a (lock_held i false a)) -> keeps P k -> keeps P (Unlock i k)
| keeps_Go A g (k : prog A) : keeps P g -> keeps P k -> keeps P (Go g k)
| keeps_Par A B (ps : list (prog B)) (k : list B -> prog A) :
    Forall (keeps P) ps -> (forall rs, keeps P (k rs)) -> keeps P (Par ps k).
Set Elimination Schemes.

(** The state change an event records, if any, is within [P]. *)
Definition event_keeps (P : Server.t -> Server.t -> Prop) (e : event) : Prop :=
  match e with
  | EvAct _ a b | EvLock _ a b | EvUnlock _ a b => a = b \/ P a b
  | _ => True
  end.

End Frames.

(** ** A small instance to run the model on *)

Definition toy_Pick (r : Z) : Z * Z := (r + 3, r + 1).
Definition toy_digest (b : bytes) : bytes := [foldr Z.lxor 0 b].
Definition toy_Shuffle2 (pi : list Z) (pk : Z) (X Y : list Z) (r : Z)
    : (list Z * list Z * unit) * Z :=
  ((rev X, rev Y, tt), r + 1).
Definition toy_HashProve (r : Z) (p : unit) : Result bytes * Z := (Ok [r], r + 1).

Definition toy_suite : Suite :=
  {| Point := Z;
     Secret := Z;
     Cipher := Z;
     Prover := unit;
     Point_Base := 2;
     Point_Mul := Z.mul;
     Point_Add := Z.add;
     Point_Data := fun p => Ok [p];
     Secret_Pick := toy_Pick;
     digest := toy_digest;
     Shuffle2 := toy_Shuffle2;
     HashProve := toy_HashProve |}.

Definition toy_Marshal (p : Z) : bytes := [p].
Definition toy_Unmarshal (b : bytes) : Z := hd 0 b.
Definition toy_GeneratePI (n r : Z) : list Z * Z := (rev (upto n), r + 1).
Definition toy_Decrypt (c1 c2 sk : Z) : Z := c2 - c1 * sk.
(** Select the blocks whose mask byte is set, whiten with the secret. *)
Definition toy_ComputeResponse (allBlocks : list Block.t) (mask secret : bytes)
    : bytes :=
  Xor secret
    (Xors (zeros 2 ::
           map (fun bm => Block.Block bm.1)
             (filter (fun bm => bm.2 <> 0) (zip allBlocks mask)))).

Definition toy_lib : @Lib toy_suite :=
  @Build_Lib toy_suite 2 2%nat 2%nat toy_Marshal toy_Unmarshal toy_GeneratePI
    toy_Decrypt toy_ComputeResponse.

(** Two servers; this is server 0, after both clients have registered. *)
Definition toy_new : @Server.t toy_suite :=
  @NewServer toy_suite "10.0.0.1:8000" 8000 0 ["10.0.0.1:8000"; "10.0.0.2:8000"] 7.

Definition toy_registered : @Server.t toy_suite :=
  match @RegisterDone2_body toy_suite toy_lib 2
          (Server.set_clientMap (<[1 := 1]> (<[0 := 0]> ∅)) toy_new) with
  | Ok s => s
  | Err _ => toy_new
  end.

(** ** Frames of the operations *)
Section FrameDefs.
Context `{Suite}.

(** The statement leaves the masks and the secrets alone. *)
Definition quiet (a b : Server.t) : Prop :=
  Server.secrets b = Server.secrets a /\ Server.masks b = Server.masks a.

(** The statement may write a mask or a secret, but the two slices stay
    as long as they are. *)
Definition same_lengths (a b : Server.t) : Prop :=
  length (Server.masks b) = length (Server.masks a) /\
  length (Server.secrets b) = length (Server.secrets a).

(** The statement leaves the configuration and the keys alone. *)
Definition keys_stable (a b : Server.t) : Prop :=
  Server.servers b = Server.servers a /\
  Server.id b = Server.id a /\
  Server.port b = Server.port a /\
  Server.pk b = Server.pk a /\
  Server.pks b = Server.pks a /\
  Server.nextPk b = Server.nextPk a.

(** The statement leaves alone what the server was made with (its
    address, port, id, the list of servers and its key pair) and does not
    take back [regDone]. *)
Definition same_identity (a b : Server.t) : Prop :=
  Server.addr b = Server.addr a /\
  Server.port b = Server.port a /\
  Server.id b = Server.id a /\
  Server.servers b = Server.servers a /\
  Server.sk b = Server.sk a /\
  Server.pk b = Server.pk a /\
  (Server.regDone a = true -> Server.regDone b = true).

End FrameDefs.

(** ** Outcomes of an operation *)
Section Outcomes.
Context `{L : Lib}.

(** [p], started in state [s] with the rest of the process within [R],
    never returns: whenever it stops it has panicked on an index out of
    range, and it can get there. *)
Definition faults (R : Server.t -> Server.t -> Prop) {A} (p : prog A)
    (s : Server.t) : Prop :=
  (forall t q sp s', steps p t q sp -> chained R s t s' ->
     (forall a, q <> Ret a) /\
     (forall m, q = Crash m -> m = index_out_of_range)) /\
  (exists t sp s', steps p t (Crash index_out_of_range) sp /\ chained R s t s').

(** [p], started in state [s] with the rest of the process within [R],
    never panics, and can run to its return. *)
Definition completes (R : Server.t -> Server.t -> Prop) {A} (p : prog A)
    (s : Server.t) : Prop :=
  (forall t q sp s', steps p t q sp -> chained R s t s' ->
     forall m, q <> Crash m) /\
  (exists t a s', returns p t a /\ chained R s t s').

(** The states a server can be in while no [RegisterDone2] has run on it:
    it was made by [NewServer], and every operation run since (to its end
    or not) was another one. *)
Inductive before_RegisterDone2 : Server.t -> Prop :=
| before_new addr port id servers key :
    before_RegisterDone2 (NewServer addr port id servers key)
| before_operation s o t q sp s' :
    before_RegisterDone2 s ->
    (forall n, o <> OpServe (Server_RegisterDone2 n)) ->
    steps (run_operation o) t q sp ->
    chained same_lengths s t s' ->
    before_RegisterDone2 s'.

(** The trace of the loop [notify rdy]: one read of [clientMap] per
    index, followed by a [go] for the clients hosted here. *)
Inductive notify_trace (rdy : Server.t -> list chan) : list event -> Prop :=
| notify_done : notify_trace rdy []
| notify_skip s u :
    notify_trace rdy u ->
    notify_trace rdy (EvAct "if s.clientMap[i] != s.id { continue }" s s :: u)
| notify_go s i u :
    map_get s.(Server.clientMap) i = s.(Server.id) ->
    notify_trace rdy u ->
    notify_trace rdy (EvAct "if s.clientMap[i] != s.id { continue }" s s ::
                      EvGo (signal rdy i) :: u).

(** The trace of the loop [respond_all allBlocks]: one read of
    [clientMap] per client, followed by a [go] for the clients hosted
    elsewhere. *)
Inductive respond_trace (allBlocks : list Block.t) : list event -> Prop :=
| respond_done : respond_trace allBlocks []
| respond_skip s u :
    respond_trace allBlocks u ->
    respond_trace allBlocks
      (EvAct "if s.clientMap[i] == s.id { continue }" s s :: u)
| respond_go s i u :
    map_get s.(Server.clientMap) i <> s.(Server.id) ->
    respond_trace allBlocks u ->
    respond_trace allBlocks
      (EvAct "if s.clientMap[i] == s.id { continue }" s s ::
       EvGo (respond allBlocks i (map_get s.(Server.clientMap) i)) :: u).

End Outcomes.

(** ** Shapes of runs *)
Section RunShapes.
Context `{L : Lib}.

(** The goroutines a run starts are those of its [go] events. *)
Definition spawned (t : list event) : list (prog unit) :=
  omap (fun e => match e with EvGo g => Some g | _ => None end) t.

(** Goroutine [i] of a fork runs from [ps[i]] to [qs[i]] with trace
    [tss[i]]. *)
Definition par_runs {B} (ps : list (prog B)) (tss : list (list event))
    (qs : list (prog B)) : Prop :=
  length tss = length ps /\ length qs = length ps /\
  forall i p ts q, ps !! i = Some p -> tss !! i = Some ts -> qs !! i = Some q ->
    exists sp, steps p ts q sp.

(** Goroutine [i] of a fork runs to its end with trace [tss[i]] and
    leaves [rs[i]] in its slot. *)
Definition par_returns {B} (ps : list (prog B)) (tss : list (list event))
    (rs : list B) : Prop :=
  length tss = length ps /\ length rs = length ps /\
  forall i p ts r, ps !! i = Some p -> tss !! i = Some ts -> rs !! i = Some r ->
    returns p ts r.

(** Goroutine [i] of [ConnectServers] writes [v] to [pks[i]]. *)
Definition pk_write (i : nat) (v : Point) (e : event) : Prop :=
  exists a, e = EvAct "s.pks[i] = UnmarshalPoint(pk)" a
                  (Server.set_pks (<[i := Some v]> (Server.pks a)) a) /\
            (i < length (Server.pks a))%nat.

(** What is left of the trace of goroutine [i] of [ConnectServers]: all
    of it, the write alone, or nothing. *)
Definition GetPK_left (i : nat) (v : Point) (ts : list event) : Prop :=
  ts = [] \/
  (exists e, pk_write i v e /\ ts = [e]) \/
  (exists c pk e, pk_write i v e /\ ts = [EvCall c Server_GetPK (Ok pk); e]).

(** The batch as [C] columns, each holding one point per upload. *)
Definition transposed (totalClients C : Z) (allUploads : list UpBlock.t)
    (side : UpBlock.t -> list bytes) (cols : list (list Point)) : Prop :=
  length cols = Z.to_nat C /\
  forall (i : nat) col, cols !! i = Some col ->
    length col = Z.to_nat totalClients /\
    forall (j : nat) p, col !! j = Some p ->
      exists upload c, allUploads !! j = Some upload /\
        side upload !! i = Some c /\ p = UnmarshalPoint c.

(** The trace of a broadcast loop that went through: for every client of
    [rpcServers] in order, the state the request was built from and the
    reply. *)
Definition call_trace (req : Server.t -> rpc) (rpcServers : list string)
    (obs : list (Server.t * bytes)) : list event :=
  concat (zip_with (fun rpcServer '(s, reply) =>
                      [EvAct "err := rpcServer.Call(...)" s s;
                       EvCall rpcServer (req s) (Ok reply)])
                   rpcServers obs).

(** The uploads a trace received, in the order of their arrival. *)
Definition uploads_received (t : list event) : list UpBlock.t :=
  omap (fun e => match e with EvRecv _ (MUpBlock u) => Some u | _ => None end) t.

(** [m] has a channel for every client id below [n]. *)
Definition full_row (n : Z) (m : gmap Z chan) : Prop :=
  forall j, 0 <= j < n -> is_Some (m !! j).

End RunShapes.

(** * Properties *)

Ltac inj_existT :=
  repeat match goal with
  | H : existT _ _ = existT _ _ |- _ => apply inj_pair2 in H
  end.

Ltac invert H := inversion H; clear H; inj_existT; subst.

(** ** Runs of one goroutine *)
Section Runs.
Context `{Suite}.

Lemma steps_app {A} (p q r : prog A) t1 t2 sp1 sp2 :
  steps p t1 q sp1 -> steps q t2 r sp2 -> steps p (t1 ++ t2) r (sp1 ++ sp2).
Proof.
  induction 1 as [|p e p1 sp0 t p2 sp3 Hs Hss IH]; intros H2; simpl; [done|].
  rewrite <- app_assoc. econstructor; eauto.
Qed.

Lemma steps_one {A} (p q : prog A) e sp : step p e q sp -> steps p [e] q sp.
Proof.
  intros Hs. rewrite <- (app_nil_r sp). econstructor; [done|constructor].
Qed.

Lemma steps_Ret_inv {A} (a : A) t q sp :
  steps (Ret a) t q sp -> t = [] /\ q = Ret a /\ sp = [].
Proof. intros Hs. invert Hs; [done|]. match goal with H : step _ _ _ _ |- _ => invert H end. Qed.

Lemma steps_Crash_inv {A} m t (q : prog A) sp :
  steps (Crash m) t q sp -> t = [] /\ q = Crash m /\ sp = [].
Proof. intros Hs. invert Hs; [done|]. match goal with H : step _ _ _ _ |- _ => invert H end. Qed.

Lemma steps_Act_inv {A} l f (k : Server.t -> prog A) t q sp :
  steps (Act l f k) t q sp ->
  (t = [] /\ q = Act l f k) \/
  (exists a m, t = [EvAct l a a] /\ f a = Err m /\ q = Crash m) \/
  (exists a b t', t = EvAct l a b :: t' /\ f a = Ok b /\ steps (k a) t' q sp).
Proof.
  intros Hs. invert Hs; [by left|right].
  match goal with H : step _ _ _ _ |- _ => invert H end.
  - right. repeat eexists; eauto.
  - left. match goal with H : steps (Crash _) _ _ _ |- _ =>
      apply steps_Crash_inv in H as (-> & -> & ->) end. repeat eexists; eauto.
Qed.

Lemma steps_Recv_inv {A} c (k : msg -> prog A) t q sp :
  steps (Recv c k) t q sp ->
  (t = [] /\ q = Recv c k) \/
  (exists ch m t', c = Some ch /\ t = EvRecv ch m :: t' /\ steps (k m) t' q sp).
Proof.
  intros Hs. invert Hs; [by left|right].
  match goal with H : step _ _ _ _ |- _ => invert H end. repeat eexists; eauto.
Qed.

Lemma steps_Send_inv {A} c m (k : prog A) t q sp :
  steps (Send c m k) t q sp ->
  (t = [] /\ q = Send c m k) \/
  (exists ch t', c = Some ch /\ t = EvSend ch m :: t' /\ steps k t' q sp).
Proof.
  intros Hs. invert Hs; [by left|right].
  match goal with H : step _ _ _ _ |- _ => invert H end. repeat eexists; eauto.
Qed.

Lemma steps_Dial_inv {A} addr (k : Result unit -> prog A) t q sp :
  steps (Dial addr k) t q sp ->
  (t = [] /\ q = Dial addr k) \/
  (exists r t', t = EvDial addr r :: t' /\ steps (k r) t' q sp).
Proof.
  intros Hs. invert Hs; [by left|right].
  match goal with H : step _ _ _ _ |- _ => invert H end. repeat eexists; eauto.
Qed.

Lemma steps_Call_inv {A} client req (k : Result bytes -> prog A) t q sp :
  steps (Call client req k) t q sp ->
  (t = [] /\ q = Call client req k) \/
  (exists r t', t = EvCall client req r :: t' /\ steps (k r) t' q sp).
Proof.
  intros Hs. invert Hs; [by left|right].
  match goal with H : step _ _ _ _ |- _ => invert H end. repeat eexists; eauto.
Qed.

Lemma steps_Lock_inv {A} i (k : prog A) t q sp :
  steps (Lock i k) t q sp ->
  (t = [] /\ q = Lock i k) \/
  (exists a t', Server.regLock a !! i = Some false /\
     t = EvLock i a (lock_held i true a) :: t' /\ steps k t' q sp).
Proof.
  intros Hs. invert Hs; [by left|right].
  match goal with H : step _ _ _ _ |- _ => invert H end. repeat eexists; eauto.
Qed.

Lemma steps_Unlock_inv {A} i (k : prog A) t q sp :
  steps (Unlock i k) t q sp ->
  (t = [] /\ q = Unlock i k) \/
  (exists a, Server.regLock a !! i = Some false /\ t = [EvUnlock i a a] /\
     q = Crash "fatal error: sync: unlock of unlocked mutex") \/
  (exists a t', Server.regLock a !! i = Some true /\
     t = EvUnlock i a (lock_held i false a) :: t' /\ steps k t' q sp).
Proof.
  intros Hs. invert Hs; [by left|right].
  match goal with H : step _ _ _ _ |- _ => invert H end.
  - right. repeat eexists; eauto.
  - left. match goal with H : steps (Crash _) _ _ _ |- _ =>
      apply steps_Crash_inv in H as (-> & -> & ->) end. repeat eexists; eauto.
Qed.

Lemma steps_Go_inv {A} g (k : prog A) t q sp :
  steps (Go g k) t q sp ->
  (t = [] /\ q = Go g k) \/
  (exists t' sp', t = EvGo g :: t' /\ sp = g :: sp' /\ steps k t' q sp').
Proof.
  intros Hs. invert Hs; [by left|right].
  match goal with H : step _ _ _ _ |- _ => invert H end. repeat eexists; eauto.
Qed.



(** *** The WaitGroup fork/join *)

Lemma par_runs_nil {B} (ps : list (prog B)) :
  par_runs ps (replicate (length ps) []) ps.
Proof.
  split; [by rewrite length_replicate|split; [done|]].
  intros i p ts q Hp Hts Hq. apply lookup_replicate in Hts as [-> _].
  assert (p = q) as -> by congruence. eexists. constructor.
Qed.

Lemma interleave_replicate {A} n : interleave (replicate n (@nil A)) [].
Proof. constructor. apply Forall_forall. by intros x [-> _]%elem_of_replicate. Qed.

Lemma par_runs_cons {B} (ps : list (prog B)) i p e p' sp tss qs t :
  ps !! i = Some p ->
  step p e p' sp ->
  par_runs (<[i := p']> ps) tss qs ->
  interleave tss t ->
  exists tss', par_runs ps tss' qs /\ interleave tss' (e :: t).
Proof.
  intros Hp Hs (Hl1 & Hl2 & Hruns) Hi.
  rewrite length_insert in Hl1, Hl2.
  assert (i < length ps)%nat as Hlt by (eapply lookup_lt_Some; eauto).
  destruct (lookup_lt_is_Some_2 tss i) as [ts Hts]; [lia|].
  destruct (lookup_lt_is_Some_2 qs i) as [q Hq]; [lia|].
  exists (<[i := e :: ts]> tss). split.
  - split; [by rewrite length_insert|split; [done|]].
    intros j pj tsj qj Hpj Htsj Hqj.
    destruct (decide (j = i)) as [->|Hne].
    + rewrite list_lookup_insert_eq in Htsj by lia.
      assert (pj = p) as -> by congruence.
      assert (tsj = e :: ts) as -> by congruence.
      destruct (Hruns i p' ts qj) as [sp' Hsp']; auto.
      { rewrite list_lookup_insert_eq by lia. done. }
      eexists. econstructor; eauto.
    + rewrite list_lookup_insert_ne in Htsj by done.
      apply (Hruns j pj tsj qj); auto.
      by rewrite list_lookup_insert_ne.
  - econstructor.
    + rewrite list_lookup_insert_eq by lia. reflexivity.
    + rewrite list_insert_insert_eq, list_insert_id by done. done.
Qed.

Lemma steps_Par_inv {A B} (ps : list (prog B)) (k : list B -> prog A) t q sp :
  steps (Par ps k) t q sp ->
  (exists tss qs, par_runs ps tss qs /\ interleave tss t /\ q = Par qs k) \/
  (exists tss qs m t1, par_runs ps tss qs /\ interleave tss t1 /\
     In (Crash m) qs /\ t = t1 ++ [EvWait] /\ q = Crash m) \/
  (exists tss rs t1 t2 sp2, par_runs ps tss (map Ret rs) /\ interleave tss t1 /\
     t = t1 ++ EvWait :: t2 /\ steps (k rs) t2 q sp2).
Proof.
  intros Hs. remember (Par ps k) as p0 eqn:E.
  revert ps E. induction Hs as [|p e p1 sp1 t p2 sp2 Hs Hss IH]; intros ps ->.
  { left. exists (replicate (length ps) []), ps.
    split; [apply par_runs_nil|split; [apply interleave_replicate|done]]. }
  invert Hs.
  - match goal with
    | Hl : ps !! _ = Some _, Hst : step _ e _ _ |- _ =>
        pose proof (fun tss qs t => par_runs_cons _ _ _ _ _ _ tss qs t Hl Hst) as Hcons
    end.
    destruct (IH _ eq_refl) as
      [(tss & qs & Hr & Hi & ->)
      |[(tss & qs & m & t1 & Hr & Hi & Hin & -> & ->)
       |(tss & rs & t1 & t2 & sp3 & Hr & Hi & -> & Hk)]];
      destruct (Hcons _ _ _ Hr Hi) as (tss' & Hr' & Hi').
    + left. eauto 10.
    + right; left. exists tss', qs, m, (e :: t1). eauto 10.
    + right; right. exists tss', rs, (e :: t1), t2, sp3. eauto 10.
  - match goal with
    | Hk : steps (k ?rs) _ _ _ |- _ =>
        right; right; exists (replicate (length (map Ret rs)) []), rs, [], t, sp2
    end.
    split; [apply par_runs_nil|split; [apply interleave_replicate|done]].
  - apply steps_Crash_inv in Hss as (-> & -> & ->).
    right; left. exists (replicate (length ps) []), ps, m, [].
    split; [apply par_runs_nil|split; [apply interleave_replicate|done]].
Qed.

(** *** Runs that return *)

Lemma returns_Ret {A} (a r : A) t : returns (Ret a) t r -> t = [] /\ r = a.
Proof. intros [sp (-> & [= ->] & _)%steps_Ret_inv]. done. Qed.

Lemma returns_Crash {A} m t (r : A) : returns (Crash m) t r -> False.
Proof. intros [sp (_ & [=] & _)%steps_Crash_inv]. Qed.

Lemma returns_Act {A} l f (k : Server.t -> prog A) t r :
  returns (Act l f k) t r ->
  exists a b t', t = EvAct l a b :: t' /\ f a = Ok b /\ returns (k a) t' r.
Proof.
  intros [sp [(_ & [=])|[(a & m & _ & _ & [=])|(a & b & t' & -> & Hf & Hk)]]%steps_Act_inv].
  exists a, b, t'. repeat split; auto. by exists sp.
Qed.

Lemma returns_Recv {A} c (k : msg -> prog A) t r :
  returns (Recv c k) t r ->
  exists ch m t', c = Some ch /\ t = EvRecv ch m :: t' /\ returns (k m) t' r.
Proof.
  intros [sp [(_ & [=])|(ch & m & t' & -> & -> & Hk)]%steps_Recv_inv].
  exists ch, m, t'. repeat split; auto. by exists sp.
Qed.

Lemma returns_Send {A} c m (k : prog A) t r :
  returns (Send c m k) t r ->
  exists ch t', c = Some ch /\ t = EvSend ch m :: t' /\ returns k t' r.
Proof.
  intros [sp [(_ & [=])|(ch & t' & -> & -> & Hk)]%steps_Send_inv].
  exists ch, t'. repeat split; auto. by exists sp.
Qed.

Lemma returns_Dial {A} addr (k : Result unit -> prog A) t r :
  returns (Dial addr k) t r ->
  exists x t', t = EvDial addr x :: t' /\ returns (k x) t' r.
Proof.
  intros [sp [(_ & [=])|(x & t' & -> & Hk)]%steps_Dial_inv].
  exists x, t'. repeat split; auto. by exists sp.
Qed.

Lemma returns_Call {A} client req (k : Result bytes -> prog A) t r :
  returns (Call client req k) t r ->
  exists x t', t = EvCall client req x :: t' /\ returns (k x) t' r.
Proof.
  intros [sp [(_ & [=])|(x & t' & -> & Hk)]%steps_Call_inv].
  exists x, t'. repeat split; auto. by exists sp.
Qed.

Lemma returns_Lock {A} i (k : prog A) t r :
  returns (Lock i k) t r ->
  exists a t', Server.regLock a !! i = Some false /\
    t = EvLock i a (lock_held i true a) :: t' /\ returns k t' r.
Proof.
  intros [sp [(_ & [=])|(a & t' & Ha & -> & Hk)]%steps_Lock_inv].
  exists a, t'. repeat split; auto. by exists sp.
Qed.

Lemma returns_Unlock {A} i (k : prog A) t r :
  returns (Unlock i k) t r ->
  exists a t', Server.regLock a !! i = Some true /\
    t = EvUnlock i a (lock_held i false a) :: t' /\ returns k t' r.
Proof.
  intros [sp [(_ & [=])|[(a & _ & _ & [=])|(a & t' & Ha & -> & Hk)]]%steps_Unlock_inv].
  exists a, t'. repeat split; auto. by exists sp.
Qed.

Lemma returns_Go {A} g (k : prog A) t r :
  returns (Go g k) t r ->
  exists t', t = EvGo g :: t' /\ returns k t' r.
Proof.
  intros [sp [(_ & [=])|(t' & sp' & -> & -> & Hk)]%steps_Go_inv].
  exists t'. split; auto. by exists sp'.
Qed.

Lemma par_runs_returns {B} (ps : list (prog B)) tss rs :
  par_runs ps tss (map Ret rs) -> par_returns ps tss rs.
Proof.
  intros (Hl1 & Hl2 & Hruns). rewrite length_map in Hl2.
  split; [done|split; [done|]].
  intros i p ts r Hp Hts Hr.
  apply (Hruns i p ts (Ret r)); auto.
  by rewrite list_lookup_fmap, Hr.
Qed.

Lemma returns_Par {A B} (ps : list (prog B)) (k : list B -> prog A) t r :
  returns (Par ps k) t r ->
  exists tss rs t1 t2, par_returns ps tss rs /\ interleave tss t1 /\
    t = t1 ++ EvWait :: t2 /\ returns (k rs) t2 r.
Proof.
  intros [sp [(tss & qs & _ & _ & [=])
             |[(tss & qs & m & t1 & _ & _ & _ & _ & [=])
              |(tss & rs & t1 & t2 & sp2 & Hr & Hi & -> & Hk)]]%steps_Par_inv].
  exists tss, rs, t1, t2. split; [by apply par_runs_returns|].
  repeat split; auto. by exists sp2.
Qed.

Lemma par_returns_map {B X} (f : X -> prog B) (xs : list X) tss rs :
  par_returns (map f xs) tss rs ->
  length tss = length xs /\ length rs = length xs /\
  forall i x, xs !! i = Some x ->
    exists ts r, tss !! i = Some ts /\ rs !! i = Some r /\ returns (f x) ts r.
Proof.
  intros (Hl1 & Hl2 & Hruns). rewrite length_map in Hl1, Hl2.
  split; [done|split; [done|]]. intros i x Hx.
  assert (i < length xs)%nat as Hlt by (eapply lookup_lt_Some; eauto).
  destruct (lookup_lt_is_Some_2 tss i) as [ts Hts]; [lia|].
  destruct (lookup_lt_is_Some_2 rs i) as [r Hr]; [lia|].
  exists ts, r. repeat split; auto.
  apply (Hruns i (f x) ts r); auto. by rewrite list_lookup_fmap, Hx.
Qed.

End Runs.

(** Symbolic execution of a run that returns: expose the head operation
    of the program and invert it. *)
Ltac expose :=
  unfold mbind, mret, prog_bind, prog_ret, Result_bind, Result_ret,
    act, read, recv, send, dial, call, lock, unlock, go, par, panic,
    log_Fatal in *;
  cbn [pbind] in *.

Ltac run1 H :=
  expose;
  lazymatch type of H with
  | returns (Ret _) _ _ => apply returns_Ret in H as [? ?]
  | returns (Crash _) _ _ => apply returns_Crash in H; destruct H
  | returns (Act _ _ _) _ _ =>
      apply returns_Act in H as (? & ? & ? & ? & ? & H)
  | returns (Recv _ _) _ _ =>
      apply returns_Recv in H as (? & ? & ? & ? & ? & H)
  | returns (Send _ _ _) _ _ =>
      apply returns_Send in H as (? & ? & ? & ? & H)
  | returns (Dial _ _) _ _ =>
      apply returns_Dial in H as (? & ? & ? & H)
  | returns (Call _ _ _) _ _ =>
      apply returns_Call in H as (? & ? & ? & H)
  | returns (Lock _ _) _ _ =>
      apply returns_Lock in H as (? & ? & ? & ? & H)
  | returns (Unlock _ _) _ _ =>
      apply returns_Unlock in H as (? & ? & ? & ? & H)
  | returns (Go _ _) _ _ =>
      apply returns_Go in H as (? & ? & H)
  end.

(** ** The runner is sound *)
Section ExecSound.
Context `{Suite}.

Lemma chained_eq_app (s s1 s' : Server.t) t1 t2 :
  chained eq s t1 s1 -> chained eq s1 t2 s' -> chained eq s (t1 ++ t2) s'.
Proof.
  revert s. induction t1 as [|e t1 IH]; intros s; simpl.
  - by intros ->.
  - destruct e; try (intros [-> ?] ?; split; [done|]); eauto.
Qed.

Lemma steps_child_at {A B} (k : list B -> prog A) pre post (p p' : prog B) ts sp :
  steps p ts p' sp ->
  steps (Par (pre ++ p :: post) k) ts (Par (pre ++ p' :: post) k) sp.
Proof.
  induction 1 as [|p e p1 sp1 t p2 sp2 Hs Hss IH]; [constructor|].
  econstructor; [|exact IH].
  replace (pre ++ p1 :: post) with (<[length pre := p1]> (pre ++ p :: post)).
  - eapply step_child; [|done]. by rewrite list_lookup_middle.
  - rewrite insert_app_r_alt by lia. by rewrite Nat.sub_diag.
Qed.

Lemma steps_children {A B} (k : list B -> prog A) (ps : list (prog B)) tss rs done :
  Forall3 (fun p ts r => returns p ts r) ps tss rs ->
  exists sp, steps (Par (map Ret done ++ ps) k) (concat tss)
               (Par (map Ret (done ++ rs)) k) sp.
Proof.
  intros HF. revert done.
  induction HF as [|p ts r ps tss rs [sp Hp] HF IH]; intros done.
  - rewrite !app_nil_r. eexists. constructor.
  - destruct (IH (done ++ [r])) as [sp' Hrest].
    rewrite map_app, <- !app_assoc in Hrest. simpl in Hrest.
    eexists. simpl. eapply steps_app; [|exact Hrest].
    by apply steps_child_at.
Qed.

Lemma returns_Par_seq {A B} (k : list B -> prog A) (ps : list (prog B)) tss rs t2 r :
  Forall3 (fun p ts r => returns p ts r) ps tss rs ->
  returns (k rs) t2 r ->
  returns (Par ps k) (concat tss ++ EvWait :: t2) r.
Proof.
  intros HF [sp2 Hk].
  destruct (steps_children k ps tss rs [] HF) as [sp1 Hc]. simpl in Hc.
  eexists. eapply steps_app; [exact Hc|].
  econstructor; [apply step_wait|exact Hk].
Qed.

Lemma exec_all_sound {B} (ps : list (prog B)) :
  Forall (fun p => forall s ins a t s' ins',
            exec p s ins = Some (a, t, s', ins') ->
            returns p t a /\ chained eq s t s') ps ->
  forall s ins rs t s' ins',
    exec_all (@exec _ B) ps s ins = Some (rs, t, s', ins') ->
    exists tss, Forall3 (fun p ts r => returns p ts r) ps tss rs /\
                t = concat tss /\ chained eq s t s'.
Proof.
  induction 1 as [|p ps Hp HF IH]; intros s ins rs t s' ins' He; simpl in He.
  - injection He as <- <- <- <-. exists []. split; [constructor|done].
  - destruct (exec p s ins) as [[[[r t1] s1] ins1]|] eqn:E1; [|done].
    simpl in He.
    destruct (exec_all _ ps s1 ins1) as [[[[rs' t'] s2] ins2]|] eqn:E2; [|done].
    simpl in He. injection He as <- <- <- <-.
    destruct (Hp _ _ _ _ _ _ E1) as [Hr Hc].
    destruct (IH _ _ _ _ _ _ E2) as (tss & HF3 & -> & Hc').
    exists (t1 :: tss). split; [by constructor|].
    split; [done|]. eapply chained_eq_app; eauto.
Qed.

Lemma returns_intro {A} (p q : prog A) e t r :
  step p e q (spawned [e]) -> returns q t r -> returns p (e :: t) r.
Proof. intros Hs [sp Hq]. eexists. econstructor; [exact Hs|exact Hq]. Qed.

Theorem exec_sound {A} (p : prog A) s ins a t s' ins' :
  exec p s ins = Some (a, t, s', ins') ->
  returns p t a /\ chained eq s t s'.
Proof.
  revert A p s ins a t s' ins'.
  apply (prog_induction (fun A p => forall s ins a t s' ins',
           exec p s ins = Some (a, t, s', ins') ->
           returns p t a /\ chained eq s t s')).
  - intros A a s ins r t s' ins' He. simpl in He.
    injection He as <- <- <- <-. split; [|done]. eexists. constructor.
  - done.
  - intros A l f k IH s ins r t s' ins' He. simpl in He.
    destruct (f s) as [s1|] eqn:Ef; [|done].
    destruct (exec (k s) s1 ins) as [[[[a' t'] s2] ins2]|] eqn:E; [|done].
    simpl in He. injection He as <- <- <- <-.
    destruct (IH _ _ _ _ _ _ _ E) as [Hr Hc]. split; [|done].
    eapply returns_intro; [|done]. by apply step_act.
  - intros A c k IH s ins r t s' ins' He. simpl in He.
    destruct c as [ch|]; [|done]. destruct ins as [|[m| |] ins]; try done.
    destruct (exec (k m) s ins) as [[[[a' t'] s2] ins2]|] eqn:E; [|done].
    simpl in He. injection He as <- <- <- <-.
    destruct (IH _ _ _ _ _ _ _ E) as [Hr Hc]. split; [|done].
    eapply returns_intro; [|done]. apply step_recv.
  - intros A c m k IH s ins r t s' ins' He. simpl in He.
    destruct c as [ch|]; [|done].
    destruct (exec k s ins) as [[[[a' t'] s2] ins2]|] eqn:E; [|done].
    simpl in He. injection He as <- <- <- <-.
    destruct (IH _ _ _ _ _ _ E) as [Hr Hc]. split; [|done].
    eapply returns_intro; [|done]. apply step_send.
  - intros A addr k IH s ins r t s' ins' He. simpl in He.
    destruct ins as [|[|x|] ins]; try done.
    destruct (exec (k x) s ins) as [[[[a' t'] s2] ins2]|] eqn:E; [|done].
    simpl in He. injection He as <- <- <- <-.
    destruct (IH _ _ _ _ _ _ _ E) as [Hr Hc]. split; [|done].
    eapply returns_intro; [|done]. apply step_dial.
  - intros A c q k IH s ins r t s' ins' He. simpl in He.
    destruct ins as [|[| |x] ins]; try done.
    destruct (exec (k x) s ins) as [[[[a' t'] s2] ins2]|] eqn:E; [|done].
    simpl in He. injection He as <- <- <- <-.
    destruct (IH _ _ _ _ _ _ _ E) as [Hr Hc]. split; [|done].
    eapply returns_intro; [|done]. apply step_call.
  - intros A i k IH s ins r t s' ins' He. simpl in He.
    destruct (Server.regLock s !! i) as [[|]|] eqn:El; try done.
    destruct (exec k _ ins) as [[[[a' t'] s2] ins2]|] eqn:E; [|done].
    simpl in He. injection He as <- <- <- <-.
    destruct (IH _ _ _ _ _ _ E) as [Hr Hc]. split; [|done].
    eapply returns_intro; [|done]. by apply step_lock.
  - intros A i k IH s ins r t s' ins' He. simpl in He.
    destruct (Server.regLock s !! i) as [[|]|] eqn:El; try done.
    destruct (exec k _ ins) as [[[[a' t'] s2] ins2]|] eqn:E; [|done].
    simpl in He. injection He as <- <- <- <-.
    destruct (IH _ _ _ _ _ _ E) as [Hr Hc]. split; [|done].
    eapply returns_intro; [|done]. by apply step_unlock.
  - intros A g k _ IH s ins r t s' ins' He. simpl in He.
    destruct (exec k s ins) as [[[[a' t'] s2] ins2]|] eqn:E; [|done].
    simpl in He. injection He as <- <- <- <-.
    destruct (IH _ _ _ _ _ _ E) as [Hr Hc]. split; [|done].
    destruct Hr as [sp Hr]. eexists. econstructor; [apply step_go|exact Hr].
  - intros A B ps k IHps IH s ins r t s' ins' He. simpl in He.
    destruct (exec_all _ ps s ins) as [[[[rs t1] s1] ins1]|] eqn:E1; [|done].
    simpl in He.
    destruct (exec (k rs) s1 ins1) as [[[[a' t2] s2] ins2]|] eqn:E2; [|done].
    simpl in He. injection He as <- <- <- <-.
    destruct (exec_all_sound ps IHps _ _ _ _ _ _ E1) as (tss & HF3 & -> & Hc1).
    destruct (IH rs _ _ _ _ _ _ E2) as [Hr2 Hc2].
    split; [eapply returns_Par_seq; eauto|].
    eapply chained_eq_app; [done|]. simpl. done.
Qed.

End ExecSound.

(** ** Small facts about Go data *)

Lemma bind_Ok {A B} (r : Result A) (f : A -> Result B) b :
  bind r f = Ok b -> exists a, r = Ok a /\ f a = Ok b.
Proof. destruct r as [a|m]; [|done]. intros Hf. by exists a. Qed.

Lemma at_index_Ok {A} (l : list A) i a :
  at_index l i = Ok a -> index l i = Some a.
Proof. unfold at_index. destruct (index l i); [|done]. by intros [= ->]. Qed.

Lemma index_Some {A} (l : list A) i a :
  index l i = Some a <-> 0 <= i /\ l !! Z.to_nat i = Some a.
Proof.
  unfold index. destruct (decide (0 <= i)); split; intros Hi;
    try tauto; try discriminate; destruct Hi; tauto.
Qed.

Lemma index_lt {A} (l : list A) i :
  0 <= i < len l -> exists a, index l i = Some a.
Proof.
  intros [H0 H1]. unfold index, len in *.
  destruct (decide (0 <= i)); [|lia].
  destruct (lookup_lt_is_Some_2 l (Z.to_nat i)) as [a Ha]; [lia|eauto].
Qed.

Lemma index_nil {A} i : index (@nil A) i = None.
Proof. unfold index. destruct (decide (0 <= i)); reflexivity. Qed.

Lemma index_of_nat {A} (l : list A) (n : nat) : index l (Z.of_nat n) = l !! n.
Proof.
  unfold index. destruct (decide (0 <= Z.of_nat n)); [|lia].
  by rewrite Nat2Z.id.
Qed.

Lemma index_range {A} (l : list A) i a : index l i = Some a -> 0 <= i < len l.
Proof.
  intros [H0 H1]%index_Some. apply lookup_lt_Some in H1. unfold len. lia.
Qed.

Lemma store_Ok {A} (l l' : list A) i a :
  store l i a = Ok l' ->
  0 <= i < len l /\ l' = <[Z.to_nat i := a]> l.
Proof.
  unfold store. destruct (index l i) eqn:E; [|discriminate].
  intros [= <-]. split; [eapply index_range; eauto|reflexivity].
Qed.

Lemma store_index {A} (l l' : list A) i a :
  store l i a = Ok l' -> index l' i = Some a.
Proof.
  intros [Hr ->]%store_Ok. apply index_Some. split; [lia|].
  apply list_lookup_insert_eq. unfold len in Hr. lia.
Qed.

Lemma store_in_range {A} (l : list A) i a :
  0 <= i < len l -> store l i a = Ok (<[Z.to_nat i := a]> l).
Proof. intros Hr. unfold store. by destruct (index_lt l i Hr) as [x ->]. Qed.

Lemma store_nil {A} i (a : A) : store [] i a = Err index_out_of_range.
Proof. unfold store. by rewrite index_nil. Qed.

Lemma length_upto n : length (upto n) = Z.to_nat n.
Proof. unfold upto. by rewrite length_map, length_seq. Qed.

Lemma lookup_upto n (i : nat) :
  (i < Z.to_nat n)%nat -> upto n !! i = Some (Z.of_nat i).
Proof.
  intros Hi. unfold upto. rewrite list_lookup_fmap, lookup_seq_lt by done.
  reflexivity.
Qed.

Lemma lookup_upto_Some n (i : nat) x :
  upto n !! i = Some x -> x = Z.of_nat i /\ (i < Z.to_nat n)%nat.
Proof.
  intros Hx. assert (i < Z.to_nat n)%nat as Hlt.
  { apply lookup_lt_Some in Hx. by rewrite length_upto in Hx. }
  rewrite lookup_upto in Hx by done. split; congruence.
Qed.

Lemma length_zeros n : length (zeros n) = n.
Proof. apply repeat_length. Qed.

Lemma zeros_all_zero n : Forall (eq 0) (zeros n).
Proof. apply Forall_forall. intros x Hx%list_elem_of_In. by apply repeat_spec in Hx. Qed.

(** ** ShareSecret *)
Section ShareSecretProps.
Context `{L : Lib}.

(** C3. When [ShareSecret(clientDH, serverPub)] returns, it has run its
    three statements: it drew a fresh scalar [e] from the random stream,
    stored the marshalled shared point [clientPub·e] in
    [secrets[clientDH.Id]], and overwrote that slot with [SecretSize] zero
    bytes, which is what the slot holds afterwards; the [serverPub] it
    returns is the marshalled point [g·e].  The rest of the process is
    only assumed not to write [secrets] meanwhile. *)
Theorem ShareSecret_stores_zeros (R : Server.t -> Server.t -> Prop)
    (clientDH : ClientDH.t) t serverPub s s' :
  (forall a b, R a b -> Server.secrets b = Server.secrets a) ->
  returns (ShareSecret clientDH) t serverPub ->
  chained R s t s' ->
  exists s1 s2 s2' s3 s3',
    let e := (Secret_Pick s1.(Server.rand)).1 in
    let clientPub := UnmarshalPoint clientDH.(ClientDH.Public) in
    t = [EvAct "secret := s.g.Secret().Pick(s.rand)" s1
           (Server.set_rand (Secret_Pick s1.(Server.rand)).2 s1);
         EvAct "s.secrets[clientDH.Id] = MarshalPoint(shared)" s2 s2';
         EvAct "s.secrets[clientDH.Id] = make([]byte, SecretSize)" s3 s3'] /\
    index s2'.(Server.secrets) clientDH.(ClientDH.Id) =
      Some (MarshalPoint (Point_Mul clientPub e)) /\
    Server.secrets s3 = Server.secrets s2' /\
    index s'.(Server.secrets) clientDH.(ClientDH.Id) = Some (zeros SecretSize) /\
    serverPub = MarshalPoint (Point_Mul Point_Base e).
Proof.
  intros HR Hr Hc. unfold ShareSecret, shareSecret in Hr.
  run1 Hr. run1 Hr. run1 Hr. run1 Hr. subst.
  repeat match goal with
  | Hb : bind _ _ = Ok _ |- _ => apply bind_Ok in Hb as (? & ? & [= <-])
  | Hb : Ok _ = Ok _ |- _ => injection Hb as <-
  end.
  simpl in Hc. destruct Hc as (Hc1 & Hc2 & Hc3 & Hc4).
  do 5 eexists. cbv zeta. split; [reflexivity|].
  cbn [Server.secrets Server.set_secrets Server.set_rand] in *.
  split; [eapply store_index; eauto|].
  split; [by rewrite (HR _ _ Hc3)|].
  split; [|reflexivity].
  rewrite (HR _ _ Hc4). cbn. eapply store_index; eauto.
Qed.

End ShareSecretProps.

(** A run of [ShareSecret] on the registered toy server, for client 1. *)
Lemma ShareSecret_stores_zeros_witness :
  exists t serverPub s',
    exec (@ShareSecret toy_suite toy_lib (ClientDH.mk [5] 1)) toy_registered []
      = Some (serverPub, t, s', []) /\
    index s'.(Server.secrets) 1 = Some [0; 0] /\
    serverPub = [22].
Proof.
  destruct (exec (@ShareSecret toy_suite toy_lib (ClientDH.mk [5] 1))
              toy_registered []) as [[[[pub t] s'] ins]|] eqn:E;
    [|vm_compute in E; discriminate].
  assert (ins = []) as -> by (vm_compute in E; congruence).
  exists t, pub, s'. split; [reflexivity|].
  destruct (exec_sound _ _ _ _ _ _ _ E) as [Hr Hc].
  destruct (@ShareSecret_stores_zeros toy_suite toy_lib eq (ClientDH.mk [5] 1)
              t pub toy_registered s' ltac:(by intros ? ? ->) Hr Hc)
    as (s1 & s2 & s2' & s3 & s3' & Ht & _ & _ & Hz & Hp).
  split; [exact Hz|].
  rewrite Hp. rewrite Ht in Hc. simpl in Hc. destruct Hc as [<- _].
  reflexivity.
Defined.

(** ** Frames *)
Section FrameLemmas.
Context `{Suite}.

Lemma keeps_Par_inv P {A B} (ps : list (prog B)) (k : list B -> prog A) :
  keeps P (Par ps k) -> Forall (keeps P) ps /\ forall rs, keeps P (k rs).
Proof. intros Hk. invert Hk. done. Qed.

Lemma keeps_step P {A} (p q : prog A) e sp :
  step p e q sp ->
  keeps P p ->
  event_keeps P e /\ keeps P q /\ Forall (keeps P) sp.
Proof.
  induction 1 as
    [A l f k a b Hf|A l f k a m Hf|A c k m|A c m k|A addr k r|A client req k r
    |A i k a Hl|A i k a Hl|A i k a Hl|A g k
    |A B ps k i p e p' sp Hp Hs IH|A B rs k|A B ps k m Hin];
    intros Hk.
  - invert Hk. split; [right; auto|]. split; [auto|constructor].
  - split; [by left|]. split; constructor.
  - invert Hk. split; [done|]. split; [auto|constructor].
  - invert Hk. split; [done|]. split; [auto|constructor].
  - invert Hk. split; [done|]. split; [auto|constructor].
  - invert Hk. split; [done|]. split; [auto|constructor].
  - invert Hk. split; [right; auto|]. split; [auto|constructor].
  - invert Hk. split; [right; auto|]. split; [auto|constructor].
  - split; [by left|]. split; constructor.
  - invert Hk. split; [done|]. split; [auto|]. by constructor.
  - apply keeps_Par_inv in Hk as [Hps Hk].
    destruct IH as (He & Hp' & Hsp).
    { eapply Forall_lookup_1; eauto. }
    split; [done|]. split; [|done].
    constructor; [|done]. by apply Forall_insert.
  - apply keeps_Par_inv in Hk as [Hps Hk]. split; [done|]. split; [auto|constructor].
  - split; [done|]. split; constructor.
Qed.

Lemma keeps_steps P {A} (p q : prog A) t sp :
  steps p t q sp ->
  keeps P p ->
  Forall (event_keeps P) t /\ keeps P q /\ Forall (keeps P) sp.
Proof.
  induction 1 as [|p e p1 sp1 t p2 sp2 Hs Hss IH]; intros Hk.
  - split; [constructor|]. split; [done|constructor].
  - destruct (keeps_step P _ _ _ _ Hs Hk) as (He & Hk1 & Hsp1).
    destruct (IH Hk1) as (Ht & Hk2 & Hsp2).
    split; [by constructor|]. split; [done|]. by apply Forall_app.
Qed.

(** A field that neither the program nor the rest of the process changes
    is the same at the end of the run. *)
Lemma chained_field {X} (f : Server.t -> X) (R P : Server.t -> Server.t -> Prop) t s s' :
  (forall a b, R a b -> f b = f a) ->
  (forall a b, P a b -> f b = f a) ->
  Forall (event_keeps P) t ->
  chained R s t s' ->
  f s' = f s.
Proof.
  intros HR HP Ht. revert s.
  induction Ht as [|e t He Ht IH]; intros s Hc; simpl in Hc; [by apply HR|].
  destruct e; simpl in He; try (by apply IH);
    destruct Hc as [Hsa Hc]; rewrite (IH _ Hc);
    (destruct He as [->|Hab]; [|rewrite (HP _ _ Hab)]); by apply HR.
Qed.

Lemma keeps_bind P {A B} (p : prog A) (f : A -> prog B) :
  keeps P p -> (forall a, keeps P (f a)) -> keeps P (pbind p f).
Proof.
  revert B f. revert A p.
  apply (prog_induction (fun A p => forall B (f : A -> prog B),
           keeps P p -> (forall a, keeps P (f a)) -> keeps P (pbind p f)));
    intros; simpl;
    try match goal with
    | Hk : keeps _ (Par _ _) |- _ => apply keeps_Par_inv in Hk as [? ?]
    | Hk : keeps _ _ |- _ => invert Hk
    end;
    try (constructor; eauto; fail).
  auto.
Qed.

Lemma keeps_weaken (P Q : Server.t -> Server.t -> Prop) {A} (p : prog A) :
  (forall a b, P a b -> Q a b) -> keeps P p -> keeps Q p.
Proof.
  intros HPQ. revert A p.
  apply (prog_induction (fun A p => keeps P p -> keeps Q p));
    intros;
    try match goal with
    | Hk : keeps _ (Par _ _) |- _ => apply keeps_Par_inv in Hk as [? ?]
    | Hk : keeps _ _ |- _ => invert Hk
    end;
    try (constructor; eauto; fail).
  constructor; [|eauto].
  match goal with
  | HF : Forall (fun p => keeps P p -> keeps Q p) ?ps, HP : Forall (keeps P) ?ps |- _ =>
      clear - HF HP; induction HF; invert HP; constructor; auto
  end.
Qed.

Lemma keeps_Par_map P {A B X} (f : X -> prog B) (xs : list X) (k : list B -> prog A) :
  (forall x, keeps P (f x)) -> (forall rs, keeps P (k rs)) ->
  keeps P (Par (map f xs) k).
Proof.
  intros Hf Hk. constructor; [|done].
  apply Forall_forall. intros p Hp%list_elem_of_In.
  apply in_map_iff in Hp as (x & <- & _). apply Hf.
Qed.

Lemma keeps_Par_imap P {A B X} (f : nat -> X -> prog B) (xs : list X)
    (k : list B -> prog A) :
  (forall i x, keeps P (f i x)) -> (forall rs, keeps P (k rs)) ->
  keeps P (Par (imap f xs) k).
Proof.
  intros Hf Hk. constructor; [|done].
  apply Forall_forall. intros p Hp.
  apply list_elem_of_lookup in Hp as [i Hp].
  rewrite list_lookup_imap in Hp.
  destruct (xs !! i); simplify_eq/=. apply Hf.
Qed.

End FrameLemmas.

Ltac frame_side :=
  let Hf := fresh "Hf" in
  intros ? ? Hf; expose;
  repeat match type of Hf with
  | bind _ _ = Ok _ => apply bind_Ok in Hf as (? & ? & Hf)
  | (if ?c then _ else _) = Ok _ => destruct c
  | match ?c with _ => _ end = Ok _ => destruct c eqn:?
  end;
  try discriminate;
  try (injection Hf as <-);
  try (repeat split; done).

Ltac frame_step :=
  lazymatch goal with
  | |- keeps _ (Ret _) => apply keeps_Ret
  | |- keeps _ (Crash _) => apply keeps_Crash
  | |- keeps _ (Act _ _ _) => apply keeps_Act; [frame_side|intros ?]
  | |- keeps _ (Recv _ _) => apply keeps_Recv; intros ?
  | |- keeps _ (Send _ _ _) => apply keeps_Send
  | |- keeps _ (Dial _ _) => apply keeps_Dial; intros ?
  | |- keeps _ (Call _ _ _) => apply keeps_Call; intros ?
  | |- keeps _ (Lock _ _) => apply keeps_Lock; [intros ?; repeat split; done|]
  | |- keeps _ (Unlock _ _) => apply keeps_Unlock; [intros ?; repeat split; done|]
  | |- keeps _ (Go _ _) => apply keeps_Go
  | |- keeps _ (Par (map _ _) _) => apply keeps_Par_map; [intros ?|intros ?]
  | |- keeps _ (Par (imap _ _) _) => apply keeps_Par_imap; [intros ? ?|intros ?]
  | |- keeps _ (if ?c then _ else _) => destruct c
  | |- keeps _ (match ?c with _ => _ end) => destruct c
  | |- keeps _ (pbind (if ?c then _ else _) _) => destruct c
  | |- keeps _ (pbind (match ?c with _ => _ end) _) => destruct c
  | |- keeps _ (pbind (pbind _ _) _) => apply keeps_bind; [|intros ?]
  | |- keeps _ (pbind _ _) =>
      apply keeps_bind; [solve [eauto with frames]|intros ?]
  end.

Create HintDb frames.

Ltac frame := expose; repeat (frame_step; expose); eauto with frames.

Section OperationFrames.
Context `{L : Lib}.

Lemma keeps_signal rdy i : keeps quiet (signal rdy i).
Proof. unfold signal. frame. Qed.
#[local] Hint Resolve keeps_signal : frames.

Lemma keeps_notify rdy ixs : keeps quiet (notify rdy ixs).
Proof. induction ixs as [|i ixs IH]; simpl; frame. Qed.
#[local] Hint Resolve keeps_notify : frames.

Lemma keeps_notify_hosted rdy : keeps quiet (notify_hosted rdy).
Proof. unfold notify_hosted. frame. Qed.
#[local] Hint Resolve keeps_notify_hosted : frames.

Lemma keeps_dial_servers ixs acc : keeps quiet (dial_servers ixs acc).
Proof. revert acc. induction ixs as [|i ixs IH]; intros acc; simpl; frame. Qed.

Lemma keeps_call_each cls req fatal : keeps quiet (call_each cls req fatal).
Proof. induction cls as [|c cls IH]; simpl; frame. Qed.
#[local] Hint Resolve keeps_call_each : frames.

Lemma keeps_gather n acc : keeps quiet (gather n acc).
Proof. revert acc. induction n as [|n IH]; intros acc; simpl; frame. Qed.

Lemma keeps_respond allBlocks i sid : keeps quiet (respond allBlocks i sid).
Proof. unfold respond. frame. Qed.
#[local] Hint Resolve keeps_respond : frames.

Lemma keeps_respond_all allBlocks ixs : keeps quiet (respond_all allBlocks ixs).
Proof. induction ixs as [|i ixs IH]; simpl; frame. Qed.

#[local] Hint Resolve keeps_dial_servers keeps_gather keeps_respond_all : frames.

Lemma keeps_ConnectServers : keeps quiet ConnectServers.
Proof. unfold ConnectServers. frame. Qed.

Lemma keeps_handleRequest : keeps quiet handleRequest.
Proof. unfold handleRequest, request_share. frame. Qed.

Lemma keeps_handleResponse : keeps quiet handleResponse.
Proof. unfold handleResponse. frame. Qed.

Lemma keeps_handleUpload : keeps quiet handleUpload.
Proof. unfold handleUpload. frame. Qed.

Lemma keeps_gatherUploads : keeps quiet gatherUploads.
Proof. unfold gatherUploads. frame. Qed.

Lemma keeps_shuffle_chunk pi pk Xs Ys i : keeps quiet (shuffle_chunk pi pk Xs Ys i).
Proof. unfold shuffle_chunk. frame. Qed.
#[local] Hint Resolve keeps_shuffle_chunk : frames.

Lemma keeps_shuffle Xs Ys numChunks : keeps quiet (shuffle Xs Ys numChunks).
Proof. unfold shuffle. frame. Qed.
#[local] Hint Resolve keeps_shuffle : frames.

Lemma keeps_shuffleUploads : keeps quiet shuffleUploads.
Proof. unfold shuffleUploads, shuffle_and_hand_off. frame. Qed.

Lemma keeps_RegisterDone : keeps quiet RegisterDone.
Proof. unfold RegisterDone. frame. Qed.

Lemma keeps_Register client : keeps quiet (Register client).
Proof. unfold Register, RegisterDone. frame. Qed.

Lemma keeps_Register2 client : keeps quiet (Register2 client).
Proof. unfold Register2. frame. Qed.

Lemma keeps_RequestBlock cr : keeps quiet (RequestBlock cr).
Proof. unfold RequestBlock. frame. Qed.

Lemma keeps_GetResponse cmask : keeps quiet (GetResponse cmask).
Proof. unfold GetResponse, other_block. frame. Qed.

Lemma keeps_PutUploadedBlocks blocks : keeps quiet (PutUploadedBlocks blocks).
Proof. unfold PutUploadedBlocks. frame. Qed.

Lemma keeps_GetNumClients : keeps quiet (GetNumClients).
Proof. unfold GetNumClients. frame. Qed.

Lemma keeps_GetPK : keeps quiet (GetPK).
Proof. unfold GetPK. frame. Qed.

Lemma keeps_ShareRequest cr : keeps quiet (ShareRequest cr).
Proof. unfold ShareRequest. frame. Qed.

Lemma keeps_GetReqHashes id : keeps quiet (GetReqHashes id).
Proof. unfold GetReqHashes. frame. Qed.

Lemma keeps_UploadBlock block : keeps quiet (UploadBlock block).
Proof. unfold UploadBlock. frame. Qed.

Lemma keeps_UploadBlock2 block : keeps quiet (UploadBlock2 block).
Proof. unfold UploadBlock2. frame. Qed.

Lemma keeps_ShuffleBlocks blocks : keeps quiet (ShuffleBlocks blocks).
Proof. unfold ShuffleBlocks. frame. Qed.

Lemma keeps_GetUpHashes id : keeps quiet (GetUpHashes id).
Proof. unfold GetUpHashes. frame. Qed.

Lemma keeps_PutClientBlock cblock : keeps quiet (PutClientBlock cblock).
Proof. unfold PutClientBlock. frame. Qed.

Lemma keeps_Masks : keeps quiet (Masks).
Proof. unfold Masks. frame. Qed.

Lemma keeps_Secrets : keeps quiet (Secrets).
Proof. unfold Secrets. frame. Qed.

#[local] Hint Resolve keeps_ConnectServers keeps_handleRequest
  keeps_handleResponse keeps_handleUpload keeps_gatherUploads
  keeps_shuffleUploads keeps_RegisterDone keeps_Register keeps_Register2
  keeps_RequestBlock keeps_GetResponse keeps_PutUploadedBlocks
  keeps_GetNumClients keeps_GetPK keeps_ShareRequest keeps_GetReqHashes
  keeps_UploadBlock keeps_UploadBlock2 keeps_ShuffleBlocks keeps_GetUpHashes
  keeps_PutClientBlock keeps_Masks keeps_Secrets : frames.

(** Every operation but [RegisterDone2], [ShareMask] and [ShareSecret]
    leaves the masks and the secrets alone. *)
Lemma keeps_operation o :
  (forall n, o <> OpServe (Server_RegisterDone2 n)) ->
  (forall dh, o <> OpServe (Server_ShareMask dh)) ->
  (forall dh, o <> OpServe (Server_ShareSecret dh)) ->
  keeps quiet (run_operation o).
Proof.
  intros H1 H2 H3. destruct o as [req| | | | | | | | |]; cbn [run_operation];
    [destruct req; cbn [serve];
       try (exfalso; first [by eapply H1|by eapply H2|by eapply H3])|..];
    first [solve [eauto with frames]|frame].
Qed.

(** [ShareMask] writes one mask; [ShareSecret] one secret, twice. *)
Lemma keeps_ShareMask clientDH :
  keeps (fun a b => Server.secrets b = Server.secrets a /\
                    length (Server.masks b) = length (Server.masks a))
    (ShareMask clientDH).
Proof.
  unfold ShareMask, shareSecret. expose.
  apply keeps_Act; [by intros a b [= <-]|intros s].
  apply keeps_Act; [|intros; constructor].
  intros a b (masks & [_ ->]%store_Ok & [= <-])%bind_Ok.
  split; [done|]. cbn. by rewrite length_insert.
Qed.

Lemma keeps_ShareSecret clientDH :
  keeps (fun a b => Server.masks b = Server.masks a /\
                    length (Server.secrets b) = length (Server.secrets a))
    (ShareSecret clientDH).
Proof.
  unfold ShareSecret, shareSecret. expose.
  apply keeps_Act; [by intros a b [= <-]|intros s].
  apply keeps_Act; [|intros s2; apply keeps_Act; [|intros; constructor]].
  - intros a b (secrets & [_ ->]%store_Ok & [= <-])%bind_Ok.
    split; [done|]. cbn. by rewrite length_insert.
  - intros a b (secrets & [_ ->]%store_Ok & [= <-])%bind_Ok.
    split; [done|]. cbn. by rewrite length_insert.
Qed.

(** Every operation but [RegisterDone2] leaves the two slices as long as
    they are. *)
Lemma keeps_lengths o :
  (forall n, o <> OpServe (Server_RegisterDone2 n)) ->
  keeps same_lengths (run_operation o).
Proof.
  intros H1.
  destruct o as [req| | | | | | | | |]; [destruct req|..];
    first
    [ eapply keeps_weaken;
        [|apply keeps_operation; intros; discriminate];
        intros a b [Hs Hm]; split; congruence
    | by exfalso; eapply H1
    | cbn [run_operation serve]; unfold mbind, prog_bind;
      apply keeps_bind; [|intros; constructor];
      eapply keeps_weaken; [|first [apply keeps_ShareMask|apply keeps_ShareSecret]];
      intros a b [Hm Hs]; split; congruence ].
Qed.

End OperationFrames.

(** ** Sequencing *)
Section Sequencing.
Context `{Suite}.

Lemma step_bind_inv {A B} (p : prog A) (k : A -> prog B) e q sp :
  step (pbind p k) e q sp ->
  (exists p', step p e p' sp /\ q = pbind p' k) \/
  (exists a, p = Ret a /\ step (k a) e q sp).
Proof.
  destruct p; simpl; intros Hs; try (right; eexists; split; [reflexivity|done]);
    try (invert Hs; left; eexists; split; [econstructor; eauto|reflexivity]; fail).
  - invert Hs.
  - invert Hs.
    + left. eexists. split; [by apply step_act|done].
    + left. eexists. split; [by apply step_panic|done].
  - invert Hs.
    + left. eexists. split; [by apply step_unlock|done].
    + left. eexists. split; [by apply step_unlock_free|done].
  - invert Hs.
    + left. eexists. split; [eapply step_child; eauto|done].
    + left. eexists. split; [apply step_wait|done].
    + left. eexists. split; [by apply step_child_crash|done].
Qed.

Lemma steps_bind_inv {A B} (p : prog A) (k : A -> prog B) t q sp :
  steps (pbind p k) t q sp ->
  (exists p', steps p t p' sp /\ q = pbind p' k) \/
  (exists a t1 t2 sp1 sp2, t = t1 ++ t2 /\ steps p t1 (Ret a) sp1 /\
     steps (k a) t2 q sp2).
Proof.
  intros Hs. remember (pbind p k) as p0 eqn:E. revert p E.
  induction Hs as [|p0 e p1 sp1 t p2 sp2 Hs Hss IH]; intros p' ->.
  { left. eexists. split; [constructor|done]. }
  apply step_bind_inv in Hs as [(p1' & Hs & ->)|(a & -> & Hs)].
  - destruct (IH _ eq_refl) as
      [(p'' & Hss' & ->)|(a & t1 & t2 & sp3 & sp4 & -> & H1 & H2)].
    + left. eexists. split; [econstructor; eauto|done].
    + right. exists a, (e :: t1), t2, (sp1 ++ sp3), sp4.
      split; [done|]. split; [econstructor; eauto|done].
  - right. exists a, [], (e :: t), [], (sp1 ++ sp2).
    split; [done|]. split; [constructor|]. simpl. econstructor; eauto.
Qed.

Lemma returns_bind_inv {A B} (p : prog A) (k : A -> prog B) t r :
  returns (pbind p k) t r ->
  exists a t1 t2, t = t1 ++ t2 /\ returns p t1 a /\ returns (k a) t2 r.
Proof.
  intros [sp [(p' & Hp & Hq)|(a & t1 & t2 & sp1 & sp2 & -> & H1 & H2)]%steps_bind_inv].
  - destruct p'; simpl in Hq; try discriminate.
    exists a, t, []. rewrite app_nil_r. split; [done|]. split; [by exists sp|].
    rewrite <- Hq. eexists. constructor.
  - exists a, t1, t2. split; [done|]. split; [by exists sp1|by exists sp2].
Qed.

Lemma chained_app_inv (R : Server.t -> Server.t -> Prop) s t1 t2 s' :
  (forall a, R a a) ->
  chained R s (t1 ++ t2) s' ->
  exists s1, chained R s t1 s1 /\ chained R s1 t2 s'.
Proof.
  intros Hrefl. revert s. induction t1 as [|e t1 IH]; intros s Hc; simpl in *.
  - exists s. split; [apply Hrefl|done].
  - destruct e; try (destruct Hc as [Hsa Hc]);
      destruct (IH _ Hc) as (s1 & H1 & H2); exists s1; auto.
Qed.

End Sequencing.

(** ** Registration: the masks and secrets slices *)
Section Slices.
Context `{L : Lib}.

Lemma make_len_Ok n k : make_len n = Ok k -> 0 <= n /\ k = Z.to_nat n.
Proof. unfold make_len. destruct (decide (n < 0)); [done|]. intros [= <-]. lia. Qed.

Lemma RegisterDone2_body_Ok numClients s s' :
  RegisterDone2_body numClients s = Ok s' ->
  0 <= numClients /\
  Server.masks s' = replicate (Z.to_nat numClients) (zeros SecretSize) /\
  Server.secrets s' = replicate (Z.to_nat numClients) (zeros SecretSize) /\
  Server.totalClients s' = numClients /\
  Server.regDone s' = true.
Proof.
  unfold RegisterDone2_body. intros Hb. expose.
  apply bind_Ok in Hb as (s1 & Hfold & Hb).
  apply bind_Ok in Hb as (n & [Hn ->]%make_len_Ok & Hb).
  cbv beta iota zeta delta [make_chans] in Hb.
  injection Hb as <-. cbn. split; [done|]. split; [done|]. split; [done|].
  split; [|done].
  clear -Hfold. revert Hfold.
  generalize (upto (len (Server.servers (Server.set_totalClients numClients s)))).
  assert (Server.totalClients (Server.set_totalClients numClients s) = numClients)
    as Hinit by done.
  revert Hinit. generalize (Server.set_totalClients numClients s). intros s0 Hs0 ixs.
  revert s0 Hs0. induction ixs as [|i ixs IH]; intros s0 Hs0; simpl.
  - by intros [= <-].
  - destruct (store (Server.xorsChan s0) i _) as [x|m] eqn:E; simpl.
    + apply IH. done.
    + clear. induction ixs as [|j ixs IH]; simpl; [done|apply IH].
Qed.

Lemma NewServer_slices addr port id servers key :
  Server.masks (NewServer addr port id servers key) = [] /\
  Server.secrets (NewServer addr port id servers key) = [].
Proof. unfold NewServer. by destruct (Secret_Pick key). Qed.

Lemma before_RegisterDone2_nil s :
  before_RegisterDone2 s -> Server.masks s = [] /\ Server.secrets s = [].
Proof.
  induction 1 as [|s o t q sp s' Hb [IHm IHs] Ho Hs Hc]; [apply NewServer_slices|].
  destruct (keeps_steps same_lengths _ _ _ _ Hs (keeps_lengths o Ho)) as (Ht & _ & _).
  pose proof (chained_field (fun s => length (Server.masks s)) same_lengths
                same_lengths t s s' ltac:(by intros ? ? [? ?])
                ltac:(by intros ? ? [? ?]) Ht Hc) as Hm.
  pose proof (chained_field (fun s => length (Server.secrets s)) same_lengths
                same_lengths t s s' ltac:(by intros ? ? [? ?])
                ltac:(by intros ? ? [? ?]) Ht Hc) as Hs'.
  simpl in Hm, Hs'. rewrite IHm in Hm. rewrite IHs in Hs'.
  split; by apply nil_length_inv.
Qed.

Lemma ShareMask_faults R clientDH s :
  (forall a, R a a) ->
  (forall a b, R a b -> same_lengths a b) ->
  Server.masks s = [] ->
  faults R (ShareMask clientDH) s.
Proof.
  intros Hrefl HR Hnil. split.
  - intros t q sp s' Hs Hc. unfold ShareMask, shareSecret in Hs. expose.
    apply steps_Act_inv in Hs as
      [(-> & ->)|[(a & m & -> & [=] & ->)|(a & b & t' & -> & [= <-] & Hs)]];
      [done|].
    destruct Hc as [Hsa Hc].
    apply steps_Act_inv in Hs as
      [(-> & ->)|[(a2 & m & -> & Hf & ->)|(a2 & b2 & t'' & -> & Hf & Hs)]];
      [done| |].
    + split; [done|]. intros m' [= <-].
      apply HR in Hsa as [Hsa _]. destruct Hc as [[Hc _]%HR _].
      cbn in Hc. rewrite Hsa, Hnil in Hc. apply nil_length_inv in Hc.
      rewrite Hc, store_nil in Hf. simpl in Hf. congruence.
    + exfalso. apply bind_Ok in Hf as (l & [Hr _]%store_Ok & _).
      apply HR in Hsa as [Hsa _]. destruct Hc as [[Hc _]%HR _].
      cbn in Hc. rewrite Hsa, Hnil in Hc. unfold len in Hr. simpl in Hc. lia.
  - unfold ShareMask, shareSecret. expose.
    set (s1 := Server.set_rand (Secret_Pick (Server.rand s)).2 s).
    eexists [EvAct _ s s1; EvAct _ s1 s1], _, s1. split.
    + eapply steps_cons; [by apply step_act|].
      eapply steps_cons; [|apply steps_nil].
      apply step_panic. cbn. by rewrite Hnil, store_nil.
    + simpl. auto.
Qed.

Lemma ShareSecret_faults R clientDH s :
  (forall a, R a a) ->
  (forall a b, R a b -> same_lengths a b) ->
  Server.secrets s = [] ->
  faults R (ShareSecret clientDH) s.
Proof.
  intros Hrefl HR Hnil. split.
  - intros t q sp s' Hs Hc. unfold ShareSecret, shareSecret in Hs. expose.
    apply steps_Act_inv in Hs as
      [(-> & ->)|[(a & m & -> & [=] & ->)|(a & b & t' & -> & [= <-] & Hs)]];
      [done|].
    destruct Hc as [Hsa Hc].
    apply steps_Act_inv in Hs as
      [(-> & ->)|[(a2 & m & -> & Hf & ->)|(a2 & b2 & t'' & -> & Hf & Hs)]];
      [done| |].
    + split; [done|]. intros m' [= <-].
      apply HR in Hsa as [_ Hsa]. destruct Hc as [[_ Hc]%HR _].
      cbn in Hc. rewrite Hsa, Hnil in Hc. apply nil_length_inv in Hc.
      rewrite Hc, store_nil in Hf. simpl in Hf. congruence.
    + exfalso. apply bind_Ok in Hf as (l & [Hr _]%store_Ok & _).
      apply HR in Hsa as [_ Hsa]. destruct Hc as [[_ Hc]%HR _].
      cbn in Hc. rewrite Hsa, Hnil in Hc. unfold len in Hr. simpl in Hc. lia.
  - unfold ShareSecret, shareSecret. expose.
    set (s1 := Server.set_rand (Secret_Pick (Server.rand s)).2 s).
    eexists [EvAct _ s s1; EvAct _ s1 s1], _, s1. split.
    + eapply steps_cons; [by apply step_act|].
      eapply steps_cons; [|apply steps_nil].
      apply step_panic. cbn. by rewrite Hnil, store_nil.
    + simpl. auto.
Qed.

Lemma ShareMask_completes R clientDH s :
  (forall a, R a a) ->
  (forall a b, R a b -> same_lengths a b) ->
  0 <= clientDH.(ClientDH.Id) < len (Server.masks s) ->
  completes R (ShareMask clientDH) s.
Proof.
  intros Hrefl HR Hin. split.
  - intros t q sp s' Hs Hc. unfold ShareMask, shareSecret in Hs. expose.
    apply steps_Act_inv in Hs as
      [(-> & ->)|[(a & m & -> & [=] & ->)|(a & b & t' & -> & [= <-] & Hs)]];
      [done|].
    destruct Hc as [Hsa Hc].
    apply steps_Act_inv in Hs as
      [(-> & ->)|[(a2 & m & -> & Hf & ->)|(a2 & b2 & t'' & -> & Hf & Hs)]];
      [done| |].
    + exfalso. apply HR in Hsa as [Hsa _]. destruct Hc as [[Hc _]%HR _].
      cbn in Hc. rewrite store_in_range in Hf; [done|].
      unfold len in *. lia.
    + apply steps_Ret_inv in Hs as (_ & -> & _). done.
  - unfold ShareMask, shareSecret. expose.
    set (s1 := Server.set_rand (Secret_Pick (Server.rand s)).2 s).
    eexists [EvAct _ s s1; EvAct _ s1 _], _, _. split.
    + eexists. eapply steps_cons; [by apply step_act|].
      eapply steps_cons; [apply step_act; cbn; by rewrite store_in_range|].
      apply steps_nil.
    + simpl. auto.
Qed.

Lemma ShareSecret_completes R clientDH s :
  (forall a, R a a) ->
  (forall a b, R a b -> same_lengths a b) ->
  0 <= clientDH.(ClientDH.Id) < len (Server.secrets s) ->
  completes R (ShareSecret clientDH) s.
Proof.
  intros Hrefl HR Hin. split.
  - intros t q sp s' Hs Hc. unfold ShareSecret, shareSecret in Hs. expose.
    apply steps_Act_inv in Hs as
      [(-> & ->)|[(a & m & -> & [=] & ->)|(a & b & t' & -> & [= <-] & Hs)]];
      [done|].
    destruct Hc as [Hsa Hc].
    apply steps_Act_inv in Hs as
      [(-> & ->)|[(a2 & m & -> & Hf & ->)|(a2 & b2 & t'' & -> & Hf & Hs)]];
      [done| |].
    + exfalso. apply HR in Hsa as [_ Hsa]. destruct Hc as [[_ Hc]%HR _].
      cbn in Hc. rewrite store_in_range in Hf; [done|].
      unfold len in *. lia.
    + apply bind_Ok in Hf as (l & [Hr ->]%store_Ok & [= <-]).
      destruct Hc as [Hc2 Hc].
      apply steps_Act_inv in Hs as
        [(-> & ->)|[(a3 & m & -> & Hf & ->)|(a3 & b3 & t3 & -> & Hf & Hs)]];
        [done| |].
      * exfalso. destruct Hc as [[_ Hc]%HR _]. cbn in Hc.
        rewrite length_insert in Hc.
        rewrite store_in_range in Hf; [done|]. unfold len in *. lia.
      * apply steps_Ret_inv in Hs as (_ & -> & _). done.
  - unfold ShareSecret, shareSecret. expose.
    set (s1 := Server.set_rand (Secret_Pick (Server.rand s)).2 s).
    set (x := MarshalPoint (Point_Mul (UnmarshalPoint (ClientDH.Public clientDH))
                              (Secret_Pick (Server.rand s)).1)).
    set (s2 := Server.set_secrets
                 (<[Z.to_nat (ClientDH.Id clientDH) := x]> (Server.secrets s1)) s1).
    eexists [EvAct _ s s1; EvAct _ s1 s2; EvAct _ s2 _], _, _. split.
    + eexists. eapply steps_cons; [by apply step_act|].
      eapply steps_cons; [apply step_act; cbn; by rewrite store_in_range|].
      eapply steps_cons;
        [apply step_act; cbn; rewrite store_in_range; [done|];
         unfold len in *; rewrite length_insert; lia|].
      apply steps_nil.
    + simpl. auto.
Qed.

(** C10. On a server where no [RegisterDone2] has run, [masks] and
    [secrets] are nil, so [ShareMask] and [ShareSecret] panic at the
    indexed write, whatever the client id.  Once a run of
    [RegisterDone2(numClients)] has returned, ids with
    [0 <= clientDH.Id < numClients] are in bounds of both slices, and the
    two operations run to their return without a panic.  The rest of the
    process is only assumed to leave the two slices as long as they
    are. *)
Theorem ShareMask_ShareSecret_bounds (R : Server.t -> Server.t -> Prop)
    (clientDH : ClientDH.t) :
  (forall a, R a a) ->
  (forall a b, R a b -> same_lengths a b) ->
  (forall s, before_RegisterDone2 s ->
     Server.masks s = [] /\ Server.secrets s = [] /\
     faults R (ShareMask clientDH) s /\
     faults R (ShareSecret clientDH) s) /\
  (forall s0 numClients t s,
     returns (RegisterDone2 numClients) t tt ->
     chained R s0 t s ->
     0 <= clientDH.(ClientDH.Id) < numClients ->
     0 <= clientDH.(ClientDH.Id) < len (Server.masks s) /\
     0 <= clientDH.(ClientDH.Id) < len (Server.secrets s) /\
     completes R (ShareMask clientDH) s /\
     completes R (ShareSecret clientDH) s).
Proof.
  intros Hrefl HR. split.
  - intros s [Hm Hs]%before_RegisterDone2_nil.
    split; [done|]. split; [done|].
    split; [by apply ShareMask_faults|by apply ShareSecret_faults].
  - intros s0 numClients t s Hr Hc Hid.
    unfold RegisterDone2 in Hr. run1 Hr. run1 Hr. subst.
    match goal with
    | Hb : RegisterDone2_body _ _ = Ok _ |- _ =>
        apply RegisterDone2_body_Ok in Hb as (Hn & Hm & Hs & _)
    end.
    destruct Hc as [_ [Hlm Hls]%HR].
    rewrite Hm in Hlm. rewrite Hs in Hls. rewrite length_replicate in Hlm, Hls.
    assert (0 <= ClientDH.Id clientDH < len (Server.masks s)) by (unfold len; lia).
    assert (0 <= ClientDH.Id clientDH < len (Server.secrets s)) by (unfold len; lia).
    split; [done|]. split; [done|].
    split; [by apply ShareMask_completes|by apply ShareSecret_completes].
Qed.

End Slices.

(** On the toy server: both operations panic before registration is
    done, and return after it. *)
Lemma ShareMask_ShareSecret_bounds_witness :
  faults eq (@ShareMask toy_suite toy_lib (ClientDH.mk [5] 1)) toy_new /\
  completes eq (@ShareSecret toy_suite toy_lib (ClientDH.mk [5] 1)) toy_registered.
Proof.
  destruct (@ShareMask_ShareSecret_bounds toy_suite toy_lib eq (ClientDH.mk [5] 1))
    as [Hbefore Hafter].
  - reflexivity.
  - intros a b ->. split; reflexivity.
  - split.
    + apply (Hbefore toy_new). apply (@before_new toy_suite toy_lib).
    + pose (s0 := Server.set_clientMap (<[1 := 1]> (<[0 := 0]> ∅)) toy_new).
      pose (t := [EvAct "s.totalClients = numClients; ...; s.regDone = true"
                    s0 toy_registered]).
      destruct (exec_sound (@RegisterDone2 toy_suite toy_lib 2) s0 [] tt t
                  toy_registered []) as [Hr Hch];
        [vm_compute; reflexivity|].
      destruct (Hafter s0 2 t toy_registered Hr Hch) as (_ & _ & _ & Hc);
        [simpl; lia|exact Hc].
Defined.

(** ** The loops that start goroutines *)
Section Loops.
Context `{L : Lib}.

Lemma notify_shape rdy ixs u q sp :
  steps (notify rdy ixs) u q sp -> notify_trace rdy u.
Proof.
  revert u q sp. induction ixs as [|i ixs IH]; intros u q sp Hs; simpl in Hs.
  { apply steps_Ret_inv in Hs as (-> & _). constructor. }
  expose.
  apply steps_Act_inv in Hs as
    [(-> & ->)|[(a & m & -> & [=] & ->)|(a & b & t' & -> & [= <-] & Hs)]];
    [constructor|].
  destruct (decide _) as [Hne|Heq].
  - apply notify_skip. exact (IH _ _ _ Hs).
  - apply steps_Go_inv in Hs as [(-> & ->)|(t'' & sp' & -> & -> & Hs)].
    + apply notify_skip. constructor.
    + apply notify_go; [by apply dec_stable|]. cbn [pbind] in Hs. eauto.
Qed.


Lemma notify_trace_send rdy u c m :
  notify_trace rdy u -> ~ In (EvSend c m) u.
Proof.
  induction 1 as [|s u Hu IH|s i u Hi Hu IH]; simpl; intros Hin.
  - done.
  - destruct Hin as [[=]|Hin]; auto.
  - destruct Hin as [[=]|[[=]|Hin]]; auto.
Qed.

Lemma respond_all_shape allBlocks ixs u q sp :
  steps (respond_all allBlocks ixs) u q sp -> respond_trace allBlocks u.
Proof.
  revert u q sp. induction ixs as [|i ixs IH]; intros u q sp Hs; simpl in Hs.
  { apply steps_Ret_inv in Hs as (-> & _). constructor. }
  expose.
  apply steps_Act_inv in Hs as
    [(-> & ->)|[(a & m & -> & [=] & ->)|(a & b & t' & -> & [= <-] & Hs)]];
    [constructor|].
  destruct (decide _) as [Heq|Hne].
  - apply respond_skip. eauto.
  - apply steps_Go_inv in Hs as [(-> & ->)|(t'' & sp' & -> & -> & Hs)].
    + apply respond_skip. constructor.
    + apply respond_go; [done|]. cbn [pbind] in Hs. eauto.
Qed.

Lemma respond_trace_go allBlocks u g :
  respond_trace allBlocks u -> In (EvGo g) u ->
  exists i sid, g = respond allBlocks i sid.
Proof.
  induction 1 as [|s u Hu IH|s i u Hi Hu IH]; simpl; intros Hin.
  - done.
  - destruct Hin as [[=]|Hin]; auto.
  - destruct Hin as [[=]|[[= <-]|Hin]]; eauto.
Qed.

End Loops.

(** ** GetResponse *)
Section GetResponseProps.
Context `{L : Lib}.

Lemma other_block_returns self cmask i ts r :
  returns (other_block self cmask i) ts r ->
  if decide (i = self) then ts = [] /\ r = zeros BlockSize
  else exists s c b,
    ts = [EvAct "s.xorsChan[i][cmask.Id]" s s; EvRecv c (MBlock b)] /\
    index s.(Server.xorsChan) i ≫= (.!! cmask.(ClientMask.Id)) = Some c /\
    r = b.(Block.Block).
Proof.
  unfold other_block. intros Hr. destruct (decide (i = self)) as [->|Hne].
  - by run1 Hr.
  - run1 Hr. run1 Hr. subst.
    match goal with
    | Hb : bind _ _ = Ok _ |- _ =>
        apply bind_Ok in Hb as (m & Hm%at_index_Ok & [= <-])
    end.
    rewrite Hm in *. simpl in *.
    match goal with Hm : msg |- _ => destruct Hm end; run1 Hr.
    subst. eexists _, _, _. split; [reflexivity|]. rewrite Hm. simpl. done.
Qed.

(** C1. A call of [GetResponse(cmask)] that returns has, in this order:
    read its configuration; run one goroutine per server [j], which for
    [j == s.id] leaves the slot at [BlockSize] zero bytes and for every
    other [j] receives exactly one block from [xorsChan[j][cmask.Id]]
    into slot [j]; waited for all of them; received from
    [blocksRdy[cmask.Id]]; and only then read [allBlocks] and
    [secrets[cmask.Id]].  The response is
    [ComputeResponse(allBlocks, cmask.Mask, secrets[cmask.Id])] with the
    XOR of all the slots XORed into it. *)
Theorem GetResponse_returns (cmask : ClientMask.t) t response :
  returns (GetResponse cmask) t response ->
  exists s0 tss otherBlocks tpar sb cb mb sr secret,
    let N := length s0.(Server.servers) in
    t = EvAct "otherBlocks := make([][]byte, len(s.servers))" s0 s0 :: tpar ++
        [EvWait;
         EvAct "s.blocksRdy[cmask.Id]" sb sb;
         EvRecv cb mb;
         EvAct "r := ComputeResponse(s.allBlocks, cmask.Mask, s.secrets[cmask.Id])" sr sr] /\
    interleave tss tpar /\
    length tss = N /\ length otherBlocks = N /\
    (forall j : nat, (j < N)%nat ->
       if decide (Z.of_nat j = s0.(Server.id))
       then tss !! j = Some [] /\ otherBlocks !! j = Some (zeros BlockSize)
       else exists sj cj bj,
         tss !! j = Some [EvAct "s.xorsChan[i][cmask.Id]" sj sj;
                          EvRecv cj (MBlock bj)] /\
         index sj.(Server.xorsChan) (Z.of_nat j) ≫= (.!! cmask.(ClientMask.Id))
           = Some cj /\
         otherBlocks !! j = Some bj.(Block.Block)) /\
    index sb.(Server.blocksRdy) cmask.(ClientMask.Id) = Some cb /\
    index sr.(Server.secrets) cmask.(ClientMask.Id) = Some secret /\
    response =
      Xor (Xors otherBlocks)
        (ComputeResponse sr.(Server.allBlocks) cmask.(ClientMask.Mask) secret).
Proof.
  intros Hr. unfold GetResponse in Hr. run1 Hr. subst.
  match goal with H : Ok _ = Ok _ |- _ => injection H as <- end.
  expose. apply returns_Par in Hr as (tss & rs & t1 & t2 & Hpar & Hi & -> & Hr).
  apply par_returns_map in Hpar as (Hl1 & Hl2 & Hpar).
  rewrite length_upto in Hl1, Hl2. unfold len in Hl1, Hl2.
  rewrite Nat2Z.id in Hl1, Hl2.
  run1 Hr. run1 Hr. run1 Hr. run1 Hr. subst.
  repeat match goal with
  | Hb : bind _ _ = Ok _ |- _ =>
      apply bind_Ok in Hb as (? & ?%at_index_Ok & [= <-])
  end.
  match goal with
  | Hs : index (Server.secrets _) _ = Some _ |- _ => rewrite Hs in *
  end.
  do 9 eexists. cbv zeta.
  split; [reflexivity|]. split; [exact Hi|].
  split; [done|]. split; [done|].
  split; [|split; [eassumption|split; [eassumption|reflexivity]]].
  intros j Hj.
  destruct (Hpar j (Z.of_nat j)) as (ts & r & Hts & Hrs & Hret).
  { apply lookup_upto. unfold len. by rewrite Nat2Z.id. }
  apply other_block_returns in Hret.
  destruct (decide (Z.of_nat j = _)) as [Heq|Hne].
  - destruct Hret as [-> ->]. done.
  - destruct Hret as (sj & cj & bj & -> & Hc & ->). eauto 10.
Qed.

End GetResponseProps.

(** Two servers, client 0 hosted here: server 1's share arrives, then the
    readiness signal. *)
Lemma GetResponse_returns_witness :
  exists t response s',
    exec (@GetResponse toy_suite toy_lib (ClientMask.mk [1; 0] 0))
      (Server.set_allBlocks [Block.mk [7; 9] 0; Block.mk [3; 4] 0] toy_registered)
      [InMsg (MBlock (Block.mk [1; 1] 0)); InMsg (MBool true)]
      = Some (response, t, s', []) /\
    response = [6; 8] /\
    exists otherBlocks (sr : @Server.t toy_suite) secret,
      response =
        Xor (Xors otherBlocks)
          (toy_ComputeResponse sr.(Server.allBlocks) [1; 0] secret).
Proof.
  destruct (exec (@GetResponse toy_suite toy_lib (ClientMask.mk [1; 0] 0))
      (Server.set_allBlocks [Block.mk [7; 9] 0; Block.mk [3; 4] 0] toy_registered)
      [InMsg (MBlock (Block.mk [1; 1] 0)); InMsg (MBool true)])
    as [[[[response t] s'] ins]|] eqn:E; [|vm_compute in E; discriminate].
  assert (ins = []) as -> by (vm_compute in E; congruence).
  exists t, response, s'. split; [reflexivity|].
  destruct (exec_sound _ _ _ _ _ _ _ E) as [Hr Hc].
  destruct (@GetResponse_returns toy_suite toy_lib _ _ _ Hr)
    as (s0 & tss & otherBlocks & tpar & sb & cb & mb & sr & secret &
        Ht & Hi & Hl1 & Hl2 & Hslots & Hcb & Hsec & Hresp).
  split; [|by exists otherBlocks, sr, secret].
  clear -E. vm_compute in E. congruence.
Defined.

(** ** The secrets are all zero *)
Section SecretsZero.
Context `{L : Lib}.










End SecretsZero.

(** ** ConnectServers *)

Lemma int_wrap_small z : int_min <= z <= int_max -> int_wrap z = z.
Proof.
  unfold int_min, int_max, int_wrap. intros Hz.
  rewrite Z.mod_small; lia.
Qed.

Lemma par_returns_imap `{Suite} {B X} (f : nat -> X -> prog B) (xs : list X) tss rs :
  par_returns (imap f xs) tss rs ->
  length tss = length xs /\ length rs = length xs /\
  forall i x, xs !! i = Some x ->
    exists ts r, tss !! i = Some ts /\ rs !! i = Some r /\ returns (f i x) ts r.
Proof.
  intros (Hl1 & Hl2 & Hruns). rewrite length_imap in Hl1, Hl2.
  split; [done|split; [done|]]. intros i x Hx.
  assert (i < length xs)%nat as Hlt by (eapply lookup_lt_Some; eauto).
  destruct (lookup_lt_is_Some_2 tss i) as [ts Hts]; [lia|].
  destruct (lookup_lt_is_Some_2 rs i) as [r Hr]; [lia|].
  exists ts, r. repeat split; auto.
  apply (Hruns i (f i x) ts r); auto. by rewrite list_lookup_imap, Hx.
Qed.

Lemma at_index_Some {A} (l : list A) i a :
  index l i = Some a -> at_index l i = Ok a.
Proof. unfold at_index. by intros ->. Qed.

Section ConnectServersProps.
Context `{L : Lib}.

Lemma keys_stable_refl s : keys_stable s s.
Proof. by repeat split. Qed.

Lemma keys_stable_trans a b c : keys_stable a b -> keys_stable b c -> keys_stable a c.
Proof.
  intros (? & ? & ? & ? & ? & ?) (? & ? & ? & ? & ? & ?).
  repeat split; congruence.
Qed.

Lemma dialled_stable a b i : keys_stable a b -> dialled b i = dialled a i.
Proof. intros (Hs & Hi & Hp & _). unfold dialled. by rewrite Hs, Hi, Hp. Qed.

(** The dial loop makes one client per index, named by the address
    dialled, and calls nobody. *)
Lemma dial_servers_returns ixs acc t r s s1 s2 :
  returns (dial_servers ixs acc) t r ->
  keys_stable s s1 ->
  chained keys_stable s1 t s2 ->
  r = acc ++ map (dialled s) ixs /\ keys_stable s s2 /\
  forall c q x, ~ In (EvCall c q x) t.
Proof.
  revert acc t s1. induction ixs as [|i ixs IH]; intros acc t s1 Hr Hs Hc; simpl in Hr.
  - apply returns_Ret in Hr as [-> ->]. simpl in Hc. rewrite app_nil_r.
    split; [done|]. split; [by eapply keys_stable_trans|]. by intros c q x [].
  - run1 Hr. run1 Hr. subst.
    match goal with x : Result unit |- _ => destruct x; [|by run1 Hr] end.
    destruct Hc as [Hc1 Hc].
    assert (x0 = x) as ->.
    { match goal with Hf : _ = Ok x0 |- _ => revert Hf end.
      destruct (decide _); [by intros [= ->]|].
      intros (? & _ & [= ->])%bind_Ok. done. }
    assert (keys_stable s x) as Hsx by (by eapply keys_stable_trans).
    destruct (IH _ _ _ Hr Hsx Hc) as (-> & Hs2 & Hno).
    split; [|split; [done|]].
    + rewrite <- app_assoc. simpl. f_equal. f_equal.
      fold (dialled x i). by apply dialled_stable.
    + intros c q y [[=]|[[=]|Hin]]. by eapply Hno.
Qed.

Lemma pks_fill (vals : list Point) tss tpar :
  interleave tss tpar ->
  forall s1 s2,
  (forall i ts, tss !! i = Some ts ->
     exists v, vals !! i = Some v /\ GetPK_left i v ts) ->
  chained keys_stable s1 tpar s2 ->
  Server.servers s2 = Server.servers s1 /\
  Server.id s2 = Server.id s1 /\
  Server.port s2 = Server.port s1 /\
  Server.pk s2 = Server.pk s1 /\
  length (Server.pks s2) = length (Server.pks s1) /\
  forall i ts, tss !! i = Some ts ->
    (ts = [] -> Server.pks s2 !! i = Server.pks s1 !! i) /\
    (ts <> [] -> exists v, vals !! i = Some v /\
                           Server.pks s2 !! i = Some (Some v)).
Proof.
  induction 1 as [tss Hnil|tss i e ts t Hi Hint IH]; intros s1 s2 Hleft Hc.
  - simpl in Hc. destruct Hc as (? & ? & ? & ? & Hp & ?).
    do 5 (split; [congruence|]). intros j tsj Hts. split; [by rewrite Hp|].
    intros Hne. destruct Hne. symmetry.
    by apply (Forall_lookup_1 _ _ _ _ Hnil Hts).
  - assert (i < length tss)%nat as Hlt by (eapply lookup_lt_Some; eauto).
    destruct (Hleft i _ Hi) as (v & Hv & [[=]|[(e' & Hw & [= -> ->])
                                            |(c & pk & e' & Hw & [= -> ->])]]).
    + (* the write of goroutine [i] *)
      destruct Hw as (a & -> & Hia). destruct Hc as [Hsa Hc].
      destruct (IH (Server.set_pks (<[i:=Some v]> (Server.pks a)) a) s2)
        as (E1 & E2 & E3 & E4 & E5 & Hall); [|exact Hc|].
      { intros j tsj Hj. destruct (decide (j = i)) as [->|Hne].
        - rewrite list_lookup_insert_eq in Hj by done. injection Hj as <-.
          exists v. split; [done|by left].
        - rewrite list_lookup_insert_ne in Hj by done. by apply Hleft. }
      cbn in E1, E2, E3, E4, E5. rewrite length_insert in E5.
      destruct Hsa as (S1 & S2 & S3 & S4 & S5 & _).
      do 5 (split; [congruence|]).
      intros j tsj Hj. destruct (decide (j = i)) as [->|Hne].
      * rewrite Hi in Hj. injection Hj as <-. split; [done|]. intros _.
        exists v. split; [done|].
        destruct (Hall i []) as [Hnil _].
        { by rewrite list_lookup_insert_eq. }
        rewrite Hnil by done. cbn. by rewrite list_lookup_insert_eq.
      * destruct (Hall j tsj) as [Hnil Hcons].
        { by rewrite list_lookup_insert_ne. }
        split; [|done]. intros ->. rewrite Hnil by done. cbn.
        rewrite list_lookup_insert_ne by done. by rewrite S5.
    + (* the call of goroutine [i] *)
      simpl in Hc.
      destruct (IH s1 s2) as (E1 & E2 & E3 & E4 & E5 & Hall); [|exact Hc|].
      { intros j tsj Hj. destruct (decide (j = i)) as [->|Hne].
        - rewrite list_lookup_insert_eq in Hj by done. injection Hj as <-.
          exists v. split; [done|]. right; left. eauto.
        - rewrite list_lookup_insert_ne in Hj by done. by apply Hleft. }
      do 5 (split; [done|]).
      intros j tsj Hj. destruct (decide (j = i)) as [->|Hne].
      * rewrite Hi in Hj. injection Hj as <-. split; [done|]. intros _.
        destruct (Hall i [e']) as [_ Hcons].
        { by rewrite list_lookup_insert_eq. }
        by apply Hcons.
      * apply Hall. by rewrite list_lookup_insert_ne.
Qed.

Lemma GetPK_child_returns (i : nat) rpcServer ts :
  returns (r ← call rpcServer Server_GetPK;
           match r with
           | Err e => log_Fatal ("Couldn't get server's pk: " +:+ e)
           | Ok pk =>
               act "s.pks[i] = UnmarshalPoint(pk)"
                 (fun s => pks ← store s.(Server.pks) (Z.of_nat i)
                                   (Some (UnmarshalPoint pk));
                           Ok (Server.set_pks pks s));;
               Ret tt
           end) ts tt ->
  exists pk e, pk_write i (UnmarshalPoint pk) e /\
               ts = [EvCall rpcServer Server_GetPK (Ok pk); e].
Proof.
  intros Hr. run1 Hr. subst.
  match goal with x : Result bytes |- _ => destruct x as [pk|]; [|by run1 Hr] end.
  run1 Hr. run1 Hr. subst.
  match goal with
  | Hb : bind _ _ = Ok _ |- _ => apply bind_Ok in Hb as (l & [Hrange ->]%store_Ok & [= <-])
  end.
  exists pk. eexists. split; [|reflexivity].
  eexists. rewrite Nat2Z.id. split; [reflexivity|]. unfold len in Hrange. lia.
Qed.

Lemma fold_point_add (pks : list (option Point)) (key : Z -> Point) ixs x :
  (forall i, In i ixs -> index pks i = Some (Some (key i))) ->
  foldl (fun nextPk i =>
           nextPk ← nextPk; pki ← at_index pks i; point_add nextPk pki)
        (Ok (Some x)) ixs
  = Ok (Some (foldl Point_Add x (map key ixs))).
Proof.
  revert x. induction ixs as [|i ixs IH]; intros x Hk; simpl; [done|].
  rewrite (at_index_Some _ _ _ (Hk i ltac:(by left))). simpl.
  apply IH. intros j Hj. apply Hk. by right.
Qed.

Lemma In_from_to lo hi i : In i (from_to lo hi) -> lo <= i < hi.
Proof.
  unfold from_to. intros (k & <- & Hk%in_seq)%in_map_iff. lia.
Qed.

Lemma next_pk_sum (a : Server.t) (key : Z -> Point) :
  len a.(Server.servers) <= int_max ->
  (forall i, 0 <= i < len a.(Server.servers) ->
     index a.(Server.pks) i = Some (Some (key i))) ->
  (0 <= a.(Server.id) < len a.(Server.servers) - 1 ->
   next_pk a = Ok (Some (foldl Point_Add (key a.(Server.id))
                           (map key (from_to (a.(Server.id) + 1)
                                       (len a.(Server.servers))))))) /\
  (a.(Server.id) = len a.(Server.servers) - 1 ->
   next_pk a = Ok (Some a.(Server.pk))).
Proof.
  intros Hmax Hkeys. unfold next_pk, int_sub, int_add.
  assert (0 <= len (Server.servers a)) by (unfold len; lia).
  rewrite (int_wrap_small (len (Server.servers a) - 1))
    by (unfold int_min, int_max in *; lia).
  split.
  - intros Hid. destruct (decide _) as [_|Hn]; [|lia].
    rewrite (int_wrap_small (Server.id a + 1))
      by (unfold int_min, int_max in *; lia).
    rewrite (at_index_Some _ _ _ (Hkeys (Server.id a) ltac:(lia))). simpl.
    apply fold_point_add. intros i Hi%In_from_to. apply Hkeys. lia.
  - intros Hid. destruct (decide _) as [Hn|_]; [done|]. done.
Qed.

(** C6. Let every server answer [GetPK] with its marshalled public key,
    [pk_at] of the address it is dialled at, and let the codec round-trip.
    On a server made by [NewServer] (so that [pks] has a slot per server),
    with nobody else writing the configuration or the keys, a call of
    [ConnectServers] that returns leaves in [pks[i]] the key of server
    [i] for every [i], and in [nextPk]: for [0 <= id < N-1] the sum, from
    the left, of the keys of the servers [id, id+1, ..., N-1]; for
    [id = N-1] the server's own [pk]. *)
Theorem ConnectServers_nextPk (pk_at : string -> Point) t s s' :
  (forall P, UnmarshalPoint (MarshalPoint P) = P) ->
  (forall client r, In (EvCall client Server_GetPK (Ok r)) t ->
     r = MarshalPoint (pk_at client)) ->
  length s.(Server.pks) = length s.(Server.servers) ->
  len s.(Server.servers) <= int_max ->
  returns ConnectServers t tt ->
  chained keys_stable s t s' ->
  let N := len s.(Server.servers) in
  let key i := pk_at (dialled s i) in
  (forall i, 0 <= i < N -> index s'.(Server.pks) i = Some (Some (key i))) /\
  (0 <= s.(Server.id) < N - 1 ->
   s'.(Server.nextPk) =
     Some (foldl Point_Add (key s.(Server.id))
             (map key (from_to (s.(Server.id) + 1) N)))) /\
  (s.(Server.id) = N - 1 -> s'.(Server.nextPk) = Some s.(Server.pk)).
Proof.
  intros Hcodec Hreply Hlen Hmax Hr Hc. cbv zeta.
  unfold ConnectServers in Hr. run1 Hr. subst.
  match goal with Hf : Ok _ = Ok _ |- _ => injection Hf as <- end.
  destruct Hc as [Hs0 Hc].
  match goal with
  | _ : context [Server.servers ?x] |- _ =>
      assert (Server.servers x = Server.servers s) as Hx by apply Hs0;
      rewrite Hx in Hr
  end.
  apply returns_bind_inv in Hr as (rpcServers & t1 & t2 & -> & Hdial & Hr).
  apply chained_app_inv in Hc as (s1 & Hc1 & Hc); [|apply keys_stable_refl].
  destruct (dial_servers_returns _ _ _ _ s _ _ Hdial Hs0 Hc1) as (-> & Hs1 & Hnocall).
  simpl in Hr.
  apply returns_Par in Hr as (tss & rs & tpar & t3 & Hpar & Hint & -> & Hr).
  apply par_returns_imap in Hpar as (Hl1 & _ & Hpar).
  rewrite length_map, length_upto in Hl1.
  apply chained_app_inv in Hc as (s2 & Hc2 & Hc); [|apply keys_stable_refl].
  run1 Hr. run1 Hr. subst.
  match goal with
  | Hb : bind _ _ = Ok _ |- _ => apply bind_Ok in Hb as (nextPk & Hnext & [= <-])
  end.
  match goal with Hn : next_pk ?a = Ok _ |- _ => rename a into x1 end.
  simpl in Hc. destruct Hc as [Hc3 Hc4].
  (* what the goroutines wrote *)
  set (vals := map (fun i => pk_at (dialled s i)) (upto (len (Server.servers s)))).
  destruct (pks_fill vals tss tpar Hint s1 s2) as (E1 & E2 & E3 & E4 & E5 & Hall);
    [|done|].
  { intros i ts Hts.
    assert (i < Z.to_nat (len (Server.servers s)))%nat as Hi.
    { apply lookup_lt_Some in Hts. lia. }
    exists (pk_at (dialled s (Z.of_nat i))). split.
    { unfold vals. by rewrite list_lookup_fmap, lookup_upto. }
    destruct (Hpar i (dialled s (Z.of_nat i))) as (ts' & [] & Hts' & _ & Hret).
    { by rewrite list_lookup_fmap, lookup_upto. }
    assert (ts' = ts) as -> by congruence.
    apply GetPK_child_returns in Hret as (pk & e & Hw & ->).
    right; right. exists (dialled s (Z.of_nat i)), pk, e. split; [|done].
    rewrite (Hreply (dialled s (Z.of_nat i)) pk), Hcodec in Hw; [done|].
    right. apply in_or_app. right. apply in_or_app. left.
    clear -Hint Hts. revert Hts. generalize (Z.of_nat i). intros z.
    revert i. induction Hint as [tss Hnil|tss j e0 ts0 t Hj Hint IH]; intros i Hts.
    - pose proof (Forall_lookup_1 _ _ _ _ Hnil Hts). done.
    - destruct (decide (i = j)) as [->|Hne].
      + rewrite Hj in Hts. injection Hts as -> ->. by left.
      + right. apply (IH i). by rewrite list_lookup_insert_ne. }
  destruct Hs1 as (S1 & S2 & S3 & S4 & S5 & S6).
  destruct Hc3 as (T1 & T2 & T3 & T4 & T5 & T6).
  destruct Hc4 as (U1 & U2 & U3 & U4 & U5 & U6).
  cbn in U1, U2, U3, U4, U5, U6.
  assert (forall i, 0 <= i < len (Server.servers s) ->
            index (Server.pks x1) i = Some (Some (pk_at (dialled s i)))) as Hkeys.
  { intros i Hi. apply index_Some. split; [lia|]. rewrite T5.
    assert (Z.to_nat i < length tss)%nat as Hlt by lia.
    destruct (lookup_lt_is_Some_2 tss (Z.to_nat i) Hlt) as [ts Hts].
    destruct (Hall _ _ Hts) as [Hnil Hcons].
    destruct (Hpar (Z.to_nat i) (dialled s i)) as (ts' & [] & Hts' & _ & Hret).
    { rewrite list_lookup_fmap, lookup_upto by lia. simpl. f_equal. f_equal. lia. }
    assert (ts' = ts) as -> by congruence.
    apply GetPK_child_returns in Hret as (pk & e & _ & ->).
    destruct Hcons as (v & Hv & ->); [done|]. f_equal. f_equal.
    unfold vals in Hv. rewrite list_lookup_fmap, lookup_upto in Hv by lia.
    simpl in Hv. injection Hv as <-. f_equal. f_equal. lia. }
  assert (Server.servers x1 = Server.servers s) as Hsrv by congruence.
  assert (Server.id x1 = Server.id s) as Hid by congruence.
  destruct (next_pk_sum x1 (fun i => pk_at (dialled s i))) as [Hsum Hlast].
  { by rewrite Hsrv. }
  { intros i. rewrite Hsrv. apply Hkeys. }
  rewrite Hsrv, Hid in Hsum, Hlast.
  split; [|split].
  - intros i Hi. rewrite U5. by apply Hkeys.
  - intros Hrange. rewrite U6. rewrite Hsum in Hnext by done. congruence.
  - intros Hrange. rewrite U6. rewrite Hlast in Hnext by done.
    injection Hnext as <-. f_equal. congruence.
Qed.

End ConnectServersProps.

Lemma chained_mono `{Suite} (R R' : Server.t -> Server.t -> Prop) s t s' :
  (forall a b, R a b -> R' a b) -> chained R s t s' -> chained R' s t s'.
Proof.
  intros HR. revert s. induction t as [|e t IH]; intros s; simpl; [apply HR|].
  destruct e; try apply IH; intros [? ?]; split; auto.
Qed.

(** Server 0 of two, whose key is 20, asks itself and server 1, whose key
    is 30. *)
Lemma ConnectServers_nextPk_witness :
  exists t s',
    exec (@ConnectServers toy_suite toy_lib) toy_new
      [InDial (Ok tt); InDial (Ok tt); InCall (Ok [20]); InCall (Ok [30])]
      = Some (tt, t, s', []) /\
    Server.nextPk s' = Some 50.
Proof.
  destruct (exec (@ConnectServers toy_suite toy_lib) toy_new
      [InDial (Ok tt); InDial (Ok tt); InCall (Ok [20]); InCall (Ok [30])])
    as [[[[[] t] s'] ins]|] eqn:E; [|vm_compute in E; discriminate].
  assert (ins = []) as -> by (vm_compute in E; congruence).
  exists t, s'. split; [reflexivity|].
  destruct (exec_sound _ _ _ _ _ _ _ E) as [Hr Hc].
  pose (pk_at := fun c : string => if decide (c = "127.0.0.1:8000") then 20 else 30).
  destruct (@ConnectServers_nextPk toy_suite toy_lib pk_at t toy_new s')
    as (_ & Hsum & _).
  - reflexivity.
  - assert (map (fun e => match e with
                          | EvCall c Server_GetPK (Ok r) => Some (c, r)
                          | _ => None
                          end) t
            = [None; None; None; None; None; Some ("127.0.0.1:8000", [20]);
               None; Some ("10.0.0.2:8000", [30]); None; None; None]) as Hcalls.
    { clear -E. vm_compute in E. injection E as <- _. reflexivity. }
    intros client r Hin.
    apply (in_map (fun e => match e with
                            | EvCall c Server_GetPK (Ok r) => Some (c, r)
                            | _ => None
                            end)) in Hin.
    rewrite Hcalls in Hin. simpl in Hin.
    repeat destruct Hin as [Hin|Hin]; try discriminate; try done;
      injection Hin as <- <-; reflexivity.
  - reflexivity.
  - vm_compute. discriminate.
  - exact Hr.
  - eapply chained_mono; [|exact Hc]. intros a b ->. by repeat split.
  - rewrite Hsum by (vm_compute; split; [discriminate|reflexivity]).
    reflexivity.
Defined.

(** ** Loops over slices that can panic *)

Lemma mapM_Ok {A B} (f : A -> Result B) (l : list A) (k : list B) :
  mapM f l = Ok k -> Forall2 (fun x y => f x = Ok y) l k.
Proof.
  revert k. induction l as [|x l IH]; intros k; simpl.
  - intros [= <-]. constructor.
  - intros (y & Hy & Hk)%bind_Ok. apply bind_Ok in Hk as (k' & Hk' & [= <-]).
    constructor; auto.
Qed.

Lemma mapM_total {A B} (f : A -> Result B) (l : list A) :
  (forall x, In x l -> exists y, f x = Ok y) -> exists k, mapM f l = Ok k.
Proof.
  induction l as [|x l IH]; intros Hf; simpl; [by eexists|].
  destruct (Hf x) as [y Hy]; [by left|].
  destruct IH as [k Hk]; [intros; apply Hf; by right|].
  exists (y :: k). unfold mbind, Result_bind. rewrite Hy. simpl.
  unfold mbind, Result_bind in Hk. rewrite Hk. done.
Qed.

Lemma mapM_Err {A B} (f : A -> Result B) (l : list A) m :
  mapM f l = Err m -> exists x, In x l /\ f x = Err m.
Proof.
  induction l as [|x l IH]; simpl; [done|].
  unfold mbind, Result_bind in *.
  destruct (f x) as [y|mx] eqn:E; simpl.
  - destruct (mapM f l) as [k|ml]; simpl; [done|].
    intros [= <-]. destruct IH as (z & Hz & Hf); [done|]. exists z. auto.
  - intros [= <-]. exists x. auto.
Qed.

Lemma steps_nil_inv `{Suite} {A} (p q : prog A) sp : steps p [] q sp -> q = p.
Proof. intros Hs. by invert Hs. Qed.

Lemma steps_ex_cons `{Suite} {A} (p p1 : prog A) e t :
  step p e p1 [] -> (exists q, steps p1 t q []) -> exists q, steps p (e :: t) q [].
Proof. intros Hs [q Hq]. exists q. exact (steps_cons _ _ _ [] _ _ [] Hs Hq). Qed.

(** A statement that leaves the struct as it is runs in every state, to
    its continuation or to a panic. *)
Lemma steps_ex_Act `{Suite} {A} l f (k : Server.t -> prog A) s :
  (forall b, f s = Ok b -> b = s) ->
  exists q, steps (Act l f k) [EvAct l s s] q [].
Proof.
  intros Hf. destruct (f s) as [b|m] eqn:E.
  - rewrite (Hf b eq_refl) in E. exists (k s).
    apply (steps_cons _ _ (k s) [] [] _ []); [by apply step_act|apply steps_nil].
  - exists (Crash m).
    apply (steps_cons _ _ (Crash m) [] [] _ []); [by apply step_panic|apply steps_nil].
Qed.

Lemma In_upto n i : In i (upto n) <-> 0 <= i < n.
Proof.
  unfold upto. rewrite in_map_iff. split.
  - intros (k & <- & Hk%in_seq). lia.
  - intros Hi. exists (Z.to_nat i). split; [lia|]. apply in_seq. lia.
Qed.

Lemma forallb_false {A} (f : A -> bool) (l : list A) :
  forallb f l = false -> exists x, In x l /\ f x = false.
Proof.
  induction l as [|x l IH]; simpl; [done|].
  destruct (f x) eqn:E; simpl.
  - intros (y & Hy & Hf)%IH. exists y. auto.
  - intros _. exists x. auto.
Qed.

(** ** shuffleUploads: the chunk check and the transposition *)
Section ShuffleUploadsProps.
Context `{L : Lib}.

Lemma chunk_count_spec first rest :
  let allUploads := first :: rest in
  let C := len first.(UpBlock.BC1) in
  (chunk_count allUploads = Err "Different chunk lengths" <->
   exists upload, In upload allUploads /\ len upload.(UpBlock.BC1) <> C) /\
  (chunk_count allUploads = Ok C \/
   chunk_count allUploads = Err "Different chunk lengths").
Proof.
  cbv zeta. unfold chunk_count.
  change (at_index (first :: rest) 0) with (Ok first).
  unfold mbind, Result_bind. cbn [bind].
  match goal with
  | |- context [forallb ?f ?l] => destruct (forallb f l) eqn:E
  end.
  - split; [|by left]. split; [done|]. intros (u & Hu & Hne).
    rewrite forallb_forall in E. apply E in Hu. apply Z.eqb_eq in Hu. done.
  - split; [|by right]. split; [|done]. intros _.
    apply forallb_false in E as (u & Hin & Hu). exists u. split; [done|].
    intros Heq. apply Z.eqb_neq in Hu. congruence.
Qed.

Lemma column_total totalClients allUploads side i :
  len allUploads = totalClients ->
  (forall upload, In upload allUploads -> 0 <= i < len (side upload)) ->
  exists col, column totalClients allUploads side i = Ok col.
Proof.
  intros Hlen Hside. apply mapM_total. intros j Hj%In_upto.
  destruct (index_lt allUploads j) as [u Hu]; [lia|].
  destruct (index_lt (side u) i) as [c Hc].
  { apply Hside. apply index_Some in Hu as [_ Hu].
    apply list_elem_of_In. by eapply list_elem_of_lookup_2. }
  exists (UnmarshalPoint c). unfold mbind, Result_bind.
  rewrite (at_index_Some _ _ _ Hu). simpl. by rewrite (at_index_Some _ _ _ Hc).
Qed.

Lemma column_Ok totalClients allUploads side i col :
  column totalClients allUploads side i = Ok col ->
  length col = Z.to_nat totalClients /\
  forall (j : nat) p, col !! j = Some p ->
    exists upload c, allUploads !! j = Some upload /\
      index (side upload) i = Some c /\ p = UnmarshalPoint c.
Proof.
  intros HF%mapM_Ok. split.
  { apply Forall2_length in HF. by rewrite length_upto in HF. }
  intros j p Hp.
  destruct (Forall2_lookup_r _ _ _ _ _ HF Hp) as (j' & Hj' & Hf).
  apply lookup_upto_Some in Hj' as [-> _].
  apply bind_Ok in Hf as (u & Hu%at_index_Ok & Hf).
  apply bind_Ok in Hf as (c & Hc%at_index_Ok & [= <-]).
  rewrite index_of_nat in Hu. eauto.
Qed.

Lemma at_index_Err {A} (l : list A) i m :
  at_index l i = Err m -> m = index_out_of_range.
Proof. unfold at_index. destruct (index l i); [done|]. by intros [= <-]. Qed.

Lemma column_Err totalClients allUploads side i m :
  column totalClients allUploads side i = Err m -> m = index_out_of_range.
Proof.
  intros (j & _ & Hf)%mapM_Err. unfold mbind, Result_bind in Hf.
  destruct (at_index allUploads j) as [u|] eqn:Eu; simpl in Hf;
    [|apply at_index_Err in Eu; congruence].
  destruct (at_index (side u) i) as [c|] eqn:Ec; simpl in Hf; [done|].
  apply at_index_Err in Ec. congruence.
Qed.

Lemma transpose_Err totalClients allUploads C m :
  transpose totalClients allUploads C = Err m ->
  m = makeslice_out_of_range \/ m = index_out_of_range.
Proof.
  unfold transpose. destruct (decide _); [intros [= <-]; by left|].
  unfold mbind, Result_bind.
  destruct (mapM _ _) as [xs|mx] eqn:EX; simpl.
  - destruct (mapM (column _ _ UpBlock.BC2) _) as [ys|my] eqn:EY; simpl; [done|].
    intros [= <-]. right.
    apply mapM_Err in EY as (i & _ & Hc). by eapply column_Err.
  - intros [= <-]. right.
    apply mapM_Err in EX as (i & _ & Hc). by eapply column_Err.
Qed.

Lemma transpose_Ok totalClients allUploads C BXs BYs :
  transpose totalClients allUploads C = Ok (BXs, BYs) ->
  transposed totalClients C allUploads UpBlock.BC1 BXs /\
  transposed totalClients C allUploads UpBlock.BC2 BYs.
Proof.
  unfold transpose. destruct (decide _); [done|].
  intros (xs & HX%mapM_Ok & Hb)%bind_Ok.
  apply bind_Ok in Hb as (ys & HY%mapM_Ok & [= <- <-]).
  split.
  - split; [apply Forall2_length in HX; by rewrite length_upto in HX|].
    intros i col Hcol.
    destruct (Forall2_lookup_r _ _ _ _ _ HX Hcol) as (i' & Hi' & Hf).
    apply lookup_upto_Some in Hi' as [-> _].
    apply column_Ok in Hf as [Hl Hf]. split; [done|].
    intros j p Hp. destruct (Hf j p Hp) as (u & c & Hu & Hc & ->).
    rewrite index_of_nat in Hc. eauto.
  - split; [apply Forall2_length in HY; by rewrite length_upto in HY|].
    intros i col Hcol.
    destruct (Forall2_lookup_r _ _ _ _ _ HY Hcol) as (i' & Hi' & Hf).
    apply lookup_upto_Some in Hi' as [-> _].
    apply column_Ok in Hf as [Hl Hf]. split; [done|].
    intros j p Hp. destruct (Hf j p Hp) as (u & c & Hu & Hc & ->).
    rewrite index_of_nat in Hc. eauto.
Qed.

Lemma transpose_total totalClients allUploads C :
  len allUploads = totalClients ->
  (forall upload, In upload allUploads ->
     len upload.(UpBlock.BC1) = C /\ len upload.(UpBlock.BC2) = C) ->
  exists BXs BYs, transpose totalClients allUploads C = Ok (BXs, BYs).
Proof.
  intros Hlen Hwf. unfold transpose.
  destruct (decide _) as [[_ Hneg]|_]; [unfold len in Hlen; lia|].
  destruct (mapM_total (column totalClients allUploads UpBlock.BC1) (upto C))
    as [BXs HX].
  { intros i Hi%In_upto. apply column_total; [done|].
    intros u Hu. destruct (Hwf u Hu) as [-> _]. done. }
  destruct (mapM_total (column totalClients allUploads UpBlock.BC2) (upto C))
    as [BYs HY].
  { intros i Hi%In_upto. apply column_total; [done|].
    intros u Hu. destruct (Hwf u Hu) as [_ ->]. done. }
  exists BXs, BYs. unfold mbind, Result_bind in *. rewrite HX. simpl.
  by rewrite HY.
Qed.

(** Once registration is done, [shuffleUploads] can take any batch from
    [shuffleChan] and run the statement that checks and transposes it. *)
Lemma shuffleUploads_prefix s0 allUploads s :
  Server.regDone s0 = true ->
  exists q,
    steps shuffleUploads
      [EvAct "if !s.regDone { return }" s0 s0;
       EvRecv (Server.shuffleChan s0) (MUpBlocks allUploads);
       EvAct "numBlockChunks := len(allUploads[0].BC1); ...; BXs[i][j] = ...; BYs[i][j] = ..." s s]
      q [].
Proof.
  intros Hdone. unfold shuffleUploads. expose.
  eapply steps_ex_cons; [by apply step_act|]. rewrite Hdone. cbn [negb].
  eapply steps_ex_cons; [apply step_recv|]. cbn beta iota.
  apply steps_ex_Act. intros b Hb.
  apply bind_Ok in Hb as (? & _ & Hb). by apply bind_Ok in Hb as (? & _ & [= ->]).
Qed.

(** C8. Take a run of [shuffleUploads] that has received a non-empty
    batch [allUploads] and executed the statement that checks and
    transposes it.  It has panicked with "Different chunk lengths" if and
    only if some upload has a chunk count ([len BC1]) other than that of
    the first.  And when every upload has [C] chunks, each a pair (so
    [len BC2 = C] as well), and the batch has one upload per client, it
    has not panicked: it goes on to shuffle [BXs] and [BYs], which are the
    batch transposed into [C] columns each [totalClients] long, column [i]
    holding at [j] the point unmarshalled from chunk [i] of upload [j]. *)
Theorem shuffleUploads_chunk_check s0 c first rest s s1 q sp :
  let allUploads := first :: rest in
  let C := len first.(UpBlock.BC1) in
  steps shuffleUploads
    [EvAct "if !s.regDone { return }" s0 s0;
     EvRecv c (MUpBlocks allUploads);
     EvAct "numBlockChunks := len(allUploads[0].BC1); ...; BXs[i][j] = ...; BYs[i][j] = ..." s s1]
    q sp ->
  (q = Crash "Different chunk lengths" <->
   exists upload, In upload allUploads /\ len upload.(UpBlock.BC1) <> C) /\
  ((forall upload, In upload allUploads ->
      len upload.(UpBlock.BC1) = C /\ len upload.(UpBlock.BC2) = C) ->
   len allUploads = s.(Server.totalClients) ->
   exists BXs BYs,
     q = shuffle_and_hand_off allUploads BXs BYs C /\
     transposed s.(Server.totalClients) C allUploads UpBlock.BC1 BXs /\
     transposed s.(Server.totalClients) C allUploads UpBlock.BC2 BYs).
Proof.
  cbv zeta. intros Hs. unfold shuffleUploads in Hs. expose.
  apply steps_Act_inv in Hs as
    [([=] & _)|[(a & m & _ & [=] & _)|(a & b & t' & [= <- <- <-] & _ & Hs)]].
  destruct (negb _); [by apply steps_Ret_inv in Hs as ([=] & _)|].
  apply steps_Recv_inv in Hs as [([=] & _)|(ch & m & t2 & _ & [= <- <- <-] & Hs)].
  destruct (chunk_count_spec first rest) as [Hiff Hcases].
  apply steps_Act_inv in Hs as
    [([=] & _)|[(a & m & [= <-] & Hf & ->)|(a & b & t3 & [= <- <- <-] & Hf & Hs)]].
  - (* the statement panicked *)
    destruct Hcases as [Hok|Herr].
    + rewrite Hok in Hf. simpl in Hf. split.
      * split.
        -- intros [= ->].
           destruct (transpose _ _ _) as [?|m'] eqn:Et; simpl in Hf; [done|].
           injection Hf as ->. by apply transpose_Err in Et as [Et|Et].
        -- intros Hex. apply Hiff in Hex. congruence.
      * intros Hwf Hlen.
        destruct (transpose_total _ _ _ Hlen Hwf) as (BXs & BYs & Ht).
        rewrite Ht in Hf. simpl in Hf. done.
    + rewrite Herr in Hf. injection Hf as <-. split; [by rewrite <- Hiff|].
      intros Hwf _. apply Hiff in Herr as (u & Hu & Hne).
      by destruct (Hwf u Hu).
  - (* the statement ran *)
    apply steps_nil_inv in Hs as ->.
    apply bind_Ok in Hf as (C' & HC & Hf).
    apply bind_Ok in Hf as ([BXs BYs] & Ht & _).
    destruct Hcases as [Hok|Herr]; [|congruence].
    assert (C' = len (UpBlock.BC1 first)) as -> by congruence.
    rewrite Hok, Ht. split.
    + split; [unfold shuffle_and_hand_off, shuffle; by expose|].
      intros Hex. apply Hiff in Hex. congruence.
    + intros _ _. exists BXs, BYs. split; [done|]. by apply transpose_Ok.
Qed.

End ShuffleUploadsProps.

(** Two clients, two chunks each: the batch passes the check and is
    transposed. *)
Lemma shuffleUploads_chunk_check_witness :
  let allUploads := [UpBlock.mk [[1]; [2]] [[3]; [4]];
                     UpBlock.mk [[5]; [6]] [[7]; [8]]] in
  exists q BXs BYs,
    steps (@shuffleUploads toy_suite toy_lib)
      [EvAct "if !s.regDone { return }" toy_registered toy_registered;
       EvRecv 2%nat (MUpBlocks allUploads);
       EvAct "numBlockChunks := len(allUploads[0].BC1); ...; BXs[i][j] = ...; BYs[i][j] = ..."
         toy_registered toy_registered]
      q [] /\
    q = @shuffle_and_hand_off toy_suite toy_lib allUploads BXs BYs 2 /\
    @transposed toy_suite toy_lib 2 2 allUploads UpBlock.BC1 BXs /\
    @transposed toy_suite toy_lib 2 2 allUploads UpBlock.BC2 BYs.
Proof.
  intros allUploads.
  destruct (@shuffleUploads_prefix toy_suite toy_lib toy_registered allUploads
              toy_registered eq_refl) as [q Hq].
  destruct (@shuffleUploads_chunk_check toy_suite toy_lib toy_registered 2%nat
              (UpBlock.mk [[1]; [2]] [[3]; [4]])
              [UpBlock.mk [[5]; [6]] [[7]; [8]]]
              toy_registered toy_registered q [] Hq) as [_ Hgo].
  destruct Hgo as (BXs & BYs & Hgo).
  - intros u [<-|[<-|[]]]; split; reflexivity.
  - reflexivity.
  - exists q, BXs, BYs. split; [exact Hq|exact Hgo].
Defined.

(** ** PutUploadedBlocks *)
Section PutUploadedBlocksProps.
Context `{L : Lib}.

Lemma hash_blocks_snoc blocks b upHashes :
  hash_blocks (blocks ++ [b]) upHashes =
  (h ← hash_blocks blocks upHashes;
   store h (Z.of_nat (length blocks)) (Hash.Sum Suite_Hash b.(Block.Block))).
Proof.
  unfold hash_blocks. rewrite imap_app, foldl_app. simpl.
  by rewrite Nat.add_0_r.
Qed.

(** The hashing loop writes slot [j] for every block [j], with the block
    followed by the digest of the empty string, and no other slot. *)
Lemma hash_blocks_Ok blocks upHashes h :
  hash_blocks blocks upHashes = Ok h ->
  length h = length upHashes /\
  (forall j block, blocks !! j = Some block ->
     h !! j = Some (block.(Block.Block) ++ digest [])) /\
  (forall j, (length blocks <= j)%nat -> h !! j = upHashes !! j).
Proof.
  revert h. induction blocks as [|b blocks IH] using rev_ind; intros h.
  - intros [= <-]. split; [done|]. split; [done|]. done.
  - rewrite hash_blocks_snoc.
    intros (h0 & Hh0 & [Hr ->]%store_Ok)%bind_Ok.
    destruct (IH _ Hh0) as (Hlen & Hin & Hout).
    rewrite Nat2Z.id. unfold len in Hr.
    split; [by rewrite length_insert|]. split.
    + intros j block Hj.
      destruct (decide (j = length blocks)) as [->|Hne].
      * rewrite list_lookup_middle in Hj by done. injection Hj as <-.
        rewrite list_lookup_insert_eq by lia. done.
      * rewrite list_lookup_insert_ne by done. apply Hin.
        rewrite lookup_app_l in Hj; [done|].
        apply lookup_lt_Some in Hj. rewrite length_app in Hj. simpl in Hj. lia.
    + intros j Hj. rewrite length_app in Hj. simpl in Hj.
      rewrite list_lookup_insert_ne by lia. apply Hout. lia.
Qed.

(** The loop panics exactly when there are more blocks than slots. *)
Lemma hash_blocks_total blocks upHashes :
  (length blocks <= length upHashes)%nat ->
  exists h, hash_blocks blocks upHashes = Ok h.
Proof.
  induction blocks as [|b blocks IH] using rev_ind; intros Hlen.
  - by eexists.
  - rewrite length_app in Hlen. simpl in Hlen.
    destruct IH as [h Hh]; [lia|]. rewrite hash_blocks_snoc.
    unfold mbind, Result_bind. rewrite Hh. simpl.
    destruct (hash_blocks_Ok _ _ _ Hh) as (Hl & _).
    rewrite store_in_range; [by eexists|]. unfold len. lia.
Qed.

(** C2. What [PutUploadedBlocks(blocks)] stores in [upHashes[j]] is not
    the hash of [blocks[j].Block]: [Suite.Hash().Sum(b)] appends to [b]
    the digest of what was written to the fresh hash, which is nothing.
    The first statement of a call that returns leaves in [upHashes[j]],
    for every block [j], the bytes of the block followed by the digest of
    the empty string; with a digest of fixed length this is never the
    digest of a non-empty block. *)
Theorem PutUploadedBlocks_upHashes (blocks : list Block.t) t (j : nat) block :
  returns (PutUploadedBlocks blocks) t tt ->
  blocks !! j = Some block ->
  exists a b t',
    t = EvAct "for i := range *blocks { s.upHashes[i] = Suite.Hash().Sum(...) }" a b
          :: t' /\
    Server.upHashes b !! j = Some (block.(Block.Block) ++ digest []) /\
    ((forall x y, length (digest x) = length (digest y)) ->
     block.(Block.Block) <> [] ->
     Server.upHashes b !! j <> Some (digest block.(Block.Block))).
Proof.
  intros Hr Hj. unfold PutUploadedBlocks in Hr. run1 Hr. subst.
  match goal with
  | Hb : bind _ _ = Ok _ |- _ => apply bind_Ok in Hb as (h & Hh & [= <-])
  end.
  destruct (hash_blocks_Ok _ _ _ Hh) as (_ & Hin & _).
  do 3 eexists. split; [reflexivity|]. cbn. rewrite (Hin j block Hj).
  split; [done|]. intros Hfix Hne [= Heq].
  apply (f_equal length) in Heq. rewrite length_app, (Hfix [] (Block.Block block)) in Heq.
  destruct (Block.Block block); [done|]. simpl in Heq. lia.
Qed.

End PutUploadedBlocksProps.

(** One block [[1; 2]] put on the registered toy server, whose digest is
    the XOR of the bytes: [upHashes[0]] becomes [[1; 2; 0]], not [[3]]. *)
Lemma PutUploadedBlocks_upHashes_witness :
  exists t s',
    exec (@PutUploadedBlocks toy_suite [Block.mk [1; 2] 0]) toy_registered []
      = Some (tt, t, s', []) /\
    Server.upHashes s' !! 0%nat = Some [1; 2; 0] /\
    @digest toy_suite [1; 2] = [3].
Proof.
  destruct (exec (@PutUploadedBlocks toy_suite [Block.mk [1; 2] 0])
              toy_registered []) as [[[[[] t] s'] ins]|] eqn:E;
    [|vm_compute in E; discriminate].
  assert (ins = []) as -> by (vm_compute in E; congruence).
  exists t, s'. split; [reflexivity|].
  destruct (exec_sound _ _ _ _ _ _ _ E) as [Hr Hc].
  destruct (@PutUploadedBlocks_upHashes toy_suite [Block.mk [1; 2] 0] t
              0%nat (Block.mk [1; 2] 0) Hr eq_refl)
    as (a & b & t' & Ht & Hup & _).
  split; [|reflexivity].
  clear -E. vm_compute in E. injection E as _ <-. reflexivity.
Defined.

(** ** Events of a fork *)

Lemma interleave_In {A} (tss : list (list A)) t e :
  interleave tss t -> In e t -> exists i ts, tss !! i = Some ts /\ In e ts.
Proof.
  induction 1 as [tss Hnil|tss i e0 ts t Hi Hint IH]; [done|].
  intros [->|Hin]; [exists i, (e :: ts); split; [done|by left]|].
  destruct (IH Hin) as (j & tsj & Hj & Hinj).
  destruct (decide (j = i)) as [->|Hne].
  - rewrite list_lookup_insert_eq in Hj by (eapply lookup_lt_Some; eauto).
    injection Hj as <-. exists i, (e0 :: ts). split; [done|by right].
  - rewrite list_lookup_insert_ne in Hj by done. eauto.
Qed.

Lemma In_interleave {A} (tss : list (list A)) t i ts e :
  interleave tss t -> tss !! i = Some ts -> In e ts -> In e t.
Proof.
  intros Hint. revert i ts.
  induction Hint as [tss Hnil|tss j e0 ts0 t Hj Hint IH]; intros i ts Hts Hin.
  - pose proof (Forall_lookup_1 _ _ _ _ Hnil Hts) as <-. done.
  - destruct (decide (i = j)) as [->|Hne].
    + rewrite Hj in Hts. injection Hts as <-. destruct Hin as [->|Hin]; [by left|].
      right. apply (IH j ts0); [|done].
      apply list_lookup_insert_eq. eapply lookup_lt_Some; eauto.
    + right. apply (IH i ts); [|done]. by rewrite list_lookup_insert_ne.
Qed.

(** ** shuffle *)
Section ShuffleProps.
Context `{L : Lib}.



End ShuffleProps.


(** ** Register *)
Section RegisterProps.
Context `{L : Lib}.

Lemma call_each_returns rpcServers req fatal t :
  returns (call_each rpcServers req fatal) t tt ->
  exists obs, length obs = length rpcServers /\ t = call_trace req rpcServers obs.
Proof.
  revert t. induction rpcServers as [|c cs IH]; intros t Hr; simpl in Hr.
  - apply returns_Ret in Hr as [-> _]. by exists [].
  - run1 Hr. run1 Hr. subst.
    match goal with Hb : Ok _ = Ok _ |- _ => injection Hb as <- end.
    match goal with x : Result bytes |- _ => destruct x as [reply|]; [|by run1 Hr] end.
    destruct (IH _ Hr) as (obs & Hlen & ->).
    match goal with
    | |- context [EvAct _ ?s ?s] => exists ((s, reply) :: obs)
    end.
    split; [simpl; by rewrite Hlen|reflexivity].
Qed.

(** C7. A call of [Register(client, clientId)] that returns took
    [regLock[0]], read [totalClients] into [*clientId], incremented it,
    and released the lock, in this order and with nothing of its own in
    between; with every other goroutine leaving the counter and the lock
    alone while the lock is held, the counter went from [*clientId] at
    the moment the lock was taken to [*clientId + 1] (in [int]
    arithmetic) at the moment it was released.  It then called
    [Register2(client)] on every client of [rpcServers] in order (the
    local server is among them), read [totalClients] again, and, exactly
    when that was [NumClients], called [RegisterDone2] on every client of
    [rpcServers] with the [totalClients] of the moment. *)
Theorem Register_returns (R : Server.t -> Server.t -> Prop)
    (client : ClientRegistration.t) t clientId s s' :
  (forall a b, R a b -> Server.regLock a !! 0%nat = Some true ->
     Server.totalClients b = Server.totalClients a /\
     Server.regLock b !! 0%nat = Some true) ->
  returns (Register client) t clientId ->
  chained R s t s' ->
  exists a0 a1 a2 a3 a4 a5 obs tdone,
    t = EvLock 0 a0 (lock_held 0 true a0)
        :: EvAct "*clientId = s.totalClients" a1 a1
        :: EvAct "s.totalClients++" a2
             (Server.set_totalClients (int_add a2.(Server.totalClients) 1) a2)
        :: EvUnlock 0 a3 (lock_held 0 false a3)
        :: EvAct "for _, rpcServer := range s.rpcServers" a4 a4
        :: call_trace (fun _ => Server_Register2 client) a4.(Server.rpcServers) obs
        ++ EvAct "if s.totalClients == NumClients" a5 a5 :: tdone /\
    length obs = length a4.(Server.rpcServers) /\
    clientId = a0.(Server.totalClients) /\
    a1.(Server.totalClients) = clientId /\
    a2.(Server.totalClients) = clientId /\
    a3.(Server.totalClients) = int_add clientId 1 /\
    (int_min <= clientId < int_max -> a3.(Server.totalClients) = clientId + 1) /\
    (a5.(Server.totalClients) <> NumClients -> tdone = []) /\
    (a5.(Server.totalClients) = NumClients ->
     exists a6 obs',
       tdone = EvAct "for _, rpcServer := range s.rpcServers" a6 a6
               :: call_trace (fun s => Server_RegisterDone2 s.(Server.totalClients))
                    a6.(Server.rpcServers) obs' /\
       length obs' = length a6.(Server.rpcServers)).
Proof.
  intros HR Hr Hc. unfold Register in Hr.
  run1 Hr. run1 Hr. run1 Hr. run1 Hr. run1 Hr. subst.
  repeat match goal with Hb : Ok _ = Ok _ |- _ => injection Hb as <- end.
  apply returns_bind_inv in Hr as ([] & t1 & t2 & -> & Hcalls & Hr).
  apply call_each_returns in Hcalls as (obs & Hlen & ->).
  run1 Hr. subst.
  match goal with Hb : Ok _ = Ok _ |- _ => injection Hb as <- end.
  apply returns_bind_inv in Hr as ([] & t3 & t4 & -> & Hdone & Hr).
  apply returns_Ret in Hr as [-> ->]. rewrite app_nil_r.
  simpl in Hc. destruct Hc as (_ & Hc1 & Hc2 & Hc3 & _).
  match goal with
  | Hl : Server.regLock ?a !! 0%nat = Some false |- _ => rename a into a0
  end.
  assert (Server.regLock (lock_held 0 true a0) !! 0%nat = Some true) as Hheld.
  { unfold lock_held. cbn. apply list_lookup_insert_eq.
    eapply lookup_lt_Some; eauto. }
  destruct (HR _ _ Hc1 Hheld) as [E1 Hheld1].
  destruct (HR _ _ Hc2 Hheld1) as [E2 Hheld2].
  destruct (HR _ _ Hc3 Hheld2) as [E3 _].
  cbn in E1, E3.
  do 8 eexists. split; [reflexivity|]. split; [exact Hlen|].
  split; [congruence|]. split; [reflexivity|]. split; [congruence|].
  split; [congruence|]. split.
  { intros Hlt. rewrite E3, E2. unfold int_add. apply int_wrap_small.
    unfold int_min, int_max in *. lia. }
  split.
  - intros Hne. destruct (decide _); [done|]. by apply returns_Ret in Hdone as [-> _].
  - intros Heq. destruct (decide _); [|done].
    unfold RegisterDone in Hdone. run1 Hdone. subst.
    match goal with Hb : Ok _ = Ok _ |- _ => injection Hb as <- end.
    apply call_each_returns in Hdone as (obs' & Hlen' & ->).
    eauto.
Qed.

End RegisterProps.

(** The second of two clients registers on the toy server: it gets id 1,
    and since [NumClients] is 2 the call goes on to [RegisterDone2(2)]. *)
Lemma Register_returns_witness :
  exists t s',
    exec (@Register toy_suite toy_lib (ClientRegistration.mk "10.0.0.9:1" 0 1))
      (Server.set_totalClients 1
         (Server.set_rpcServers ["127.0.0.1:8000"; "10.0.0.2:8000"] toy_new))
      [InCall (Ok []); InCall (Ok []); InCall (Ok []); InCall (Ok [])]
      = Some (1, t, s', []) /\
    Server.totalClients s' = 2 /\
    In (EvCall "10.0.0.2:8000" (Server_RegisterDone2 2) (Ok [])) t.
Proof.
  destruct (exec (@Register toy_suite toy_lib (ClientRegistration.mk "10.0.0.9:1" 0 1))
      (Server.set_totalClients 1
         (Server.set_rpcServers ["127.0.0.1:8000"; "10.0.0.2:8000"] toy_new))
      [InCall (Ok []); InCall (Ok []); InCall (Ok []); InCall (Ok [])])
    as [[[[clientId t] s'] ins]|] eqn:E; [|vm_compute in E; discriminate].
  assert (ins = []) as -> by (vm_compute in E; congruence).
  destruct (exec_sound _ _ _ _ _ _ _ E) as [Hr Hc].
  destruct (@Register_returns toy_suite toy_lib eq _ t clientId _ s'
              ltac:(by intros a b ->) Hr Hc)
    as (a0 & a1 & a2 & a3 & a4 & a5 & obs & tdone & Ht & _ & Hid & _).
  assert (clientId = 1) as ->.
  { rewrite Hid. rewrite Ht in Hc. simpl in Hc. destruct Hc as [<- _]. reflexivity. }
  exists t, s'. split; [reflexivity|].
  clear -E. vm_compute in E. injection E as <- <-. split; [reflexivity|].
  simpl. tauto.
Defined.

(** ** handleRequest and GetReqHashes *)
Section HandleRequestProps.
Context `{L : Lib}.

Lemma notify_trace_hosted rdy u g :
  notify_trace rdy u -> In (EvGo g) u ->
  exists sg i, g = signal rdy i /\
    map_get sg.(Server.clientMap) i = sg.(Server.id) /\
    In (EvAct "if s.clientMap[i] != s.id { continue }" sg sg) u.
Proof.
  induction 1 as [|s u Hu IH|s i u Hi Hu IH]; simpl; intros Hin.
  - done.
  - destruct Hin as [[=]|Hin]. destruct (IH Hin) as (sg & i & ? & ? & ?).
    exists sg, i. auto.
  - destruct Hin as [[=]|[[= <-]|Hin]].
    + exists s, i. auto.
    + destruct (IH Hin) as (sg & j & ? & ? & ?). exists sg, j. auto.
Qed.

Lemma notify_trace_act rdy u l a b :
  notify_trace rdy u -> In (EvAct l a b) u ->
  l = "if s.clientMap[i] != s.id { continue }".
Proof.
  induction 1 as [|s u Hu IH|s i u Hi Hu IH]; simpl; intros Hin.
  - done.
  - destruct Hin as [[= <- _ _]|Hin]; auto.
  - destruct Hin as [[= <- _ _]|[[=]|Hin]]; auto.
Qed.

(** The run of the goroutine that signals readiness. *)
Lemma signal_steps rdy i ts q sp c m :
  steps (signal rdy i) ts q sp -> In (EvSend c m) ts ->
  exists sg, ts = [EvAct "rdy[i]" sg sg; EvSend c (MBool true)] /\
             index (rdy sg) i = Some c /\ m = MBool true.
Proof.
  unfold signal. expose. intros Hs Hin.
  apply steps_Act_inv in Hs as
    [(-> & ->)|[(a & m' & -> & Hf & ->)|(a & b & t' & -> & Hf & Hs)]];
    [done|by destruct Hin as [[=]|[]]|].
  apply bind_Ok in Hf as (ch & Hch%at_index_Ok & [= <-]).
  rewrite Hch in Hs.
  apply steps_Send_inv in Hs as [(-> & ->)|(ch' & t2 & [= <-] & -> & Hs)];
    [by destruct Hin as [[=]|[]]|].
  apply steps_Ret_inv in Hs as (-> & _).
  destruct Hin as [[=]|[[= <- <-]|[]]]. eauto.
Qed.

Lemma request_share_steps i ts q sp e :
  steps (request_share i) ts q sp -> In e ts ->
  (exists s, e = EvAct "s.requestsChan[i]" s s) \/ (exists c m, e = EvRecv c m).
Proof.
  unfold request_share. expose. intros Hs Hin.
  apply steps_Act_inv in Hs as
    [(-> & ->)|[(a & m' & -> & Hf & ->)|(a & b & t' & -> & Hf & Hs)]];
    [done|destruct Hin as [<-|[]]; eauto|].
  apply bind_Ok in Hf as (ch & _ & [= <-]).
  destruct Hin as [<-|Hin]; [eauto|].
  apply steps_Recv_inv in Hs as [(-> & ->)|(ch' & m & t2 & _ & -> & Hs)]; [done|].
  destruct Hin as [<-|Hin]; [eauto|].
  destruct m; first [apply steps_Ret_inv in Hs as (-> & _)
                    |apply steps_Crash_inv in Hs as (-> & _)]; done.
Qed.

Lemma request_share_returns i ts r :
  returns (request_share i) ts r ->
  exists s c req,
    ts = [EvAct "s.requestsChan[i]" s s; EvRecv c (MRequest req)] /\
    index s.(Server.requestsChan) i = Some c /\
    r = req.(Request.Hash).
Proof.
  unfold request_share. intros Hr. run1 Hr. run1 Hr. subst.
  match goal with
  | Hb : bind _ _ = Ok _ |- _ =>
      apply bind_Ok in Hb as (ch & Hch%at_index_Ok & [= <-])
  end.
  match goal with m : msg |- _ => destruct m end; run1 Hr. subst.
  rewrite Hch in *.
  match goal with Hc : Some _ = Some _ |- _ => injection Hc as <- end.
  eauto 10.
Qed.

(** A run of [handleRequest], complete or not: either it has not written
    [reqHashes] yet, and then it has started no goroutine and sent
    nothing; or it has received one request from every client, then
    written, and is somewhere in the loop that signals. *)
Lemma handleRequest_steps t q sp :
  steps handleRequest t q sp ->
  ((forall g, ~ In (EvGo g) t) /\
   (forall c m, ~ In (EvSend c m) t) /\
   (forall a b, ~ In (EvAct "s.reqHashes = XorsDC(allRequests)" a b) t)) \/
  (exists s0 s1 tss allRequests tpar a u,
     t = EvAct "if !s.regDone { return }" s0 s0
         :: EvAct "allRequests := make([][][]byte, s.totalClients)" s1 s1
         :: tpar ++ EvWait
         :: EvAct "s.reqHashes = XorsDC(allRequests)" a
              (Server.set_reqHashes (XorsDC allRequests) a)
         :: u /\
     Server.regDone s0 = true /\
     interleave tss tpar /\
     length tss = Z.to_nat (Server.totalClients s1) /\
     length allRequests = Z.to_nat (Server.totalClients s1) /\
     (forall i : nat, (i < Z.to_nat (Server.totalClients s1))%nat ->
        exists si ci req,
          tss !! i = Some [EvAct "s.requestsChan[i]" si si; EvRecv ci (MRequest req)] /\
          index si.(Server.requestsChan) (Z.of_nat i) = Some ci /\
          allRequests !! i = Some req.(Request.Hash)) /\
     (u = [] \/
      exists sn u', u = EvAct "for i := range rdy" sn sn :: u' /\
                    notify_trace Server.reqHashesRdy u')).
Proof.
  unfold handleRequest, notify_hosted. expose. intros Hs.
  apply steps_Act_inv in Hs as
    [(-> & ->)|[(a & m & -> & [=] & ->)|(s0 & b & t' & -> & [= <-] & Hs)]];
    [left; repeat split; intros; intros []|].
  destruct (Server.regDone s0) eqn:Hdone; cbn [negb] in Hs.
  2:{ apply steps_Ret_inv in Hs as (-> & _).
      left. repeat split; intros; by intros [[=]|[]]. }
  apply steps_Act_inv in Hs as
    [(-> & ->)|[(a & m & -> & Hf & ->)|(s1 & b & t1' & -> & Hf & Hs)]].
  { left. repeat split; intros; by intros [[=]|[]]. }
  { left. repeat split; intros; by intros [[=]|[[=]|[]]]. }
  apply bind_Ok in Hf as (n & _ & [= <-]).
  assert (forall tss (qs : list (prog (list bytes))) tpar e,
            par_runs (map request_share (upto (Server.totalClients s1))) tss qs ->
            interleave tss tpar -> In e tpar ->
            (exists s, e = EvAct "s.requestsChan[i]" s s) \/
            (exists c m, e = EvRecv c m)) as Hchild.
  { intros tss qs tpar e (Hl1 & Hl2 & Hruns) Hint Hin.
    destruct (interleave_In _ _ _ Hint Hin) as (i & ts & Hts & Hin').
    assert (i < length (map request_share (upto (Server.totalClients s1))))%nat
      as Hi by (apply lookup_lt_Some in Hts; lia).
    destruct (lookup_lt_is_Some_2 _ _ Hi) as [p Hp].
    assert (i < length qs)%nat as Hi' by lia.
    destruct (lookup_lt_is_Some_2 _ _ Hi') as [q' Hq'].
    destruct (Hruns _ _ _ _ Hp Hts Hq') as [sp' Hsteps].
    rewrite list_lookup_fmap in Hp.
    destruct (upto _ !! i) as [z|]; [|done]. injection Hp as <-.
    by eapply request_share_steps. }
  apply steps_Par_inv in Hs as
    [(tss & qs & Hr & Hi & ->)
    |[(tss & qs & m & t1 & Hr & Hi & Hin & -> & ->)
     |(tss & rs & t1 & t2 & sp2 & Hr & Hi & -> & Hs)]].
  { left. repeat split; intros; intros [[=]|[[=]|Hin]];
      destruct (Hchild _ _ _ _ Hr Hi Hin) as [[? [=]]|(? & ? & [=])]. }
  { left. repeat split; intros; intros [[=]|[[=]|Hin']];
      apply in_app_or in Hin' as [Hin'|[[=]|[]]];
      destruct (Hchild _ _ _ _ Hr Hi Hin') as [[? [=]]|(? & ? & [=])]. }
  apply steps_Act_inv in Hs as
    [(-> & ->)|[(a & m & -> & [=] & ->)|(a & b & t3' & -> & [= <-] & Hs)]].
  { left. repeat split; intros; intros [[=]|[[=]|Hin']];
      apply in_app_or in Hin' as [Hin'|[[=]|[]]];
      destruct (Hchild _ _ _ _ Hr Hi Hin') as [[? [=]]|(? & ? & [=])]. }
  right. exists s0, s1, tss, rs, t1, a, t3'.
  apply par_runs_returns in Hr. apply par_returns_map in Hr as (Hl1 & Hl2 & Hpar).
  rewrite length_upto in Hl1, Hl2.
  split; [reflexivity|]. split; [done|]. split; [done|].
  split; [done|]. split; [done|]. split.
  - intros i Hi'.
    destruct (Hpar i (Z.of_nat i)) as (ts & r & Hts & Hrs & Hret);
      [by apply lookup_upto|].
    apply request_share_returns in Hret as (si & ci & req & -> & Hci & ->).
    eauto 10.
  - apply steps_Act_inv in Hs as
      [(-> & ->)|[(a2 & m & -> & [=] & ->)|(sn & b & u' & -> & [= <-] & Hs)]];
      [by left|].
    right. exists sn, u'. split; [done|]. by eapply notify_shape.
Qed.

Lemma GetReqHashes_returns id t hashes :
  returns (GetReqHashes id) t hashes ->
  exists s1 c m s2,
    t = [EvAct "s.reqHashesRdy[id]" s1 s1; EvRecv c m;
         EvAct "*hashes = s.reqHashes" s2 s2] /\
    index s1.(Server.reqHashesRdy) id = Some c /\
    hashes = s2.(Server.reqHashes).
Proof.
  unfold GetReqHashes. intros Hr. run1 Hr. run1 Hr. run1 Hr. run1 Hr. subst.
  match goal with
  | Hb : bind _ _ = Ok _ |- _ =>
      apply bind_Ok in Hb as (ch & Hch%at_index_Ok & [= <-])
  end.
  match goal with Hb : Ok _ = Ok _ |- _ => injection Hb as <- end.
  rewrite Hch in *.
  match goal with Hc : Some _ = Some _ |- _ => injection Hc as <- end.
  eauto 10.
Qed.

Lemma XorsDC_lookup (allRequests : list (list bytes)) :
  length (XorsDC allRequests) = length (hd [] allRequests) /\
  forall k : nat, (k < length (hd [] allRequests))%nat ->
    XorsDC allRequests !! k =
      Some (Xors (map (fun share => nth k share []) allRequests)).
Proof.
  unfold XorsDC. split; [apply length_imap|].
  intros k Hk. rewrite list_lookup_imap.
  destruct (lookup_lt_is_Some_2 _ _ Hk) as [x ->]. done.
Qed.

(** C5. In a run of [handleRequest], complete or not:
    - if [reqHashes] has been written, the run had before that received
      one request from [requestsChan[i]] for every client
      [i < totalClients] (each in a goroutine of its own, all of them
      joined), and what it wrote is [XorsDC] of the hash vectors of these
      requests in client order: as many entries as the first vector has,
      entry [k] the XOR of the [k]-th entries of all the vectors;
    - every goroutine it has started was started after that write, for a
      client [i] with [clientMap[i] == s.id] at that moment, and is the
      one that sends [true] on [reqHashesRdy[i]];
    - [handleRequest] itself sends on no channel.
    And a call of [GetReqHashes(id)] that returns has received from
    [reqHashesRdy[id]] before it read the [reqHashes] it returns. *)
Theorem handleRequest_publishes t q sp :
  steps handleRequest t q sp ->
  (forall a b, In (EvAct "s.reqHashes = XorsDC(allRequests)" a b) t ->
     exists s0 s1 tss allRequests tpar u,
       t = EvAct "if !s.regDone { return }" s0 s0
           :: EvAct "allRequests := make([][][]byte, s.totalClients)" s1 s1
           :: tpar ++ EvWait
           :: EvAct "s.reqHashes = XorsDC(allRequests)" a b :: u /\
       interleave tss tpar /\
       length allRequests = Z.to_nat (Server.totalClients s1) /\
       (forall i : nat, (i < Z.to_nat (Server.totalClients s1))%nat ->
          exists si ci req,
            tss !! i = Some [EvAct "s.requestsChan[i]" si si;
                             EvRecv ci (MRequest req)] /\
            index si.(Server.requestsChan) (Z.of_nat i) = Some ci /\
            allRequests !! i = Some req.(Request.Hash)) /\
       Server.reqHashes b = XorsDC allRequests /\
       length (Server.reqHashes b) = length (hd [] allRequests) /\
       (forall k : nat, (k < length (hd [] allRequests))%nat ->
          Server.reqHashes b !! k =
            Some (Xors (map (fun share => nth k share []) allRequests)))) /\
  (forall g, In (EvGo g) t ->
     exists pre a b post sg i,
       t = pre ++ EvAct "s.reqHashes = XorsDC(allRequests)" a b :: post /\
       In (EvGo g) post /\
       g = signal Server.reqHashesRdy i /\
       map_get sg.(Server.clientMap) i = sg.(Server.id) /\
       In (EvAct "if s.clientMap[i] != s.id { continue }" sg sg) post) /\
  (forall c m, ~ In (EvSend c m) t) /\
  (forall i ts q' sp' c m,
     steps (signal Server.reqHashesRdy i) ts q' sp' -> In (EvSend c m) ts ->
     exists sg, ts = [EvAct "rdy[i]" sg sg; EvSend c (MBool true)] /\
                index sg.(Server.reqHashesRdy) i = Some c /\ m = MBool true) /\
  (forall id tg hashes,
     returns (GetReqHashes id) tg hashes ->
     exists s1 c m s2,
       tg = [EvAct "s.reqHashesRdy[id]" s1 s1; EvRecv c m;
             EvAct "*hashes = s.reqHashes" s2 s2] /\
       index s1.(Server.reqHashesRdy) id = Some c /\
       hashes = s2.(Server.reqHashes)).
Proof.
  intros Hs.
  split; [|split; [|split; [|split]]];
    [| | |intros; by eapply signal_steps|intros; by apply GetReqHashes_returns].
  - intros a b Hin.
    apply handleRequest_steps in Hs as
      [(_ & _ & Hno)|(s0 & s1 & tss & allRequests & tpar & a' & u & -> & Hdone &
                      Hint & Hl1 & Hl2 & Hrecv & Hu)];
      [by destruct (Hno a b)|].
    assert (a' = a /\ b = Server.set_reqHashes (XorsDC allRequests) a) as [-> ->].
    { destruct Hin as [[=]|[[=]|Hin]].
      apply in_app_or in Hin as [Hin|[[=]|[Hin|Hin]]].
      - destruct (interleave_In _ _ _ Hint Hin) as (i & ts & Hts & Hin').
        assert (i < Z.to_nat (Server.totalClients s1))%nat as Hi
          by (apply lookup_lt_Some in Hts; lia).
        destruct (Hrecv i Hi) as (si & ci & req & Hts' & _).
        rewrite Hts' in Hts. injection Hts as <-.
        by destruct Hin' as [[=]|[[=]|[]]].
      - by injection Hin as -> <-.
      - destruct Hu as [->|(sn & u' & -> & Hn)]; [done|].
        destruct Hin as [[=]|Hin]. by apply (notify_trace_act _ _ _ _ _ Hn) in Hin. }
    exists s0, s1, tss, allRequests, tpar, u.
    destruct (XorsDC_lookup allRequests) as [HX1 HX2].
    repeat split; auto.
  - intros g Hin.
    apply handleRequest_steps in Hs as
      [(Hno & _)|(s0 & s1 & tss & allRequests & tpar & a & u & -> & Hdone &
                  Hint & Hl1 & Hl2 & Hrecv & Hu)];
      [by destruct (Hno g)|].
    destruct Hin as [[=]|[[=]|Hin]].
    apply in_app_or in Hin as [Hin|[[=]|[[=]|Hin]]].
    { destruct (interleave_In _ _ _ Hint Hin) as (i & ts & Hts & Hin').
      assert (i < Z.to_nat (Server.totalClients s1))%nat as Hi
        by (apply lookup_lt_Some in Hts; lia).
      destruct (Hrecv i Hi) as (si & ci & req & Hts' & _).
      rewrite Hts' in Hts. injection Hts as <-.
      by destruct Hin' as [[=]|[[=]|[]]]. }
    destruct Hu as [->|(sn & u' & -> & Hn)]; [done|].
    destruct Hin as [[=]|Hin].
    destruct (notify_trace_hosted _ _ _ Hn Hin) as (sg & i & -> & Hhost & Hread).
    eexists (_ :: _ :: tpar ++ [EvWait]), a, _, _, sg, i.
    split; [by rewrite <- !app_comm_cons, <- app_assoc|].
    split; [by right|]. split; [done|]. split; [done|]. by right.
  - intros c m Hin.
    apply handleRequest_steps in Hs as
      [(_ & Hno & _)|(s0 & s1 & tss & allRequests & tpar & a & u & -> & Hdone &
                      Hint & Hl1 & Hl2 & Hrecv & Hu)];
      [by destruct (Hno c m)|].
    destruct Hin as [[=]|[[=]|Hin]].
    apply in_app_or in Hin as [Hin|[[=]|[[=]|Hin]]].
    { destruct (interleave_In _ _ _ Hint Hin) as (i & ts & Hts & Hin').
      assert (i < Z.to_nat (Server.totalClients s1))%nat as Hi
        by (apply lookup_lt_Some in Hts; lia).
      destruct (Hrecv i Hi) as (si & ci & req & Hts' & _).
      rewrite Hts' in Hts. injection Hts as <-.
      by destruct Hin' as [[=]|[[=]|[]]]. }
    destruct Hu as [->|(sn & u' & -> & Hn)]; [done|].
    destruct Hin as [[=]|Hin]. by apply (notify_trace_send _ _ _ _ Hn) in Hin.
Qed.

End HandleRequestProps.

(** Both clients of the toy server send a request of two hashes; client
    0 is hosted here. *)
Lemma handleRequest_publishes_witness :
  exists t s',
    exec (@handleRequest toy_suite) toy_registered
      [InMsg (MRequest (Request.mk [[1; 2]; [3; 4]] 0));
       InMsg (MRequest (Request.mk [[5; 6]; [7; 8]] 0))]
      = Some (tt, t, s', []) /\
    Server.reqHashes s' = [[4; 4]; [4; 12]] /\
    spawned t = [@signal toy_suite Server.reqHashesRdy 0] /\
    forall c m, ~ In (EvSend c m) t.
Proof.
  destruct (exec (@handleRequest toy_suite) toy_registered
      [InMsg (MRequest (Request.mk [[1; 2]; [3; 4]] 0));
       InMsg (MRequest (Request.mk [[5; 6]; [7; 8]] 0))])
    as [[[[[] t] s'] ins]|] eqn:E; [|vm_compute in E; discriminate].
  assert (ins = []) as -> by (vm_compute in E; congruence).
  exists t, s'. split; [reflexivity|].
  destruct (exec_sound _ _ _ _ _ _ _ E) as [[sp Hs] Hc].
  destruct (@handleRequest_publishes toy_suite t _ sp Hs)
    as (_ & _ & Hnosend & _).
  split; [|split; [|exact Hnosend]].
  - clear -E. vm_compute in E. injection E as _ <-. reflexivity.
  - clear -E. vm_compute in E. injection E as <- _. reflexivity.
Defined.


(** ** The pipeline stages *)
Section StageProps.
Context `{L : Lib}.

(** X6. While registration is not done, each of the five stages [MainLoop]
    starts returns at once: it receives nothing, calls nobody and
    starts no goroutine. *)
Theorem stages_idle_before_RegisterDone2 (stage : prog unit) s0 t q sp :
  In stage [handleResponse; handleUpload; gatherUploads; shuffleUploads;
            handleRequest] ->
  steps stage (EvAct "if !s.regDone { return }" s0 s0 :: t) q sp ->
  Server.regDone s0 = false ->
  t = [] /\ q = Ret tt /\ sp = [].
Proof.
  intros Hin Hs Hdone.
  assert (exists k, stage = Act "if !s.regDone { return }" Ok
            (fun s => if negb s.(Server.regDone) then Ret tt else k s))
    as [k ->].
  { simpl in Hin.
    destruct Hin as [<-|[<-|[<-|[<-|[<-|[]]]]]]; eexists; reflexivity. }
  apply steps_Act_inv in Hs as
    [([=] & _)|[(a & m & _ & [=] & _)|(a & b & t' & [= <- <- <-] & _ & Hs)]].
  rewrite Hdone in Hs. cbn [negb] in Hs.
  by apply steps_Ret_inv in Hs as (-> & -> & ->).
Qed.

(** X9. [shuffleUploads] on an empty batch panics at [allUploads[0]]. *)
Theorem shuffleUploads_empty_batch s0 c s s1 q sp :
  steps shuffleUploads
    [EvAct "if !s.regDone { return }" s0 s0;
     EvRecv c (MUpBlocks []);
     EvAct "numBlockChunks := len(allUploads[0].BC1); ...; BXs[i][j] = ...; BYs[i][j] = ..." s s1]
    q sp ->
  q = Crash index_out_of_range /\ s1 = s.
Proof.
  intros Hs. unfold shuffleUploads in Hs. expose.
  apply steps_Act_inv in Hs as
    [([=] & _)|[(a & m & _ & [=] & _)|(a & b & t' & [= <- <- <-] & _ & Hs)]].
  destruct (negb _); [by apply steps_Ret_inv in Hs as ([=] & _)|].
  apply steps_Recv_inv in Hs as [([=] & _)|(ch & m & t2 & _ & [= <- <- <-] & Hs)].
  apply steps_Act_inv in Hs as
    [([=] & _)|[(a & m & [= <- <-] & Hf & ->)|(a & b & t3 & _ & Hf & _)]].
  - by injection Hf as <-.
  - done.
Qed.

(** X7. A call of [handleUpload] that returns after registration has taken
    one upload from [ublockChan] and passed that very upload to
    [UploadBlock2] of the first server, which answered without error. *)
Theorem handleUpload_forwards t s0 t' :
  returns handleUpload t tt ->
  t = EvAct "if !s.regDone { return }" s0 s0 :: t' ->
  Server.regDone s0 = true ->
  exists upBlock s1 first reply,
    t' = [EvRecv (Server.ublockChan s0) (MUpBlock upBlock);
          EvAct "s.rpcServers[0]" s1 s1;
          EvCall first (Server_UploadBlock2 upBlock) (Ok reply)] /\
    s1.(Server.rpcServers) !! 0%nat = Some first.
Proof.
  intros Hr -> Hdone. unfold handleUpload in Hr. run1 Hr.
  match goal with Ht : _ :: _ = _ :: _ |- _ => injection Ht as <- <- <- end.
  rewrite Hdone in Hr. cbn [negb] in Hr. run1 Hr. subst.
  match goal with Hc : Some _ = Some _ |- _ => injection Hc as <- end.
  match goal with m : msg |- _ => destruct m end; try (by run1 Hr).
  run1 Hr. run1 Hr. subst.
  match goal with
  | Hb : bind _ _ = Ok _ |- _ => apply bind_Ok in Hb as (c & Hc%at_index_Ok & [= <-])
  end.
  rewrite Hc in *.
  match goal with x : Result bytes |- _ => destruct x as [reply|]; run1 Hr end.
  subst. exists u. eexists _, c, reply. split; [reflexivity|].
  by apply index_Some in Hc as [_ Hc].
Qed.

Lemma gather_returns n acc t r :
  returns (gather n acc) t r ->
  r = acc ++ uploads_received t /\
  length (uploads_received t) = n /\
  (forall c m, ~ In (EvSend c m) t) /\
  (forall c m, In (EvRecv c m) t ->
     exists s, In (EvAct "allUploads[i] = <-s.ublockChan2" s s) t /\
               c = Server.ublockChan2 s).
Proof.
  revert acc t. induction n as [|n IH]; intros acc t Hr; simpl in Hr.
  - apply returns_Ret in Hr as [-> ->]. rewrite app_nil_r.
    split; [done|]. split; [done|]. split; [by intros c m []|by intros c m []].
  - run1 Hr. run1 Hr. subst.
    match goal with Hb : Ok _ = Ok _ |- _ => injection Hb as <- end.
    match goal with Hc : Some _ = Some _ |- _ => injection Hc as <- end.
    match goal with m : msg |- _ => destruct m end; try (by run1 Hr).
    destruct (IH _ _ Hr) as (-> & Hlen & Hsend & Hrecv).
    unfold uploads_received in *. cbn [omap]. simpl.
    split; [by rewrite <- app_assoc|]. split; [simpl; by f_equal|]. split.
    + intros c m [[=]|[[=]|Hin]]. by eapply Hsend.
    + intros c m [[=]|[[= <- <-]|Hin]].
      * eexists. split; [by left|done].
      * destruct (Hrecv _ _ Hin) as (s & Hs & ->). exists s. auto.
Qed.

(** X8. A call of [gatherUploads] that returns after registration has
    received [totalClients] uploads, all from [ublockChan2], and then
    sent them as one batch, in the order they arrived, on
    [shuffleChan]; it has sent nothing else. *)
Theorem gatherUploads_batch t s0 t' :
  returns gatherUploads t tt ->
  t = EvAct "if !s.regDone { return }" s0 s0 :: t' ->
  Server.regDone s0 = true ->
  exists s1 tg s2,
    t' = EvAct "allUploads := make([]UpBlock, s.totalClients)" s1 s1
         :: tg ++ [EvAct "s.shuffleChan <- allUploads" s2 s2;
                   EvSend (Server.shuffleChan s2) (MUpBlocks (uploads_received tg))] /\
    length (uploads_received tg) = Z.to_nat (Server.totalClients s1) /\
    (forall c m, ~ In (EvSend c m) tg) /\
    (forall c m, In (EvRecv c m) tg ->
       exists s, In (EvAct "allUploads[i] = <-s.ublockChan2" s s) tg /\
                 c = Server.ublockChan2 s).
Proof.
  intros Hr -> Hdone. unfold gatherUploads in Hr. run1 Hr.
  match goal with Ht : _ :: _ = _ :: _ |- _ => injection Ht as <- <- <- end.
  rewrite Hdone in Hr. cbn [negb] in Hr. run1 Hr. subst.
  match goal with
  | Hb : bind _ _ = Ok _ |- _ => apply bind_Ok in Hb as (n & _ & [= <-])
  end.
  apply returns_bind_inv in Hr as (allUploads & tg & t2 & -> & Hg & Hr).
  apply gather_returns in Hg as (-> & Hlen & Hsend & Hrecv).
  run1 Hr. run1 Hr. run1 Hr. subst.
  match goal with Hb : Ok _ = Ok _ |- _ => injection Hb as <- end.
  match goal with Hc : Some _ = Some _ |- _ => injection Hc as <- end.
  eexists _, tg, _. split; [reflexivity|]. auto.
Qed.

End StageProps.

(** [handleUpload] on the toy server before registration. *)
Lemma stages_idle_before_RegisterDone2_witness :
  exists t q,
    steps (@handleUpload toy_suite)
      (EvAct "if !s.regDone { return }" toy_new toy_new :: t) q [] /\
    t = [] /\ q = Ret tt.
Proof.
  assert (exists q, steps (@handleUpload toy_suite)
            [EvAct "if !s.regDone { return }" toy_new toy_new] q []) as [q Hs].
  { unfold handleUpload. expose. apply steps_ex_Act. by intros b [= <-]. }
  destruct (@stages_idle_before_RegisterDone2 toy_suite toy_lib
              (@handleUpload toy_suite) toy_new [] q []
              ltac:(right; left; reflexivity) Hs eq_refl) as (Ht & Hq & _).
  exists [], q. auto.
Defined.

(** The registered toy server is handed an empty batch. *)
Lemma shuffleUploads_empty_batch_witness :
  exists q,
    steps (@shuffleUploads toy_suite toy_lib)
      [EvAct "if !s.regDone { return }" toy_registered toy_registered;
       EvRecv 2%nat (MUpBlocks []);
       EvAct "numBlockChunks := len(allUploads[0].BC1); ...; BXs[i][j] = ...; BYs[i][j] = ..."
         toy_registered toy_registered]
      q [] /\
    q = Crash index_out_of_range.
Proof.
  destruct (@shuffleUploads_prefix toy_suite toy_lib toy_registered []
              toy_registered eq_refl) as [q Hq].
  exists q. split; [exact Hq|].
  exact (proj1 (@shuffleUploads_empty_batch toy_suite toy_lib _ _ _ _ _ _ Hq)).
Defined.

(** The registered toy server, connected to both servers, forwards an
    upload. *)
Lemma handleUpload_forwards_witness :
  exists t' s',
    exec (@handleUpload toy_suite)
      (Server.set_rpcServers ["127.0.0.1:8000"; "10.0.0.2:8000"] toy_registered)
      [InMsg (MUpBlock (UpBlock.mk [[1]] [[2]])); InCall (Ok [])]
      = Some (tt, EvAct "if !s.regDone { return }"
                    (Server.set_rpcServers ["127.0.0.1:8000"; "10.0.0.2:8000"]
                       toy_registered)
                    (Server.set_rpcServers ["127.0.0.1:8000"; "10.0.0.2:8000"]
                       toy_registered) :: t', s', []) /\
    In (EvCall "127.0.0.1:8000" (Server_UploadBlock2 (UpBlock.mk [[1]] [[2]])) (Ok []))
       t'.
Proof.
  pose (s := Server.set_rpcServers ["127.0.0.1:8000"; "10.0.0.2:8000"] toy_registered).
  destruct (exec (@handleUpload toy_suite) s
              [InMsg (MUpBlock (UpBlock.mk [[1]] [[2]])); InCall (Ok [])])
    as [[[[[] t] s'] ins]|] eqn:E; [|vm_compute in E; discriminate].
  assert (ins = []) as -> by (vm_compute in E; congruence).
  destruct (exec_sound _ _ _ _ _ _ _ E) as [Hr Hc].
  assert (exists t', t = EvAct "if !s.regDone { return }" s s :: t') as [t' ->].
  { clear -E. vm_compute in E. injection E as <- _. eexists. reflexivity. }
  destruct (@handleUpload_forwards toy_suite _ s t' Hr eq_refl eq_refl)
    as (upBlock & s1 & first & reply & Ht' & Hfirst).
  exists t', s'. split; [exact E|].
  clear -E. vm_compute in E. injection E as <- _. simpl. tauto.
Defined.

(** Two uploads arrive at the registered toy server. *)
Lemma gatherUploads_batch_witness :
  exists t' s',
    exec (@gatherUploads toy_suite) toy_registered
      [InMsg (MUpBlock (UpBlock.mk [[1]] [[2]]));
       InMsg (MUpBlock (UpBlock.mk [[3]] [[4]]))]
      = Some (tt, EvAct "if !s.regDone { return }" toy_registered toy_registered
                  :: t', s', []) /\
    last t' = Some (EvSend 2%nat
                      (MUpBlocks [UpBlock.mk [[1]] [[2]]; UpBlock.mk [[3]] [[4]]])).
Proof.
  destruct (exec (@gatherUploads toy_suite) toy_registered
      [InMsg (MUpBlock (UpBlock.mk [[1]] [[2]]));
       InMsg (MUpBlock (UpBlock.mk [[3]] [[4]]))])
    as [[[[[] t] s'] ins]|] eqn:E; [|vm_compute in E; discriminate].
  assert (ins = []) as -> by (vm_compute in E; congruence).
  destruct (exec_sound _ _ _ _ _ _ _ E) as [Hr Hc].
  assert (exists t', t = EvAct "if !s.regDone { return }" toy_registered
                           toy_registered :: t') as [t' ->].
  { clear -E. vm_compute in E. injection E as <- _. eexists. reflexivity. }
  destruct (@gatherUploads_batch toy_suite _ toy_registered t' Hr eq_refl eq_refl)
    as (s1 & tg & s2 & Ht' & _).
  exists t', s'. split; [reflexivity|].
  clear -E. vm_compute in E. injection E as <- _. reflexivity.
Defined.

(** ** Setup: connections and registration *)
Section SetupProps.
Context `{L : Lib}.

(** X1. [ConnectServers] leaves in [rpcServers] one client per server, in
    the order of [servers]: the one for this server dialled at the
    loopback address with its own port, the others at their address in
    [servers]. *)
Theorem ConnectServers_rpcServers t s s' :
  returns ConnectServers t tt ->
  chained keys_stable s t s' ->
  exists pre a b,
    t = pre ++ [EvAct "if s.id != len(s.servers)-1 { s.nextPk = ... }; s.rpcServers = rpcServers" a b] /\
    length (Server.rpcServers b) = length (Server.servers s) /\
    (forall i, 0 <= i < len (Server.servers s) ->
       index (Server.rpcServers b) i =
         Some (if decide (i = Server.id s) then local_addr (Server.port s)
               else default "" (index (Server.servers s) i))).
Proof.
  intros Hr Hc. unfold ConnectServers in Hr. run1 Hr. subst.
  match goal with Hf : Ok _ = Ok _ |- _ => injection Hf as <- end.
  destruct Hc as [Hs0 Hc].
  match goal with
  | _ : context [Server.servers ?x] |- _ =>
      assert (Server.servers x = Server.servers s) as Hx by apply Hs0;
      rewrite Hx in Hr
  end.
  apply returns_bind_inv in Hr as (rpcServers & t1 & t2 & -> & Hdial & Hr).
  apply chained_app_inv in Hc as (s1 & Hc1 & Hc); [|apply keys_stable_refl].
  destruct (dial_servers_returns _ _ _ _ s _ _ Hdial Hs0 Hc1) as (-> & Hs1 & Hnocall).
  simpl in Hr.
  apply returns_Par in Hr as (tss & rs & tpar & t3 & Hpar & Hint & -> & Hr).
  run1 Hr. run1 Hr. subst.
  match goal with
  | Hb : bind _ _ = Ok _ |- _ => apply bind_Ok in Hb as (nextPk & Hnext & [= <-])
  end.
  eexists (_ :: t1 ++ tpar ++ [EvWait]), _, _. split.
  { rewrite !app_comm_cons, <- !app_assoc. reflexivity. }
  cbn. split.
  { rewrite length_map, length_upto. unfold len. by rewrite Nat2Z.id. }
  intros i Hi. apply index_Some. split; [lia|].
  rewrite list_lookup_fmap, lookup_upto by lia. simpl.
  unfold dialled. by rewrite Z2Nat.id by lia.
Qed.

(** The dial loop, complete or not: it calls nobody, and a failed dial
    is the last thing it does: it ends the process. *)
Lemma dial_servers_steps ixs acc t q sp :
  steps (dial_servers ixs acc) t q sp ->
  (forall c r x, ~ In (EvCall c r x) t) /\
  (forall addr e, In (EvDial addr (Err e)) t ->
     q = Crash "Cannot establish connection" /\
     exists pre, t = pre ++ [EvDial addr (Err e)]).
Proof.
  revert acc t. induction ixs as [|i ixs IH]; intros acc t Hs; simpl in Hs.
  { apply steps_Ret_inv in Hs as (-> & _).
    split; [by intros c r x []|by intros addr e []]. }
  expose.
  apply steps_Act_inv in Hs as
    [(-> & ->)|[(a & m & -> & Hf & ->)|(a & b & t1 & -> & Hf & Hs)]].
  { split; [by intros c r x []|by intros addr e []]. }
  { split; [by intros c r x [[=]|[]]|by intros addr e [[=]|[]]]. }
  apply steps_Dial_inv in Hs as [(-> & ->)|(r & t2 & -> & Hs)].
  { split; [by intros c r x [[=]|[]]|by intros addr e [[=]|[]]]. }
  destruct r as [[]|e0].
  - destruct (IH _ _ Hs) as [Hcall Hdial]. split.
    + intros c r x [[=]|[[=]|Hin]]. by eapply Hcall.
    + intros addr e [[=]|[[=]|Hin]].
      destruct (Hdial _ _ Hin) as (-> & pre & ->). split; [done|].
      by exists (EvAct "if i == s.id { addr := fmt.Sprintf(..., s.port) } else { s.servers[i] }" a b
                 :: EvDial (if decide (i = Server.id a) then local_addr (Server.port a)
                            else default "" (index (Server.servers a) i)) (Ok ())
                 :: pre).
  - apply steps_Crash_inv in Hs as (-> & -> & _). split.
    + by intros c r x [[=]|[[=]|[]]].
    + intros addr e [[=]|[[= <- <-]|[]]]. split; [done|].
      by eexists [_].
Qed.

(** X2. If a dial fails, [ConnectServers] ends the process there, before it
    has asked any server for its key. *)
Theorem ConnectServers_dial_fatal t q sp addr e :
  steps ConnectServers t q sp ->
  In (EvDial addr (Err e)) t ->
  q = Crash "Cannot establish connection" /\
  (exists pre, t = pre ++ [EvDial addr (Err e)]) /\
  (forall c r x, ~ In (EvCall c r x) t).
Proof.
  unfold ConnectServers. expose. intros Hs Hin.
  apply steps_Act_inv in Hs as
    [(-> & ->)|[(a & m & -> & [=] & ->)|(a & b & t1 & -> & [= <-] & Hs)]];
    [done|].
  destruct Hin as [[=]|Hin].
  apply steps_bind_inv in Hs as
    [(p' & Hs & ->)|(rpcServers & u1 & u2 & sp1 & sp2 & -> & Hs1 & Hs2)].
  - destruct (dial_servers_steps _ _ _ _ _ Hs) as [Hcall Hdial].
    destruct (Hdial _ _ Hin) as (-> & pre & ->). split; [done|]. split.
    + by exists (EvAct "rpcServers := make([]*rpc.Client, len(s.servers))" a a :: pre).
    + intros c r x [[=]|Hin']. by eapply Hcall.
  - exfalso. destruct (dial_servers_steps _ _ _ _ _ Hs1) as [_ Hdial].
    apply in_app_or in Hin as [Hin|Hin]; [by destruct (Hdial _ _ Hin) as ([=] & _)|].
    clear Hs1 Hdial.
    assert (forall tss (qs : list (prog unit)) tpar,
              par_runs (imap (fun i rpcServer =>
                 Call rpcServer Server_GetPK (fun r =>
                   match r with
                   | Ok pk =>
                       Act "s.pks[i] = UnmarshalPoint(pk)"
                         (fun s => bind (store (Server.pks s) (Z.of_nat i)
                                           (Some (UnmarshalPoint pk)))
                                     (fun pks => Ok (Server.set_pks pks s)))
                         (fun _ => Ret ())
                   | Err e => Crash ("Couldn't get server's pk: " +:+ e)
                   end)) rpcServers) tss qs ->
              interleave tss tpar -> ~ In (EvDial addr (Err e)) tpar) as Hchild.
    { intros tss qs tpar (Hl1 & Hl2 & Hruns) Hint Hin'.
      destruct (interleave_In _ _ _ Hint Hin') as (i & ts & Hts & Hin'').
      assert (i < length tss)%nat as Hi by (by eapply lookup_lt_Some).
      destruct (lookup_lt_is_Some_2 qs i) as [q' Hq']; [lia|].
      rewrite length_imap in Hl1.
      destruct (lookup_lt_is_Some_2 rpcServers i) as [c Hc]; [lia|].
      match type of Hl2 with
      | length qs = length (imap ?f _) =>
          assert (imap f rpcServers !! i = Some (f i c)) as Hp
            by (by rewrite list_lookup_imap, Hc)
      end.
      destruct (Hruns _ _ _ _ Hp Hts Hq') as [sp' Hsteps]. cbv beta in Hsteps.
      apply steps_Call_inv in Hsteps as [(-> & _)|(r & t' & -> & Hsteps)]; [done|].
      destruct Hin'' as [[=]|Hin''].
      destruct r as [pk|e'].
      - apply steps_Act_inv in Hsteps as
          [(-> & _)|[(a' & m & -> & _)|(a' & b' & t'' & -> & _ & Hsteps)]];
          [done|by destruct Hin'' as [[=]|[]]|].
        destruct Hin'' as [[=]|Hin''].
        by apply steps_Ret_inv in Hsteps as (-> & _).
      - by apply steps_Crash_inv in Hsteps as (-> & _). }
    simpl in Hs2.
    apply steps_Par_inv in Hs2 as
      [(tss & qs & Hr & Hi & ->)
      |[(tss & qs & m & v1 & Hr & Hi & Hcr & -> & ->)
       |(tss & rs & v1 & v2 & sp3 & Hr & Hi & -> & Hs2)]].
    + by eapply Hchild.
    + apply in_app_or in Hin as [Hin|[[=]|[]]]. by eapply Hchild.
    + apply in_app_or in Hin as [Hin|[[=]|Hin]]; [by eapply Hchild|].
      apply steps_Act_inv in Hs2 as
        [(-> & _)|[(a' & m & -> & _)|(a' & b' & t'' & -> & _ & Hs2)]];
        [done|by destruct Hin as [[=]|[]]|].
      destruct Hin as [[=]|Hin].
      by apply steps_Ret_inv in Hs2 as (-> & _).
Qed.

(** X3. The end of [ConnectServers] on a server whose [id] is not an index
    of [servers] (the id -1 of a server with no servers apart, which takes
    the branch of the last server) panics when it reads [pks[id]]. *)
Theorem next_pk_out_of_range (s : Server.t) :
  length (Server.pks s) = length (Server.servers s) ->
  len (Server.servers s) <= int_max ->
  ~ 0 <= Server.id s < len (Server.servers s) ->
  Server.id s <> len (Server.servers s) - 1 ->
  next_pk s = Err index_out_of_range.
Proof.
  intros Hlen Hmax Hout Hne. unfold next_pk, int_sub.
  assert (0 <= len (Server.servers s)) by (unfold len; lia).
  rewrite int_wrap_small by (unfold int_min, int_max in *; lia).
  destruct (decide _) as [_|Heq]; [|done].
  unfold at_index. destruct (index (Server.pks s) (Server.id s)) eqn:E; [|done].
  apply index_range in E. unfold len in *. lia.
Qed.

(** X4. A call of [Register2(client)] that returns appended the client's
    address to [clients] and mapped its id to the server that hosts it,
    between taking and releasing [regLock[1]]; the map is otherwise as
    it was. *)
Theorem Register2_records (client : ClientRegistration.t) t :
  returns (Register2 client) t tt ->
  exists a0 a1 a2 a3,
    let b1 := Server.set_clients
                (Server.clients a1 ++ [ClientRegistration.Addr client]) a1 in
    let b2 := Server.set_clientMap
                (<[ClientRegistration.Id client := ClientRegistration.ServerId client]>
                   (Server.clientMap a2)) a2 in
    t = [EvLock 1 a0 (lock_held 1 true a0);
         EvAct "s.clients = append(s.clients, client.Addr)" a1 b1;
         EvAct "s.clientMap[client.Id] = client.ServerId" a2 b2;
         EvUnlock 1 a3 (lock_held 1 false a3)] /\
    map_get (Server.clientMap b2) (ClientRegistration.Id client)
      = ClientRegistration.ServerId client /\
    (forall i, i <> ClientRegistration.Id client ->
       map_get (Server.clientMap b2) i = map_get (Server.clientMap a2) i) /\
    Server.clients b2 = Server.clients a2.
Proof.
  intros Hr. unfold Register2 in Hr.
  run1 Hr. run1 Hr. run1 Hr. run1 Hr. run1 Hr. subst.
  repeat match goal with Hb : Ok _ = Ok _ |- _ => injection Hb as <- end.
  do 4 eexists. cbv zeta. split; [reflexivity|]. cbn. unfold map_get.
  split; [by rewrite lookup_insert_eq|]. split; [|done].
  intros i Hi. by rewrite lookup_insert_ne.
Qed.

Lemma full_row_make n made :
  full_row n (list_to_map (zip (upto n) (seq made (Z.to_nat n)))).
Proof.
  intros j Hj. apply not_eq_None_Some. intros Hnone.
  apply not_elem_of_list_to_map_2 in Hnone. apply Hnone.
  rewrite fst_zip by (by rewrite length_upto, length_seq).
  apply list_elem_of_In, In_upto. done.
Qed.

Lemma xorsChan_fold numClients ixs (s : Server.t) :
  (forall i, In i ixs -> 0 <= i < len (Server.xorsChan s)) ->
  exists s1,
    foldl (fun s i =>
             s ← s;
             let '(chans, s) := make_chans (Z.to_nat numClients) s in
             xorsChan ← store s.(Server.xorsChan) i
                          (list_to_map (zip (upto numClients) chans));
             Ok (Server.set_xorsChan xorsChan s))
          (Ok s) ixs = Ok s1 /\
    Server.totalClients s1 = Server.totalClients s /\
    Server.servers s1 = Server.servers s /\
    length (Server.xorsChan s1) = length (Server.xorsChan s) /\
    (forall i,
       In i ixs \/ (exists m, index (Server.xorsChan s) i = Some m /\
                               full_row numClients m) ->
       exists m, index (Server.xorsChan s1) i = Some m /\ full_row numClients m).
Proof.
  revert s. induction ixs as [|i ixs IH]; intros s Hin; simpl.
  { exists s. repeat split; auto. by intros i [[]|Hi]. }
  unfold make_chans. cbn [Server.xorsChan Server.set_made].
  rewrite store_in_range by (apply Hin; by left). simpl.
  match goal with
  | |- context [foldl _ (Ok ?s0) ixs] => destruct (IH s0) as (s1 & Hf & E1 & E2 & E3 & Hrows)
  end.
  { intros k Hk. cbn. unfold len. rewrite length_insert. apply Hin. by right. }
  cbn in E1, E2, E3. rewrite length_insert in E3.
  exists s1. split; [exact Hf|]. split; [done|]. split; [done|]. split; [done|].
  intros k Hk. apply Hrows.
  destruct (decide (k = i)) as [->|Hne].
  - right. eexists. split; [|apply full_row_make]. cbn.
    apply index_Some. split; [apply Hin; by left|].
    apply list_lookup_insert_eq. specialize (Hin i ltac:(by left)).
    unfold len in Hin. cbn. lia.
  - destruct Hk as [[->|Hk]|(m & Hm & Hfull)]; [done|by left|].
    right. exists m. split; [|done]. cbn.
    apply index_Some in Hm as [H0 Hm]. apply index_Some. split; [done|].
    rewrite list_lookup_insert_ne; [done|]. intros Heq. apply Hne.
    specialize (Hin i ltac:(by left)). lia.
Qed.

(** X5. On a server with a slot of [xorsChan] per server, as [NewServer]
    makes it, [RegisterDone2(numClients)] panics exactly when
    [numClients] is negative.  Otherwise it records [numClients], leaves
    every per-client slice with [numClients] entries (the masks and the
    secrets [SecretSize] zero bytes each, the hashes nil), a row of
    [xorsChan] with a channel for every client for every server, and
    sets [regDone]. *)
Theorem RegisterDone2_slices numClients (s : Server.t) :
  length (Server.xorsChan s) = length (Server.servers s) ->
  (numClients < 0 ->
   RegisterDone2_body numClients s = Err makeslice_out_of_range) /\
  (0 <= numClients ->
   exists s',
     RegisterDone2_body numClients s = Ok s' /\
     Server.totalClients s' = numClients /\
     Server.regDone s' = true /\
     Server.masks s' = replicate (Z.to_nat numClients) (zeros SecretSize) /\
     Server.secrets s' = replicate (Z.to_nat numClients) (zeros SecretSize) /\
     Server.upHashes s' = replicate (Z.to_nat numClients) [] /\
     length (Server.requestsChan s') = Z.to_nat numClients /\
     length (Server.blocksRdy s') = Z.to_nat numClients /\
     length (Server.upHashesRdy s') = Z.to_nat numClients /\
     length (Server.reqHashesRdy s') = Z.to_nat numClients /\
     (forall i, 0 <= i < len (Server.servers s) ->
        exists m, index (Server.xorsChan s') i = Some m /\
                  full_row numClients m)).
Proof.
  intros Hlen. unfold RegisterDone2_body.
  destruct (xorsChan_fold numClients
              (upto (len (Server.servers (Server.set_totalClients numClients s))))
              (Server.set_totalClients numClients s))
    as (s1 & Hfold & E1 & E2 & E3 & Hrows).
  { intros i Hi%In_upto. cbn in *. unfold len in *. lia. }
  cbv zeta. rewrite Hfold. unfold mbind, Result_bind. cbn [bind].
  unfold make_len. split.
  - intros Hneg. destruct (decide _); [done|lia].
  - intros Hpos. destruct (decide _); [lia|]. cbn [bind mbind Result_bind].
    unfold make_chans. eexists. split; [reflexivity|]. cbn.
    split; [done|]. split; [done|]. split; [done|]. split; [done|].
    split; [done|]. rewrite !length_map, !length_seq.
    split; [done|]. split; [done|]. split; [done|]. split; [done|].
    intros i Hi. apply Hrows. left. apply In_upto. done.
Qed.

End SetupProps.

(** The toy server connects to itself and to server 1. *)
Lemma ConnectServers_rpcServers_witness :
  exists t s',
    exec (@ConnectServers toy_suite toy_lib) toy_new
      [InDial (Ok tt); InDial (Ok tt); InCall (Ok [20]); InCall (Ok [30])]
      = Some (tt, t, s', []) /\
    Server.rpcServers s' = ["127.0.0.1:8000"; "10.0.0.2:8000"].
Proof.
  destruct (exec (@ConnectServers toy_suite toy_lib) toy_new
      [InDial (Ok tt); InDial (Ok tt); InCall (Ok [20]); InCall (Ok [30])])
    as [[[[[] t] s'] ins]|] eqn:E; [|vm_compute in E; discriminate].
  assert (ins = []) as -> by (vm_compute in E; congruence).
  exists t, s'. split; [reflexivity|].
  destruct (exec_sound _ _ _ _ _ _ _ E) as [Hr Hc].
  destruct (@ConnectServers_rpcServers toy_suite toy_lib t toy_new s' Hr)
    as (pre & a & b & Ht & Hlen & Hix).
  { eapply chained_mono; [|exact Hc]. intros x y ->. by repeat split. }
  clear -E. vm_compute in E. injection E as _ <-. reflexivity.
Defined.

(** The first dial of the toy server is refused. *)
Lemma ConnectServers_dial_fatal_witness :
  exists q,
    steps (@ConnectServers toy_suite toy_lib)
      [EvAct "rpcServers := make([]*rpc.Client, len(s.servers))" toy_new toy_new;
       EvAct "if i == s.id { addr := fmt.Sprintf(..., s.port) } else { s.servers[i] }"
         toy_new toy_new;
       EvDial "127.0.0.1:8000" (Err "connection refused")]
      q [] /\
    q = Crash "Cannot establish connection".
Proof.
  assert (exists q,
    steps (@ConnectServers toy_suite toy_lib)
      [EvAct "rpcServers := make([]*rpc.Client, len(s.servers))" toy_new toy_new;
       EvAct "if i == s.id { addr := fmt.Sprintf(..., s.port) } else { s.servers[i] }"
         toy_new toy_new;
       EvDial "127.0.0.1:8000" (Err "connection refused")]
      q []) as [q Hq].
  { unfold ConnectServers. expose.
    eapply steps_ex_cons; [by apply step_act|].
    cbn -[local_addr]. expose.
    eapply steps_ex_cons; [by apply step_act|].
    eapply steps_ex_cons; [apply (step_dial _ "127.0.0.1:8000")|].
    eexists. apply steps_nil. }
  exists q. split; [exact Hq|].
  apply (@ConnectServers_dial_fatal toy_suite toy_lib _ q []
           "127.0.0.1:8000" "connection refused" Hq).
  simpl. tauto.
Defined.

(** A server configured with id 5 among two servers. *)
Lemma next_pk_out_of_range_witness :
  @next_pk toy_suite (@NewServer toy_suite "10.0.0.6:8000" 8000 5
                        ["10.0.0.1:8000"; "10.0.0.2:8000"] 7)
  = Err index_out_of_range.
Proof.
  apply (@next_pk_out_of_range toy_suite).
  - reflexivity.
  - vm_compute. discriminate.
  - vm_compute. intros [_ Hlt]. discriminate.
  - vm_compute. discriminate.
Defined.

(** Client 1, hosted by server 1, is recorded on the toy server. *)
Lemma Register2_records_witness :
  exists t s',
    exec (@Register2 toy_suite (ClientRegistration.mk "10.0.0.9:1" 1 1)) toy_new []
      = Some (tt, t, s', []) /\
    map_get (Server.clientMap s') 1 = 1 /\
    Server.clients s' = ["10.0.0.9:1"].
Proof.
  destruct (exec (@Register2 toy_suite (ClientRegistration.mk "10.0.0.9:1" 1 1))
              toy_new [])
    as [[[[[] t] s'] ins]|] eqn:E; [|vm_compute in E; discriminate].
  assert (ins = []) as -> by (vm_compute in E; congruence).
  exists t, s'. split; [reflexivity|].
  destruct (exec_sound _ _ _ _ _ _ _ E) as [Hr Hc].
  destruct (@Register2_records toy_suite _ t Hr) as (a0 & a1 & a2 & a3 & Ht & _).
  clear -E. vm_compute in E. injection E as _ <-. split; reflexivity.
Defined.

(** Registration of two clients is done on the toy server. *)
Lemma RegisterDone2_slices_witness :
  exists s',
    @RegisterDone2_body toy_suite toy_lib 2 toy_new = Ok s' /\
    Server.totalClients s' = 2 /\
    length (Server.requestsChan s') = 2%nat.
Proof.
  destruct (@RegisterDone2_slices toy_suite toy_lib 2 toy_new eq_refl) as [_ Hok].
  destruct Hok as (s' & Hs' & Htot & _ & _ & _ & _ & Hreq & _); [lia|].
  exists s'. auto.
Defined.

(** ** The download path *)
Section DownloadProps.
Context `{L : Lib}.

Lemma hash_blocks_short blocks upHashes :
  (length upHashes < length blocks)%nat ->
  hash_blocks blocks upHashes = Err index_out_of_range.
Proof.
  induction blocks as [|b blocks IH] using rev_ind; intros Hlen; [simpl in Hlen; lia|].
  rewrite length_app in Hlen. simpl in Hlen. rewrite hash_blocks_snoc.
  destruct (decide (length upHashes < length blocks)%nat) as [Hlt|Hge].
  - by rewrite IH.
  - destruct (hash_blocks_total blocks upHashes) as [h Hh]; [lia|].
    unfold mbind, Result_bind. rewrite Hh. simpl.
    destruct (hash_blocks_Ok _ _ _ Hh) as (Hl & _).
    unfold store. destruct (index h _) eqn:E; [|done].
    apply index_range in E. unfold len in E. lia.
Qed.


Lemma notify_returns rdy ixs u :
  returns (notify rdy ixs) u tt -> notify_trace rdy u.
Proof. intros [sp Hs]. by eapply notify_shape. Qed.

(** X20. A call of [PutUploadedBlocks(blocks)] that returns wrote [upHashes]
    first; then started, for clients hosted here only, the goroutines
    that signal [upHashesRdy]; and last sent [blocks], as it got them,
    on [dblocksChan]. *)
Theorem PutUploadedBlocks_order blocks t :
  returns (PutUploadedBlocks blocks) t tt ->
  exists a h sn u sd,
    t = EvAct "for i := range *blocks { s.upHashes[i] = Suite.Hash().Sum(...) }" a
          (Server.set_upHashes h a)
        :: EvAct "for i := range rdy" sn sn
        :: u ++ [EvAct "s.dblocksChan <- *blocks" sd sd;
                 EvSend (Server.dblocksChan sd) (MBlocks blocks)] /\
    hash_blocks blocks (Server.upHashes a) = Ok h /\
    (length blocks <= length (Server.upHashes a))%nat /\
    (forall c m, ~ In (EvSend c m) u) /\
    (forall g, In (EvGo g) u ->
       exists sg i, g = signal Server.upHashesRdy i /\
         map_get sg.(Server.clientMap) i = sg.(Server.id) /\
         In (EvAct "if s.clientMap[i] != s.id { continue }" sg sg) u).
Proof.
  intros Hr. unfold PutUploadedBlocks, notify_hosted in Hr. run1 Hr. run1 Hr. subst.
  match goal with
  | Hb : bind _ _ = Ok _ |- _ => apply bind_Ok in Hb as (h & Hh & [= <-])
  end.
  match goal with Hb : Ok _ = Ok _ |- _ => injection Hb as <- end.
  apply returns_bind_inv in Hr as ([] & u & t2 & -> & Hn%notify_returns & Hr).
  run1 Hr. run1 Hr. run1 Hr. subst.
  match goal with Hb : Ok _ = Ok _ |- _ => injection Hb as <- end.
  match goal with Hc : Some _ = Some _ |- _ => injection Hc as <- end.
  do 5 eexists. split; [reflexivity|]. split; [exact Hh|]. split.
  { match type of Hh with
    | hash_blocks _ (Server.upHashes ?a) = _ =>
        destruct (decide (length blocks <= length (Server.upHashes a))%nat);
          [done|]
    end.
    rewrite hash_blocks_short in Hh by lia. done. }
  split; [intros c m; by eapply notify_trace_send|].
  intros g Hg. by eapply notify_trace_hosted.
Qed.

(** X18. A call of [GetUpHashes(id)] that returns has received from
    [upHashesRdy[id]] before it read the [upHashes] it returns. *)
Theorem GetUpHashes_returns id t hashes :
  returns (GetUpHashes id) t hashes ->
  exists s1 c m s2,
    t = [EvAct "s.upHashesRdy[id]" s1 s1; EvRecv c m;
         EvAct "*hashes = s.upHashes" s2 s2] /\
    index s1.(Server.upHashesRdy) id = Some c /\
    hashes = s2.(Server.upHashes).
Proof.
  unfold GetUpHashes. intros Hr. run1 Hr. run1 Hr. run1 Hr. run1 Hr. subst.
  match goal with
  | Hb : bind _ _ = Ok _ |- _ =>
      apply bind_Ok in Hb as (ch & Hch%at_index_Ok & [= <-])
  end.
  match goal with Hb : Ok _ = Ok _ |- _ => injection Hb as <- end.
  rewrite Hch in *.
  match goal with Hc : Some _ = Some _ |- _ => injection Hc as <- end.
  eauto 10.
Qed.

(** X16. A call of [RequestBlock(cr)] that returns has called
    [ShareRequest(cr)] once on every client of [rpcServers], each in a
    goroutine of its own, and every call was answered without error. *)
Theorem RequestBlock_broadcast cr t :
  returns (RequestBlock cr) t tt ->
  exists s0 tss tpar,
    t = EvAct "for i, rpcServer := range s.rpcServers" s0 s0 :: tpar ++ [EvWait] /\
    interleave tss tpar /\
    length tss = length (Server.rpcServers s0) /\
    forall i rpcServer, Server.rpcServers s0 !! i = Some rpcServer ->
      exists reply,
        tss !! i = Some [EvCall rpcServer (Server_ShareRequest cr) (Ok reply)].
Proof.
  unfold RequestBlock. intros Hr. run1 Hr. subst.
  match goal with Hb : Ok _ = Ok _ |- _ => injection Hb as <- end.
  apply returns_Par in Hr as (tss & rs & tpar & t2 & Hpar & Hint & -> & Hr).
  apply returns_Ret in Hr as [-> _].
  apply par_returns_map in Hpar as (Hl1 & _ & Hpar).
  eexists _, tss, tpar. split; [reflexivity|]. split; [done|]. split; [done|].
  intros i c Hc. destruct (Hpar i c Hc) as (ts & [] & Hts & _ & Hret).
  run1 Hret. subst.
  match goal with x : Result bytes |- _ => destruct x as [reply|]; run1 Hret end.
  subst. eauto.
Qed.

(** X17. A call of [ShareRequest(cr)] that returns has sent [cr.Request] on
    [requestsChan[cr.Id]], the channel goroutine [cr.Id] of
    [handleRequest] receives from; with [cr.Id] out of range (always,
    before [RegisterDone2]) it panics instead. *)
Theorem ShareRequest_sends cr t q sp :
  steps (ShareRequest cr) t q sp ->
  (forall c m, In (EvSend c m) t ->
     exists s, t = [EvAct "s.requestsChan[cr.Id]" s s; EvSend c m] /\
       index (Server.requestsChan s) (ClientRequest.Id cr) = Some c /\
       m = MRequest (ClientRequest.Request cr) /\ q = Ret tt) /\
  (forall s b, In (EvAct "s.requestsChan[cr.Id]" s b) t ->
     ~ 0 <= ClientRequest.Id cr < len (Server.requestsChan s) ->
     q = Crash index_out_of_range /\ t = [EvAct "s.requestsChan[cr.Id]" s s]).
Proof.
  unfold ShareRequest. expose. intros Hs.
  apply steps_Act_inv in Hs as
    [(-> & ->)|[(a & m' & -> & Hf & ->)|(a & b & t' & -> & Hf & Hs)]].
  - split; [by intros c m []|by intros s b []].
  - split; [by intros c m [[=]|[]]|].
    intros s b [[= <- <-]|[]] Hout. split; [|done].
    destruct (at_index _ _) as [ch|m''] eqn:E; simpl in Hf; [done|].
    injection Hf as <-. by apply at_index_Err in E as ->.
  - apply bind_Ok in Hf as (ch & Hch%at_index_Ok & [= <-]). rewrite Hch in Hs.
    apply steps_Send_inv in Hs as [(-> & ->)|(ch' & t2 & [= <-] & -> & Hs)].
    + split; [by intros c m [[=]|[]]|].
      intros s b [[= <- <-]|[]] Hout. apply index_range in Hch. lia.
    + apply steps_Ret_inv in Hs as (-> & -> & _). split.
      * intros c m [[=]|[[= <- <-]|[]]]. eauto.
      * intros s b [[= <- <-]|[[=]|[]]] Hout. apply index_range in Hch. lia.
Qed.

(** X15. The goroutine [handleResponse] starts for client [i], hosted by
    server [sid]: when it returns it has called [PutClientBlock] on
    [rpcServers[sid]] with the block
    [ComputeResponse(allBlocks, masks[i], secrets[i])], round 0, tagged
    with the client's id and this server's. *)
Theorem respond_returns allBlocks i sid t :
  returns (respond allBlocks i sid) t tt ->
  exists s1 s2 mask secret rpcServer reply,
    t = [EvAct "res := ComputeResponse(allBlocks, s.masks[i], s.secrets[i])" s1 s1;
         EvAct "s.rpcServers[sid]" s2 s2;
         EvCall rpcServer
           (Server_PutClientBlock
              (ClientBlock.mk i (Server.id s1)
                 (Block.mk (ComputeResponse allBlocks mask secret) 0)))
           (Ok reply)] /\
    index (Server.masks s1) i = Some mask /\
    index (Server.secrets s1) i = Some secret /\
    index (Server.rpcServers s2) sid = Some rpcServer.
Proof.
  unfold respond. intros Hr. run1 Hr. run1 Hr. run1 Hr. subst.
  repeat match goal with
  | Hb : bind _ _ = Ok _ |- _ =>
      let v := fresh "v" in let Hv := fresh "Hv" in
      apply bind_Ok in Hb as (v & Hv%at_index_Ok & Hb)
  | Hb : Ok _ = Ok _ |- _ => injection Hb as <-
  end.
  repeat match goal with Hv : index _ _ = Some _ |- _ => rewrite Hv in *; revert Hv end.
  intros.
  match goal with x : Result bytes |- _ => destruct x as [reply|]; run1 Hr end.
  subst. simpl. eauto 10.
Qed.

End DownloadProps.


(** Two blocks put on the registered toy server, which hosts client 0. *)
Lemma PutUploadedBlocks_order_witness :
  exists t s',
    exec (@PutUploadedBlocks toy_suite [Block.mk [1; 2] 0; Block.mk [3; 4] 0])
      toy_registered [] = Some (tt, t, s', []) /\
    spawned t = [@signal toy_suite Server.upHashesRdy 0] /\
    last t = Some (EvSend 3%nat (MBlocks [Block.mk [1; 2] 0; Block.mk [3; 4] 0])).
Proof.
  destruct (exec (@PutUploadedBlocks toy_suite [Block.mk [1; 2] 0; Block.mk [3; 4] 0])
              toy_registered []) as [[[[[] t] s'] ins]|] eqn:E;
    [|vm_compute in E; discriminate].
  assert (ins = []) as -> by (vm_compute in E; congruence).
  exists t, s'. split; [reflexivity|].
  destruct (exec_sound _ _ _ _ _ _ _ E) as [Hr Hc].
  destruct (@PutUploadedBlocks_order toy_suite _ t Hr) as (a & h & sn & u & sd & Ht & _).
  clear -E. vm_compute in E. injection E as <- _. split; reflexivity.
Defined.

(** The readiness signal arrives for client 0 of the toy server. *)
Lemma GetUpHashes_returns_witness :
  exists t hashes s',
    exec (@GetUpHashes toy_suite 0) toy_registered [InMsg (MBool true)]
      = Some (hashes, t, s', []) /\
    hashes = Server.upHashes toy_registered.
Proof.
  destruct (exec (@GetUpHashes toy_suite 0) toy_registered [InMsg (MBool true)])
    as [[[[hashes t] s'] ins]|] eqn:E; [|vm_compute in E; discriminate].
  assert (ins = []) as -> by (vm_compute in E; congruence).
  exists t, hashes, s'. split; [reflexivity|].
  destruct (exec_sound _ _ _ _ _ _ _ E) as [Hr Hc].
  destruct (@GetUpHashes_returns toy_suite 0 t hashes Hr)
    as (s1 & c & m & s2 & Ht & _ & ->).
  rewrite Ht in Hc. simpl in Hc. destruct Hc as (<- & <- & _). reflexivity.
Defined.

(** The connected toy server shares a request with both servers. *)
Lemma RequestBlock_broadcast_witness :
  exists t s',
    exec (@RequestBlock toy_suite (ClientRequest.mk (Request.mk [[1; 2]] 0) 0))
      (Server.set_rpcServers ["127.0.0.1:8000"; "10.0.0.2:8000"] toy_registered)
      [InCall (Ok []); InCall (Ok [])]
      = Some (tt, t, s', []) /\
    In (EvCall "10.0.0.2:8000"
          (Server_ShareRequest (ClientRequest.mk (Request.mk [[1; 2]] 0) 0)) (Ok []))
       t.
Proof.
  destruct (exec (@RequestBlock toy_suite (ClientRequest.mk (Request.mk [[1; 2]] 0) 0))
      (Server.set_rpcServers ["127.0.0.1:8000"; "10.0.0.2:8000"] toy_registered)
      [InCall (Ok []); InCall (Ok [])])
    as [[[[[] t] s'] ins]|] eqn:E; [|vm_compute in E; discriminate].
  assert (ins = []) as -> by (vm_compute in E; congruence).
  exists t, s'. split; [reflexivity|].
  destruct (exec_sound _ _ _ _ _ _ _ E) as [Hr Hc].
  destruct (@RequestBlock_broadcast toy_suite _ t Hr) as (s0 & tss & tpar & Ht & _).
  clear -E. vm_compute in E. injection E as <- _. simpl. tauto.
Defined.

(** Client 1 of the toy server shares a request. *)
Lemma ShareRequest_sends_witness :
  exists t s',
    exec (@ShareRequest toy_suite (ClientRequest.mk (Request.mk [[1; 2]] 0) 1))
      toy_registered [] = Some (tt, t, s', []) /\
    exists s c,
      t = [EvAct "s.requestsChan[cr.Id]" s s; EvSend c (MRequest (Request.mk [[1; 2]] 0))].
Proof.
  destruct (exec (@ShareRequest toy_suite (ClientRequest.mk (Request.mk [[1; 2]] 0) 1))
      toy_registered []) as [[[[[] t] s'] ins]|] eqn:E;
    [|vm_compute in E; discriminate].
  assert (ins = []) as -> by (vm_compute in E; congruence).
  exists t, s'. split; [reflexivity|].
  destruct (exec_sound _ _ _ _ _ _ _ E) as [[sp Hs] Hc].
  destruct (@ShareRequest_sends toy_suite _ t _ sp Hs) as [Hsend _].
  assert (exists c, In (EvSend c (MRequest (Request.mk [[1; 2]] 0))) t) as [c Hin].
  { clear -E. vm_compute in E. injection E as <- _. eexists. simpl. eauto. }
  destruct (Hsend _ _ Hin) as (s & Ht & _). eauto.
Defined.

(** The goroutine for client 1, hosted by server 1, on the connected toy
    server. *)
Lemma respond_returns_witness :
  exists t s',
    exec (@respond toy_suite toy_lib [Block.mk [7; 9] 0] 1 1)
      (Server.set_rpcServers ["127.0.0.1:8000"; "10.0.0.2:8000"] toy_registered)
      [InCall (Ok [])]
      = Some (tt, t, s', []) /\
    exists block,
      In (EvCall "10.0.0.2:8000"
            (Server_PutClientBlock (ClientBlock.mk 1 0 (Block.mk block 0))) (Ok []))
         t.
Proof.
  destruct (exec (@respond toy_suite toy_lib [Block.mk [7; 9] 0] 1 1)
      (Server.set_rpcServers ["127.0.0.1:8000"; "10.0.0.2:8000"] toy_registered)
      [InCall (Ok [])])
    as [[[[[] t] s'] ins]|] eqn:E; [|vm_compute in E; discriminate].
  assert (ins = []) as -> by (vm_compute in E; congruence).
  exists t, s'. split; [reflexivity|].
  destruct (exec_sound _ _ _ _ _ _ _ E) as [Hr Hc].
  destruct (@respond_returns toy_suite toy_lib _ _ _ t Hr)
    as (s1 & s2 & mask & secret & c & reply & Ht & _).
  clear -E. vm_compute in E. injection E as <- _. eexists. simpl. eauto.
Defined.

(** What [PutClientBlock] does with the block it is given. *)
Section PutClientBlockProps.
Context `{L : Lib}.

(** X19. [PutClientBlock(cblock)] sends the block it is given on
    [xorsChan[cblock.SId][cblock.CId]], the channel on which
    [GetResponse] for client [cblock.CId] waits for the share of server
    [cblock.SId].  With [cblock.SId] out of range it panics; with no
    channel made for [cblock.CId] the channel is nil and the call never
    returns. *)
Theorem PutClientBlock_sends cblock t q sp :
  steps (PutClientBlock cblock) t q sp ->
  (forall s b, In (EvAct "s.xorsChan[cblock.SId][cblock.CId]" s b) t ->
     b = s /\
     (index (Server.xorsChan s) (ClientBlock.SId cblock) = None ->
      q = Crash index_out_of_range) /\
     (forall row, index (Server.xorsChan s) (ClientBlock.SId cblock) = Some row ->
        row !! ClientBlock.CId cblock = None ->
        t = [EvAct "s.xorsChan[cblock.SId][cblock.CId]" s s] /\
        q = Send None (MBlock (ClientBlock.Block cblock)) (Ret tt))) /\
  (q = Ret tt ->
   exists s row c,
     t = [EvAct "s.xorsChan[cblock.SId][cblock.CId]" s s;
          EvSend c (MBlock (ClientBlock.Block cblock))] /\
     index (Server.xorsChan s) (ClientBlock.SId cblock) = Some row /\
     row !! ClientBlock.CId cblock = Some c).
Proof.
  unfold PutClientBlock. expose. intros Hs.
  apply steps_Act_inv in Hs as
    [(-> & ->)|[(a & m' & -> & Hf & ->)|(a & b & t' & -> & Hf & Hs)]].
  - split; [by intros s b []|done].
  - split; [|done]. intros s b [[= <- <-]|[]]. split; [done|]. split.
    + intros Hnone. unfold at_index in Hf. rewrite Hnone in Hf. simpl in Hf.
      by injection Hf as <-.
    + intros row Hrow. unfold at_index in Hf. by rewrite Hrow in Hf.
  - apply bind_Ok in Hf as (row & Hrow%at_index_Ok & [= <-]). rewrite Hrow in Hs.
    simpl in Hs.
    apply steps_Send_inv in Hs as [(-> & ->)|(ch & t2 & Hch & -> & Hs)].
    + split; [|done]. intros s b [[= <- <-]|[]]. split; [done|].
      split; [by rewrite Hrow|]. intros row' Hrow' Hnil.
      assert (row' = row) as -> by congruence. by rewrite Hnil.
    + apply steps_Ret_inv in Hs as (-> & -> & _). split.
      * intros s b [[= <- <-]|[[=]|[]]]. split; [done|].
        split; [by rewrite Hrow|]. intros row' Hrow' Hnil.
        assert (row' = row) as -> by congruence. congruence.
      * intros _. exists a, row, ch. auto.
Qed.

End PutClientBlockProps.

(** Server 1's share for client 0 is put on the toy server. *)
Lemma PutClientBlock_sends_witness :
  exists t s',
    exec (@PutClientBlock toy_suite (ClientBlock.mk 0 1 (Block.mk [1; 1] 0)))
      toy_registered [] = Some (tt, t, s', []) /\
    exists s row c,
      t = [EvAct "s.xorsChan[cblock.SId][cblock.CId]" s s;
           EvSend c (MBlock (Block.mk [1; 1] 0))] /\
      index (Server.xorsChan s) 1 = Some row /\ row !! 0 = Some c.
Proof.
  destruct (exec (@PutClientBlock toy_suite (ClientBlock.mk 0 1 (Block.mk [1; 1] 0)))
      toy_registered []) as [[[[[] t] s'] ins]|] eqn:E;
    [|vm_compute in E; discriminate].
  assert (ins = []) as -> by (vm_compute in E; congruence).
  exists t, s'. split; [reflexivity|].
  destruct (exec_sound _ _ _ _ _ _ _ E) as [[sp Hs] Hc].
  exact (proj2 (@PutClientBlock_sends toy_suite _ t _ sp Hs) eq_refl).
Defined.

(** ** The cascade hop after the check *)
Section HopProps.
Context `{L : Lib}.


(** X11. On the last server the blocks come out of [decs] like this: block
    [i] is the concatenation, in chunk order, of the data of [decs[j][i]],
    with round 0; there are [totalClients] of them. *)
Theorem assemble_Ok totalClients decs blocks :
  assemble totalClients decs = Ok blocks ->
  length blocks = Z.to_nat totalClients /\
  forall (i : nat) block, blocks !! i = Some block ->
    Block.Round block = 0 /\
    exists chunks,
      Block.Block block = concat chunks /\
      Forall2 (fun dec msg => exists p, dec !! i = Some p /\ Point_Data p = Ok msg)
        decs chunks.
Proof.
  unfold assemble. intros (n & _ & Hm%mapM_Ok)%bind_Ok. split.
  { apply Forall2_length in Hm. by rewrite length_upto in Hm. }
  intros i block Hb.
  destruct (Forall2_lookup_r _ _ _ _ _ Hm Hb) as (i' & Hi' & Hf).
  apply lookup_upto_Some in Hi' as [-> _].
  apply bind_Ok in Hf as (chunks & Hchunks%mapM_Ok & [= <-]).
  split; [done|]. exists chunks. split; [done|].
  eapply Forall2_impl; [exact Hchunks|]. intros dec msg Hd. cbv beta in Hd.
  apply bind_Ok in Hd as (p & Hp%at_index_Ok & Hd). rewrite index_of_nat in Hp.
  exists p. split; [done|]. destruct (Point_Data p); [|done]. done.
Qed.

(** X13. What a hop does once it has shuffled.  The last server puts the
    blocks together from [decs] and calls [PutUploadedBlocks] with them
    on every client of [rpcServers], each in a goroutine of its own; any
    other server writes the shuffled pairs back into the batch and
    passes it to [ShuffleBlocks] of the next server. *)
Theorem shuffle_and_hand_off_returns allUploads BXs BYs numBlockChunks t :
  returns (shuffle_and_hand_off allUploads BXs BYs numBlockChunks) t tt ->
  exists t1 Xbars Ybars decs prfs s t2,
    t = t1 ++ EvAct "if s.id == len(s.servers) - 1" s s :: t2 /\
    returns (shuffle BXs BYs numBlockChunks) t1 (Xbars, Ybars, decs, prfs) /\
    (Server.id s = int_sub (len (Server.servers s)) 1 ->
     exists sa blocks sr tss tpar,
       t2 = EvAct "blocks := make([]Block, s.totalClients); for i := range blocks { ... }" sa sa
            :: EvAct "for _, rpcServer := range s.rpcServers" sr sr
            :: tpar ++ [EvWait] /\
       assemble (Server.totalClients sa) decs = Ok blocks /\
       interleave tss tpar /\
       length tss = length (Server.rpcServers sr) /\
       forall i rpcServer, Server.rpcServers sr !! i = Some rpcServer ->
         exists reply,
           tss !! i = Some [EvCall rpcServer (Server_PutUploadedBlocks blocks)
                              (Ok reply)]) /\
    (Server.id s <> int_sub (len (Server.servers s)) 1 ->
     exists uploads sn next reply,
       repack Xbars decs allUploads = Ok uploads /\
       t2 = [EvAct "s.rpcServers[s.id+1]" sn sn;
             EvCall next (Server_ShuffleBlocks uploads) (Ok reply)] /\
       index (Server.rpcServers sn) (int_add (Server.id sn) 1) = Some next).
Proof.
  intros Hr. unfold shuffle_and_hand_off in Hr. expose.
  apply returns_bind_inv in Hr as ([[[Xbars Ybars] decs] prfs] & t1 & t2 & -> & Hsh & Hr).
  run1 Hr. subst.
  match goal with Hb : Ok _ = Ok _ |- _ => injection Hb as <- end.
  exists t1, Xbars, Ybars, decs, prfs. eexists _, _.
  split; [reflexivity|]. split; [exact Hsh|].
  destruct (decide _) as [Hlast|Hnot]; (split; [|done || intros Hne]); try done.
  - intros _. run1 Hr. subst.
    match goal with
    | Hb : bind _ _ = Ok _ |- _ => apply bind_Ok in Hb as (blocks & Hblocks & [= <-])
    end.
    rewrite Hblocks in Hr. run1 Hr. subst.
    match goal with Hb : Ok _ = Ok _ |- _ => injection Hb as <- end.
    apply returns_Par in Hr as (tss & rs & tpar & t3 & Hpar & Hint & -> & Hr).
    apply returns_Ret in Hr as [-> _].
    apply par_returns_map in Hpar as (Hl1 & _ & Hpar).
    eexists _, blocks, _, tss, tpar. split; [reflexivity|].
    split; [done|]. split; [done|]. split; [done|].
    intros i c Hc. destruct (Hpar i c Hc) as (ts & [] & Hts & _ & Hret).
    run1 Hret. subst.
    match goal with x : Result bytes |- _ => destruct x as [reply|]; run1 Hret end.
    subst. eauto.
  - destruct (repack Xbars decs allUploads) as [uploads|] eqn:Erp; [|by run1 Hr].
    run1 Hr. run1 Hr. subst.
    match goal with
    | Hb : bind _ _ = Ok _ |- _ => apply bind_Ok in Hb as (next & Hnext%at_index_Ok & [= <-])
    end.
    rewrite Hnext in *.
    match goal with x : Result bytes |- _ => destruct x as [reply|]; run1 Hr end.
    subst. eauto 10.
Qed.

(** X14. A call of [handleResponse] that returns after registration took the
    blocks from [dblocksChan]; started, for every client hosted
    elsewhere, the goroutine that answers for it through the server that
    hosts it; stored the blocks in [allBlocks]; and only then started,
    for the clients hosted here, the goroutines that signal
    [blocksRdy]. *)
Theorem handleResponse_order t s0 t' :
  returns handleResponse t tt ->
  t = EvAct "if !s.regDone { return }" s0 s0 :: t' ->
  Server.regDone s0 = true ->
  exists allBlocks s1 u1 a sn u2,
    t' = EvRecv (Server.dblocksChan s0) (MBlocks allBlocks)
         :: EvAct "for i := 0; i < s.totalClients; i++" s1 s1
         :: u1 ++ EvAct "s.allBlocks = allBlocks" a (Server.set_allBlocks allBlocks a)
         :: EvAct "for i := range rdy" sn sn :: u2 /\
    respond_trace allBlocks u1 /\
    notify_trace Server.blocksRdy u2 /\
    (forall g, In (EvGo g) u1 ->
       exists i sid, g = respond allBlocks i sid) /\
    (forall g, In (EvGo g) u2 ->
       exists sg i, g = signal Server.blocksRdy i /\
         map_get sg.(Server.clientMap) i = sg.(Server.id) /\
         In (EvAct "if s.clientMap[i] != s.id { continue }" sg sg) u2).
Proof.
  intros Hr -> Hdone. unfold handleResponse, notify_hosted in Hr. run1 Hr.
  match goal with Ht : _ :: _ = _ :: _ |- _ => injection Ht as <- <- <- end.
  rewrite Hdone in Hr. cbn [negb] in Hr. run1 Hr. subst.
  match goal with Hc : Some _ = Some _ |- _ => injection Hc as <- end.
  match goal with m : msg |- _ => destruct m as [| | | |allBlocks|] end;
    try (by run1 Hr).
  run1 Hr. subst.
  match goal with Hb : Ok _ = Ok _ |- _ => injection Hb as <- end.
  apply returns_bind_inv in Hr as ([] & u1 & t2 & -> & [sp1 Hresp] & Hr).
  apply respond_all_shape in Hresp.
  run1 Hr. run1 Hr. subst.
  repeat match goal with Hb : Ok _ = Ok _ |- _ => injection Hb as <- end.
  apply notify_returns in Hr.
  do 6 eexists. split; [reflexivity|]. split; [done|]. split; [done|]. split.
  - intros g Hg. by eapply respond_trace_go.
  - intros g Hg. by eapply notify_trace_hosted.
Qed.

End HopProps.


(** Two chunks for each of two clients, put back together. *)
Lemma assemble_Ok_witness :
  @assemble toy_suite 2 [[5; 1]; [6; 2]] = Ok [Block.mk [5; 6] 0; Block.mk [1; 2] 0] /\
  length [Block.mk [5; 6] 0; Block.mk [1; 2] 0] = Z.to_nat 2.
Proof.
  assert (@assemble toy_suite 2 [[5; 1]; [6; 2]]
          = Ok [Block.mk [5; 6] 0; Block.mk [1; 2] 0]) as Ha by reflexivity.
  split; [exact Ha|].
  exact (proj1 (@assemble_Ok toy_suite _ _ _ Ha)).
Defined.

(** Server 0 of two shuffles a batch and hands it to server 1. *)
Lemma shuffle_and_hand_off_returns_witness :
  exists t s' uploads,
    exec (@shuffle_and_hand_off toy_suite toy_lib
            [UpBlock.mk [[1]; [2]] [[3]; [4]]; UpBlock.mk [[5]; [6]] [[7]; [8]]]
            [[1; 5]; [2; 6]] [[3; 7]; [4; 8]] 2)
      (Server.set_rpcServers ["127.0.0.1:8000"; "10.0.0.2:8000"]
         (@Server.set_nextPk toy_suite (Some 50) toy_registered))
      [InCall (Ok [])]
      = Some (tt, t, s', []) /\
    last t = Some (EvCall "10.0.0.2:8000" (Server_ShuffleBlocks uploads) (Ok [])).
Proof.
  destruct (exec (@shuffle_and_hand_off toy_suite toy_lib
            [UpBlock.mk [[1]; [2]] [[3]; [4]]; UpBlock.mk [[5]; [6]] [[7]; [8]]]
            [[1; 5]; [2; 6]] [[3; 7]; [4; 8]] 2)
      (Server.set_rpcServers ["127.0.0.1:8000"; "10.0.0.2:8000"]
         (@Server.set_nextPk toy_suite (Some 50) toy_registered))
      [InCall (Ok [])])
    as [[[[[] t] s'] ins]|] eqn:E; [|vm_compute in E; discriminate].
  assert (ins = []) as -> by (vm_compute in E; congruence).
  destruct (exec_sound _ _ _ _ _ _ _ E) as [Hr Hc].
  destruct (@shuffle_and_hand_off_returns toy_suite toy_lib _ _ _ _ t Hr)
    as (t1 & Xbars & Ybars & decs & prfs & s & t2 & Ht & _).
  exists t, s'. eexists. split; [reflexivity|].
  clear -E. vm_compute in E. injection E as <- _. reflexivity.
Defined.

(** The blocks arrive on the connected toy server, which hosts client 0
    and answers for client 1. *)
Lemma handleResponse_order_witness :
  exists t' s',
    exec (@handleResponse toy_suite toy_lib)
      (Server.set_rpcServers ["127.0.0.1:8000"; "10.0.0.2:8000"] toy_registered)
      [InMsg (MBlocks [Block.mk [7; 9] 0])]
      = Some (tt, EvAct "if !s.regDone { return }"
                    (Server.set_rpcServers ["127.0.0.1:8000"; "10.0.0.2:8000"]
                       toy_registered)
                    (Server.set_rpcServers ["127.0.0.1:8000"; "10.0.0.2:8000"]
                       toy_registered) :: t', s', []) /\
    spawned t' = [@respond toy_suite toy_lib [Block.mk [7; 9] 0] 1 1;
                  @signal toy_suite Server.blocksRdy 0] /\
    Server.allBlocks s' = [Block.mk [7; 9] 0].
Proof.
  pose (s := Server.set_rpcServers ["127.0.0.1:8000"; "10.0.0.2:8000"] toy_registered).
  destruct (exec (@handleResponse toy_suite toy_lib) s
              [InMsg (MBlocks [Block.mk [7; 9] 0])])
    as [[[[[] t] s'] ins]|] eqn:E; [|vm_compute in E; discriminate].
  assert (ins = []) as -> by (vm_compute in E; congruence).
  destruct (exec_sound _ _ _ _ _ _ _ E) as [Hr Hc].
  assert (exists t', t = EvAct "if !s.regDone { return }" s s :: t') as [t' ->].
  { clear -E. vm_compute in E. injection E as <- _. eexists. reflexivity. }
  destruct (@handleResponse_order toy_suite toy_lib _ s t' Hr eq_refl eq_refl)
    as (allBlocks & s1 & u1 & a & sn & u2 & Ht' & _).
  exists t', s'. split; [exact E|].
  clear -E. vm_compute in E. injection E as <- <-. split; reflexivity.
Defined.

(** ** What no operation touches *)

Lemma chained_rel `{Suite} (P : Server.t -> Server.t -> Prop) t s s' :
  (forall a, P a a) ->
  (forall a b c, P a b -> P b c -> P a c) ->
  Forall (event_keeps P) t ->
  chained P s t s' ->
  P s s'.
Proof.
  intros Hrefl Htrans Ht. revert s.
  induction Ht as [|e t He Ht IH]; intros s Hc; simpl in Hc; [done|].
  destruct e; simpl in He; try (by apply IH);
    destruct Hc as [Hsa Hc]; specialize (IH _ Hc);
    (destruct He as [->|Hab]; [|apply (Htrans _ _ _ Hsa) in Hab]); eauto.
Qed.

Section IdentityProps.
Context `{L : Lib}.

Lemma same_identity_refl s : same_identity s s.
Proof. by repeat split. Qed.

Lemma same_identity_trans a b c :
  same_identity a b -> same_identity b c -> same_identity a c.
Proof.
  intros (? & ? & ? & ? & ? & ? & ?) (? & ? & ? & ? & ? & ? & ?).
  repeat split; try congruence. auto.
Qed.

Lemma xorsChan_fold_field {X} (f : Server.t -> X) numClients ixs (s s1 : Server.t) :
  (forall v s, f (Server.set_xorsChan v s) = f s) ->
  (forall v s, f (Server.set_made v s) = f s) ->
  foldl (fun s i =>
           s ← s;
           let '(chans, s) := make_chans (Z.to_nat numClients) s in
           xorsChan ← store s.(Server.xorsChan) i
                        (list_to_map (zip (upto numClients) chans));
           Ok (Server.set_xorsChan xorsChan s))
        (Ok s) ixs = Ok s1 ->
  f s1 = f s.
Proof.
  intros Hx Hm. revert s. induction ixs as [|i ixs IH]; intros s; simpl.
  { by intros [= <-]. }
  unfold make_chans. cbn [Server.xorsChan Server.set_made].
  destruct (store _ i _) as [x|m] eqn:E; simpl.
  - intros Hf. rewrite (IH _ Hf). by rewrite Hx, Hm.
  - intros Hf. exfalso. clear -Hf.
    induction ixs as [|j ixs IH]; simpl in Hf; [done|auto].
Qed.

Lemma RegisterDone2_body_identity numClients a b :
  RegisterDone2_body numClients a = Ok b -> same_identity a b.
Proof.
  unfold RegisterDone2_body. intros Hb. expose.
  apply bind_Ok in Hb as (s1 & Hfold & Hb).
  apply bind_Ok in Hb as (n & _ & Hb).
  cbv beta iota zeta delta [make_chans] in Hb. injection Hb as <-. cbn.
  pose proof (fun X (f : Server.t -> X) Hx Hm =>
                xorsChan_fold_field f _ _ _ _ Hx Hm Hfold) as Hfield.
  split; [exact (Hfield _ Server.addr ltac:(done) ltac:(done))|].
  split; [exact (Hfield _ Server.port ltac:(done) ltac:(done))|].
  split; [exact (Hfield _ Server.id ltac:(done) ltac:(done))|].
  split; [exact (Hfield _ Server.servers ltac:(done) ltac:(done))|].
  split; [exact (Hfield _ Server.sk ltac:(done) ltac:(done))|].
  split; [exact (Hfield _ Server.pk ltac:(done) ltac:(done))|].
  done.
Qed.

Lemma identity_signal rdy i : keeps same_identity (signal rdy i).
Proof. unfold signal. frame. Qed.

Lemma identity_notify rdy ixs : keeps same_identity (notify rdy ixs).
Proof.
  induction ixs as [|i ixs IH]; simpl; pose proof identity_signal; frame.
Qed.

Lemma identity_dial_servers ixs acc : keeps same_identity (dial_servers ixs acc).
Proof. revert acc. induction ixs as [|i ixs IH]; intros acc; simpl; frame. Qed.

Lemma identity_call_each cls req fatal : keeps same_identity (call_each cls req fatal).
Proof. induction cls as [|c cls IH]; simpl; frame. Qed.

Lemma identity_gather n acc : keeps same_identity (gather n acc).
Proof. revert acc. induction n as [|n IH]; intros acc; simpl; frame. Qed.

Lemma identity_respond_all allBlocks ixs :
  keeps same_identity (respond_all allBlocks ixs).
Proof.
  induction ixs as [|i ixs IH]; simpl; unfold respond; frame.
Qed.

#[local] Hint Resolve identity_signal identity_notify identity_dial_servers
  identity_call_each identity_gather identity_respond_all : frames.

Lemma identity_operation o : keeps same_identity (run_operation o).
Proof.
  destruct o as [req| | | | | | | | |]; cbn [run_operation];
    [destruct req; cbn [serve]|..];
    unfold Register, RegisterDone, Register2, RegisterDone2, GetNumClients,
      GetPK, ShareMask, ShareSecret, shareSecret, RequestBlock, ShareRequest,
      GetReqHashes, UploadBlock, UploadBlock2, ShuffleBlocks, GetUpHashes,
      GetResponse, other_block, PutClientBlock, PutUploadedBlocks,
      ConnectServers, Masks, Secrets, handleRequest, request_share,
      handleResponse, handleUpload, gatherUploads, shuffleUploads,
      shuffle_and_hand_off, shuffle, shuffle_chunk, notify_hosted, respond;
    try (frame; fail).
  expose. apply keeps_Act; [|intros; constructor].
  intros a b Hb. by eapply RegisterDone2_body_identity.
Qed.

(** X22. No operation of the server, at any point of any run, changes what
    the server was made with: its address, its port, its id, the list of
    servers and its key pair; and none takes [regDone] back once it is
    set.  So with the rest of the process doing the same, they are at the
    end of a run what they were at its start. *)
Theorem operations_keep_identity o t q sp s s' :
  steps (run_operation o) t q sp ->
  chained same_identity s t s' ->
  Forall (event_keeps same_identity) t /\ same_identity s s'.
Proof.
  intros Hs Hc.
  destruct (keeps_steps same_identity _ _ _ _ Hs (identity_operation o)) as (Ht & _).
  split; [done|].
  eapply chained_rel; eauto using same_identity_refl, same_identity_trans.
Qed.

End IdentityProps.

(** [RegisterDone2(2)] on the toy server: the same server, now open. *)
Lemma operations_keep_identity_witness :
  exists t s',
    exec (@run_operation toy_suite toy_lib (OpServe (Server_RegisterDone2 2)))
      toy_new [] = Some (tt, t, s', []) /\
    Server.pk s' = 20 /\ Server.id s' = 0 /\ Server.regDone s' = true.
Proof.
  destruct (exec (@run_operation toy_suite toy_lib (OpServe (Server_RegisterDone2 2)))
              toy_new []) as [[[[[] t] s'] ins]|] eqn:E;
    [|vm_compute in E; discriminate].
  assert (ins = []) as -> by (vm_compute in E; congruence).
  exists t, s'. split; [reflexivity|].
  destruct (exec_sound _ _ _ _ _ _ _ E) as [[sp Hs] Hc].
  destruct (@operations_keep_identity toy_suite toy_lib _ t _ sp toy_new s' Hs)
    as [_ (_ & _ & Hid & _ & _ & Hpk & _)].
  { eapply chained_mono; [|exact Hc]. intros a b ->. by repeat split. }
  split; [by rewrite Hpk|]. split; [by rewrite Hid|].
  clear -E. vm_compute in E. injection E as _ <-. reflexivity.
Defined.

(** ** Writing the shuffled pairs back *)

Lemma upto_S (n : nat) : upto (Z.of_nat (S n)) = upto (Z.of_nat n) ++ [Z.of_nat n].
Proof.
  unfold upto. rewrite !Nat2Z.id, seq_S, map_app. reflexivity.
Qed.

Section RepackProps.
Context `{L : Lib}.

Lemma repack_row Xbars decs (i : nat) upload (n : nat) out :
  foldl (fun upload j =>
           upload ← upload;
           Xbar ← at_index Xbars j;
           x ← at_index Xbar (Z.of_nat i);
           BC1 ← store upload.(UpBlock.BC1) j (MarshalPoint x);
           dec ← at_index decs j;
           d ← at_index dec (Z.of_nat i);
           BC2 ← store upload.(UpBlock.BC2) j (MarshalPoint d);
           Ok (UpBlock.mk BC1 BC2))
        (Ok upload) (upto (Z.of_nat n)) = Ok out ->
  length (UpBlock.BC1 out) = length (UpBlock.BC1 upload) /\
  length (UpBlock.BC2 out) = length (UpBlock.BC2 upload) /\
  (forall j : nat, (j < n)%nat ->
     exists Xbar x dec d,
       Xbars !! j = Some Xbar /\ Xbar !! i = Some x /\
       decs !! j = Some dec /\ dec !! i = Some d /\
       UpBlock.BC1 out !! j = Some (MarshalPoint x) /\
       UpBlock.BC2 out !! j = Some (MarshalPoint d)) /\
  (forall j : nat, (n <= j)%nat ->
     UpBlock.BC1 out !! j = UpBlock.BC1 upload !! j /\
     UpBlock.BC2 out !! j = UpBlock.BC2 upload !! j).
Proof.
  revert out. induction n as [|n IH]; intros out.
  { intros [= <-]. repeat split; auto. intros j Hj. lia. }
  rewrite upto_S, foldl_app. cbn [foldl].
  intros (mid & Hmid & Hstep)%bind_Ok.
  destruct (IH _ Hmid) as (Hl1 & Hl2 & Hlow & Hhigh).
  apply bind_Ok in Hstep as (Xbar & HX%at_index_Ok & Hstep).
  apply bind_Ok in Hstep as (x & Hx%at_index_Ok & Hstep).
  apply bind_Ok in Hstep as (BC1 & [Hr1 ->]%store_Ok & Hstep).
  apply bind_Ok in Hstep as (dec & Hdec%at_index_Ok & Hstep).
  apply bind_Ok in Hstep as (d & Hd%at_index_Ok & Hstep).
  apply bind_Ok in Hstep as (BC2 & [Hr2 ->]%store_Ok & [= <-]).
  rewrite index_of_nat in HX. rewrite index_of_nat in Hx.
  rewrite index_of_nat in Hdec. rewrite index_of_nat in Hd. rewrite Nat2Z.id. cbn.
  unfold len in Hr1, Hr2.
  split; [by rewrite length_insert|]. split; [by rewrite length_insert|]. split.
  - intros j Hj. destruct (decide (j = n)) as [->|Hne].
    + exists Xbar, x, dec, d. rewrite !list_lookup_insert_eq by lia. auto 10.
    + destruct (Hlow j) as (Xb & x' & dc & d' & ? & ? & ? & ? & ? & ?); [lia|].
      exists Xb, x', dc, d'. rewrite !list_lookup_insert_ne by done. auto 10.
  - intros j Hj. rewrite !list_lookup_insert_ne by lia. apply Hhigh. lia.
Qed.

(** X12. A server that is not the last one hands on the batch with, in every
    upload [i], chunk [j] of [BC1] replaced by the marshalled
    [Xbars[j][i]] and chunk [j] of [BC2] by the marshalled [decs[j][i]],
    for every chunk [j] the upload has; the uploads stay as many and as
    long as they were. *)
Theorem repack_Ok Xbars decs allUploads uploads :
  repack Xbars decs allUploads = Ok uploads ->
  length uploads = length allUploads /\
  forall (i : nat) upload, allUploads !! i = Some upload ->
    exists out,
      uploads !! i = Some out /\
      length (UpBlock.BC1 out) = length (UpBlock.BC1 upload) /\
      length (UpBlock.BC2 out) = length (UpBlock.BC2 upload) /\
      forall j : nat, (j < length (UpBlock.BC1 upload))%nat ->
        exists Xbar x dec d,
          Xbars !! j = Some Xbar /\ Xbar !! i = Some x /\
          decs !! j = Some dec /\ dec !! i = Some d /\
          UpBlock.BC1 out !! j = Some (MarshalPoint x) /\
          UpBlock.BC2 out !! j = Some (MarshalPoint d).
Proof.
  unfold repack. intros Hm%mapM_Ok. split.
  { apply Forall2_length in Hm. by rewrite length_imap in Hm. }
  intros i upload Hi.
  assert (imap pair allUploads !! i = Some (i, upload)) as Hp
    by (by rewrite list_lookup_imap, Hi).
  destruct (Forall2_lookup_l _ _ _ _ _ Hm Hp) as (out & Hout & Hrow).
  cbv beta iota in Hrow. unfold len in Hrow.
  apply repack_row in Hrow as (Hl1 & Hl2 & Hlow & _).
  exists out. auto.
Qed.

End RepackProps.

(** The batch of two uploads of two chunks, written back on the toy
    server. *)
Lemma repack_Ok_witness :
  @repack toy_suite toy_lib [[5; 1]; [6; 2]] [[50; 10]; [60; 20]]
    [UpBlock.mk [[1]; [2]] [[3]; [4]]; UpBlock.mk [[5]; [6]] [[7]; [8]]]
  = Ok [UpBlock.mk [[5]; [6]] [[50]; [60]]; UpBlock.mk [[1]; [2]] [[10]; [20]]] /\
  length [UpBlock.mk [[5]; [6]] [[50]; [60]]; UpBlock.mk [[1]; [2]] [[10]; [20]]]
  = 2%nat.
Proof.
  assert (@repack toy_suite toy_lib [[5; 1]; [6; 2]] [[50; 10]; [60; 20]]
            [UpBlock.mk [[1]; [2]] [[3]; [4]]; UpBlock.mk [[5]; [6]] [[7]; [8]]]
          = Ok [UpBlock.mk [[5]; [6]] [[50]; [60]];
                UpBlock.mk [[1]; [2]] [[10]; [20]]]) as Hr by reflexivity.
  split; [exact Hr|].
  exact (proj1 (@repack_Ok toy_suite toy_lib _ _ _ _ Hr)).
Defined.
